(** * Othello: board engine, evaluator and minimax search

    A shallow embedding of [othello.py] (classes [Player], [OthelloBoard]
    and [OthelloCPU]) and of the handlers of POST /api/game/move and
    POST /api/game/cpu-move of [api_server.py], together with the
    properties of the board engine, of the static evaluator, of the
    alpha-beta search and of the two handlers.

    Conventions of the embedding:
    - Python integers are [Z]; the numpy grid [self.board] is a list of
      rows, each a list of [Z];
    - a method that mutates [self.board] takes the board and returns the
      new one (explicit state passing); [make_move] returns the pair of its
      boolean result and the board it leaves behind;
    - a Python exception ([IndexError] of numpy indexing, [ValueError] of
      [np.zeros]) is [None] in the error monad [M];
    - the floats [float('-inf')] and [float('inf')] of the search are the
      two extra points of [ext]; every finite score of the program is an
      integer of small magnitude, which a Python float holds exactly. *)

From Stdlib Require Import ZArith List Bool Lia Sorted.
Import ListNotations.
Open Scope Z_scope.

(** ** The error monad *)

Definition M (A : Type) : Type := option A.

Definition ret {A : Type} (a : A) : M A := Some a.

Definition bind {A B : Type} (m : M A) (k : A -> M B) : M B :=
  match m with
  | Some a => k a
  | None => None
  end.

Notation "x <- m ;; k" := (bind m (fun x => k))
  (at level 61, m at next level, right associativity).

(** [for x in xs: acc = body(acc, x)] where the body may raise. *)
Fixpoint foldM {A B : Type} (body : A -> B -> M A) (xs : list B) (acc : A) : M A :=
  match xs with
  | [] => ret acc
  | x :: rest => acc' <- body acc x ;; foldM body rest acc'
  end.

(** ** class Player(Enum) *)

Inductive Player : Type := BLACK | WHITE | EMPTY.

Definition value (p : Player) : Z :=
  match p with
  | BLACK => 1
  | WHITE => -1
  | EMPTY => 0
  end.

Definition Player_eqb (p q : Player) : bool :=
  match p, q with
  | BLACK, BLACK | WHITE, WHITE | EMPTY, EMPTY => true
  | _, _ => false
  end.

(** ** Grids *)

Definition grid : Type := list (list Z).

(** [range(n)] *)
Definition range (n : Z) : list Z := map Z.of_nat (seq 0 (Z.to_nat n)).

Fixpoint list_set {A : Type} (l : list A) (n : nat) (x : A) : list A :=
  match l, n with
  | [], _ => []
  | _ :: t, O => x :: t
  | h :: t, S k => h :: list_set t k x
  end.

(** [g[r, c]] and [g[r, c] = v] for indices already known to lie inside the
    array: every such access of [self.board] in the source sits behind the
    test [0 <= r < self.size and 0 <= c < self.size] or inside
    [range(self.size)] loops, so on a board whose array has shape
    [(size, size)] (see [well_shaped]) the defaults below are never used. *)
Definition getitem (g : grid) (r c : Z) : Z :=
  nth (Z.to_nat c) (nth (Z.to_nat r) g []) 0.

Definition setitem (g : grid) (r c : Z) (v : Z) : grid :=
  list_set g (Z.to_nat r) (list_set (nth (Z.to_nat r) g []) (Z.to_nat c) v).

(** numpy's index normalisation on an axis of length [n]: negative indices
    count from the end, anything outside [-n .. n-1] raises [IndexError]. *)
Definition np_index (n i : Z) : M Z :=
  if (0 <=? i) && (i <? n) then ret i
  else if (- n <=? i) && (i <? 0) then ret (i + n)
  else None.

(** [np.zeros((n, n), dtype=int)]; a negative dimension raises.  An
    allocation that numpy refuses for its size is not modelled: what is
    said of the constructor at a size [n] is said of the board it returns,
    when it returns one. *)
Definition np_zeros (n : Z) : M grid :=
  if n <? 0 then None
  else ret (repeat (repeat 0 (Z.to_nat n)) (Z.to_nat n)).

(** [np.sum(mask)] for the boolean array [mask] obtained by testing every
    cell with [f]. *)
Definition count_row (f : Z -> bool) (row : list Z) : Z :=
  Z.of_nat (length (filter f row)).

Definition count_if (f : Z -> bool) (g : grid) : Z :=
  fold_right (fun row acc => count_row f row + acc) 0 g.

(** [np.sum(g == v)] *)
Definition count_grid (v : Z) (g : grid) : Z := count_if (Z.eqb v) g.

(** Number of cells that are not [Player.EMPTY.value]. *)
Definition occupied (g : grid) : Z := count_if (fun x => negb (x =? 0)) g.

(** ** class OthelloBoard *)

Record OthelloBoard : Type := mkBoard { size : Z; board : grid }.

Definition set_cell (b : OthelloBoard) (r c v : Z) : OthelloBoard :=
  mkBoard (size b) (setitem (board b) r c v).

(** An unguarded store [self.board[r, c] = v], as in
    [_setup_initial_position]. *)
Definition np_set_cell (b : OthelloBoard) (r c v : Z) : M OthelloBoard :=
  r' <- np_index (Z.of_nat (length (board b))) r ;;
  c' <- np_index (Z.of_nat (length (nth (Z.to_nat r') (board b) []))) c ;;
  ret (set_cell b r' c' v).

Definition _setup_initial_position (b : OthelloBoard) : M OthelloBoard :=
  let center := size b / 2 in
  b1 <- np_set_cell b (center - 1) (center - 1) (value WHITE) ;;
  b2 <- np_set_cell b1 (center - 1) center (value BLACK) ;;
  b3 <- np_set_cell b2 center (center - 1) (value BLACK) ;;
  np_set_cell b3 center center (value WHITE).

(** [OthelloBoard(size)] *)
Definition OthelloBoard_init (n : Z) : M OthelloBoard :=
  g <- np_zeros n ;;
  _setup_initial_position (mkBoard n g).

Definition in_bounds (b : OthelloBoard) (r c : Z) : bool :=
  (0 <=? r) && (r <? size b) && (0 <=? c) && (c <? size b).

Definition directions : list (Z * Z) :=
  [(-1, -1); (-1, 0); (-1, 1); (0, -1); (0, 1); (1, -1); (1, 0); (1, 1)].

(** The [while] loop of [_can_flip_in_direction], entered at [(r, c)] with
    the current [found_opponent].  [fuel] bounds the number of iterations;
    [can_flip_loop_fuel] shows that [size] iterations are enough for every
    direction of [directions]. *)
Fixpoint can_flip_loop (fuel : nat) (b : OthelloBoard) (r c dr dc : Z)
    (player : Player) (found_opponent : bool) : bool :=
  match fuel with
  | O => false
  | S k =>
    if in_bounds b r c then
      if getitem (board b) r c =? value EMPTY then false
      else if getitem (board b) r c =? value player then found_opponent
      else can_flip_loop k b (r + dr) (c + dc) dr dc player true
    else false
  end.

Definition _can_flip_in_direction (b : OthelloBoard) (row col dr dc : Z)
    (player : Player) : bool :=
  can_flip_loop (Z.to_nat (size b)) b (row + dr) (col + dc) dr dc player false.

Definition is_valid_move (b : OthelloBoard) (row col : Z) (player : Player) : bool :=
  if negb (in_bounds b row col) then false
  else if negb (getitem (board b) row col =? value EMPTY) then false
  else existsb (fun d => _can_flip_in_direction b row col (fst d) (snd d) player)
               directions.

(** The [while] loop of [_flip_pieces_in_direction]. *)
Fixpoint flip_loop (fuel : nat) (b : OthelloBoard) (r c dr dc : Z)
    (player : Player) : OthelloBoard :=
  match fuel with
  | O => b
  | S k =>
    if in_bounds b r c then
      if getitem (board b) r c =? value player then b
      else flip_loop k (set_cell b r c (value player)) (r + dr) (c + dc) dr dc player
    else b
  end.

Definition _flip_pieces_in_direction (b : OthelloBoard) (row col dr dc : Z)
    (player : Player) : OthelloBoard :=
  flip_loop (Z.to_nat (size b)) b (row + dr) (col + dc) dr dc player.

(** One iteration of the [for dr, dc in directions] loop of [make_move]. *)
Definition flip_step (row col : Z) (player : Player) (b : OthelloBoard)
    (d : Z * Z) : OthelloBoard :=
  if _can_flip_in_direction b row col (fst d) (snd d) player
  then _flip_pieces_in_direction b row col (fst d) (snd d) player
  else b.

Definition make_move (b : OthelloBoard) (row col : Z) (player : Player)
    : bool * OthelloBoard :=
  if negb (is_valid_move b row col player) then (false, b)
  else
    let b1 := set_cell b row col (value player) in
    (true, fold_left (flip_step row col player) directions b1).

Definition get_valid_moves (b : OthelloBoard) (player : Player) : list (Z * Z) :=
  flat_map (fun row =>
    flat_map (fun col =>
      if is_valid_move b row col player then [(row, col)] else [])
      (range (size b)))
    (range (size b)).

Definition get_score (b : OthelloBoard) : Z * Z :=
  (count_grid (value BLACK) (board b), count_grid (value WHITE) (board b)).

Definition is_game_over (b : OthelloBoard) : bool :=
  (Nat.eqb (length (get_valid_moves b BLACK)) 0) &&
  (Nat.eqb (length (get_valid_moves b WHITE)) 0).

(** [copy] builds a fresh object around a copy of the array; boards are
    values here, so the copy is the board itself. *)
Definition copy (b : OthelloBoard) : OthelloBoard := mkBoard (size b) (board b).

(** Shape and cell-value well-formedness, as decidable tests. *)
Definition well_shaped (b : OthelloBoard) : bool :=
  (0 <=? size b) &&
  Nat.eqb (length (board b)) (Z.to_nat (size b)) &&
  forallb (fun row => Nat.eqb (length row) (Z.to_nat (size b))) (board b).

Definition cell_ok (x : Z) : bool :=
  (x =? value EMPTY) || (x =? value BLACK) || (x =? value WHITE).

Definition cells_ok (b : OthelloBoard) : bool :=
  forallb (forallb cell_ok) (board b).

Definition well_formed (b : OthelloBoard) : bool :=
  well_shaped b && cells_ok b.

(** ** Scores of the search: floats with the two infinities *)

Inductive ext : Type := NegInf | Fin (z : Z) | PosInf.

Definition ext_leb (x y : ext) : bool :=
  match x, y with
  | NegInf, _ => true
  | _, PosInf => true
  | Fin a, Fin b => a <=? b
  | _, _ => false
  end.

Definition ext_ltb (x y : ext) : bool := negb (ext_leb y x).

(** Python's [max(x, y)] and [min(x, y)] on these numbers. *)
Definition ext_max (x y : ext) : ext := if ext_ltb x y then y else x.
Definition ext_min (x y : ext) : ext := if ext_ltb y x then y else x.

(** ** class OthelloCPU *)

Record OthelloCPU : Type := mkCPU {
  player : Player;
  opponent : Player;
  difficulty : nat;
  position_values : grid
}.

Definition POSITION_VALUES : grid :=
  [ [100; -20; 10; 5; 5; 10; -20; 100];
    [-20; -50; -2; -2; -2; -2; -50; -20];
    [10; -2; -1; -1; -1; -1; -2; 10];
    [5; -2; -1; -1; -1; -1; -2; 5];
    [5; -2; -1; -1; -1; -1; -2; 5];
    [10; -2; -1; -1; -1; -1; -2; 10];
    [-20; -50; -2; -2; -2; -2; -50; -20];
    [100; -20; 10; 5; 5; 10; -20; 100] ].

(** [OthelloCPU(player, difficulty)].  The difficulty is a natural number:
    the embedding covers [difficulty >= 1], where the search depth
    [difficulty - 1] is not negative. *)
Definition OthelloCPU_init (p : Player) (d : nat) : OthelloCPU :=
  mkCPU p (if Player_eqb p BLACK then WHITE else BLACK) d POSITION_VALUES.

(** [self.position_values[row, col]] for [row, col >= 0]: the table is not
    indexed behind a bounds test, so a row or column past its shape raises
    [IndexError]. *)
Definition pv_get (t : grid) (row col : Z) : M Z :=
  r <- nth_error t (Z.to_nat row) ;;
  nth_error r (Z.to_nat col).

(** Body of the two nested [for] loops over the position table. *)
Definition position_cell (cpu : OthelloCPU) (b : OthelloBoard) (row : Z)
    (position_score : Z) (col : Z) : M Z :=
  if getitem (board b) row col =? value (player cpu) then
    v <- pv_get (position_values cpu) row col ;; ret (position_score + v)
  else if getitem (board b) row col =? value (opponent cpu) then
    v <- pv_get (position_values cpu) row col ;; ret (position_score - v)
  else ret position_score.

Definition position_row (cpu : OthelloCPU) (b : OthelloBoard)
    (position_score : Z) (row : Z) : M Z :=
  foldM (position_cell cpu b row) (range (size b)) position_score.

Definition position_score (cpu : OthelloCPU) (b : OthelloBoard) : M Z :=
  foldM (position_row cpu b) (range (size b)) 0.

Definition TERMINAL : Z := 1000.

(** The first branch of [_evaluate_board], taken when the game is over. *)
Definition terminal_score (cpu : OthelloCPU) (b : OthelloBoard) : Z :=
  let '(black_score, white_score) := get_score b in
  if Player_eqb (player cpu) BLACK then
    if white_score <? black_score then TERMINAL
    else if black_score <? white_score then - TERMINAL
    else 0
  else
    if black_score <? white_score then TERMINAL
    else if white_score <? black_score then - TERMINAL
    else 0.

(** The heuristic part of [_evaluate_board]. *)
Definition heuristic_score (cpu : OthelloCPU) (b : OthelloBoard) : M Z :=
  let '(black_score, white_score) := get_score b in
  let piece_diff :=
    (black_score - white_score) * (if Player_eqb (player cpu) BLACK then 1 else -1) in
  let score := 0 + piece_diff * 10 in
  ps <- position_score cpu b ;;
  let score := score + ps in
  let cpu_moves := Z.of_nat (length (get_valid_moves b (player cpu))) in
  let opponent_moves := Z.of_nat (length (get_valid_moves b (opponent cpu))) in
  ret (score + (cpu_moves - opponent_moves) * 5).

Definition _evaluate_board (cpu : OthelloCPU) (b : OthelloBoard) : M Z :=
  if is_game_over b then ret (terminal_score cpu b)
  else heuristic_score cpu b.

(** [test_board = board.copy(); test_board.make_move(move[0], move[1], p)] *)
Definition apply_move (b : OthelloBoard) (move : Z * Z) (p : Player) : OthelloBoard :=
  snd (make_move (copy b) (fst move) (snd move) p).

(** The [for move in valid_moves] loop of [_get_greedy_move]. *)
Fixpoint greedy_loop (cpu : OthelloCPU) (b : OthelloBoard) (moves : list (Z * Z))
    (best_move : Z * Z) (best_score : Z) : M (Z * Z) :=
  match moves with
  | [] => ret best_move
  | move :: rest =>
    score <- _evaluate_board cpu (apply_move b move (player cpu)) ;;
    if best_score <? score
    then greedy_loop cpu b rest move score
    else greedy_loop cpu b rest best_move best_score
  end.

Definition _get_greedy_move (cpu : OthelloCPU) (b : OthelloBoard)
    (valid_moves : list (Z * Z)) : M (Z * Z) :=
  best_move <- nth_error valid_moves 0 ;;
  greedy_loop cpu b valid_moves best_move (-1).

Section MinimaxLoops.
(** The recursive call [self._minimax(test_board, depth - 1, alpha, beta, _)]
    made from inside the two loops. *)
Variable child : OthelloBoard -> ext -> ext -> M ext.
Variable b : OthelloBoard.
Variable current_player : Player.

(** Loop of the maximizing branch, with its [break]. *)
Fixpoint max_loop (moves : list (Z * Z)) (max_score alpha beta : ext) : M ext :=
  match moves with
  | [] => ret max_score
  | move :: rest =>
    score <- child (apply_move b move current_player) alpha beta ;;
    let max_score := ext_max max_score score in
    let alpha := ext_max alpha score in
    if ext_leb beta alpha then ret max_score
    else max_loop rest max_score alpha beta
  end.

(** Loop of the minimizing branch, with its [break]. *)
Fixpoint min_loop (moves : list (Z * Z)) (min_score alpha beta : ext) : M ext :=
  match moves with
  | [] => ret min_score
  | move :: rest =>
    score <- child (apply_move b move current_player) alpha beta ;;
    let min_score := ext_min min_score score in
    let beta := ext_min beta score in
    if ext_leb beta alpha then ret min_score
    else min_loop rest min_score alpha beta
  end.
End MinimaxLoops.

Definition score_of (m : M Z) : M ext := x <- m ;; ret (Fin x).

Fixpoint _minimax (cpu : OthelloCPU) (depth : nat) (b : OthelloBoard)
    (alpha beta : ext) (is_maximizing : bool) : M ext :=
  match depth with
  | O => score_of (_evaluate_board cpu b)
  | S depth' =>
    if is_game_over b then score_of (_evaluate_board cpu b)
    else
      let current_player := if is_maximizing then player cpu else opponent cpu in
      let valid_moves := get_valid_moves b current_player in
      match valid_moves with
      | [] => _minimax cpu depth' b alpha beta (negb is_maximizing)
      | _ :: _ =>
        if is_maximizing then
          max_loop (fun tb a bt => _minimax cpu depth' tb a bt false)
                   b current_player valid_moves NegInf alpha beta
        else
          min_loop (fun tb a bt => _minimax cpu depth' tb a bt true)
                   b current_player valid_moves PosInf alpha beta
      end
  end.

(** The loop of [_get_minimax_move], over any scoring of the root moves. *)
Fixpoint root_loop (score_move : OthelloBoard -> M ext) (cpu : OthelloCPU)
    (b : OthelloBoard) (moves : list (Z * Z)) (best_move : Z * Z)
    (best_score : ext) : M (Z * Z) :=
  match moves with
  | [] => ret best_move
  | move :: rest =>
    score <- score_move (apply_move b move (player cpu)) ;;
    if ext_ltb best_score score
    then root_loop score_move cpu b rest move score
    else root_loop score_move cpu b rest best_move best_score
  end.

Definition _get_minimax_move (cpu : OthelloCPU) (b : OthelloBoard)
    (valid_moves : list (Z * Z)) : M (Z * Z) :=
  best_move <- nth_error valid_moves 0 ;;
  root_loop (fun tb => _minimax cpu (difficulty cpu - 1)%nat tb NegInf PosInf false)
            cpu b valid_moves best_move NegInf.

(** [random.choice(valid_moves)], the draw being the index [rnd]. *)
Definition _get_random_move (rnd : nat) (valid_moves : list (Z * Z)) : M (Z * Z) :=
  nth_error valid_moves (rnd mod length valid_moves)%nat.

(** [get_move]: [None] is an exception, [Some None] is Python's [None]
    (no legal move), [Some (Some m)] a move. *)
Definition get_move (rnd : nat) (cpu : OthelloCPU) (b : OthelloBoard)
    : M (option (Z * Z)) :=
  let valid_moves := get_valid_moves b (player cpu) in
  match valid_moves with
  | [] => ret None
  | _ :: _ =>
    if Nat.eqb (difficulty cpu) 1 then
      m <- _get_random_move rnd valid_moves ;; ret (Some m)
    else if Nat.eqb (difficulty cpu) 2 then
      m <- _get_greedy_move cpu b valid_moves ;; ret (Some m)
    else
      m <- _get_minimax_move cpu b valid_moves ;; ret (Some m)
  end.

(** ** Reference search without pruning

    The comparison point of the pruning theorem: the same recursion as
    [_minimax] (same base case, same pass rule, same move order) with no
    [alpha]/[beta] window and no [break]. *)

Section UnprunedLoops.
Variable child : OthelloBoard -> M ext.
Variable b : OthelloBoard.
Variable current_player : Player.

Fixpoint max_all (moves : list (Z * Z)) (max_score : ext) : M ext :=
  match moves with
  | [] => ret max_score
  | move :: rest =>
    score <- child (apply_move b move current_player) ;;
    max_all rest (ext_max max_score score)
  end.

Fixpoint min_all (moves : list (Z * Z)) (min_score : ext) : M ext :=
  match moves with
  | [] => ret min_score
  | move :: rest =>
    score <- child (apply_move b move current_player) ;;
    min_all rest (ext_min min_score score)
  end.
End UnprunedLoops.

Fixpoint minimax_unpruned (cpu : OthelloCPU) (depth : nat) (b : OthelloBoard)
    (is_maximizing : bool) : M ext :=
  match depth with
  | O => score_of (_evaluate_board cpu b)
  | S depth' =>
    if is_game_over b then score_of (_evaluate_board cpu b)
    else
      let current_player := if is_maximizing then player cpu else opponent cpu in
      let valid_moves := get_valid_moves b current_player in
      match valid_moves with
      | [] => minimax_unpruned cpu depth' b (negb is_maximizing)
      | _ :: _ =>
        if is_maximizing then
          max_all (fun tb => minimax_unpruned cpu depth' tb false)
                  b current_player valid_moves NegInf
        else
          min_all (fun tb => minimax_unpruned cpu depth' tb true)
                  b current_player valid_moves PosInf
      end
  end.

Definition get_minimax_move_unpruned (cpu : OthelloCPU) (b : OthelloBoard)
    (valid_moves : list (Z * Z)) : M (Z * Z) :=
  best_move <- nth_error valid_moves 0 ;;
  root_loop (fun tb => minimax_unpruned cpu (difficulty cpu - 1)%nat tb false)
            cpu b valid_moves best_move NegInf.

(** [get_move] of a CPU that searches without pruning. *)
Definition get_move_unpruned (cpu : OthelloCPU) (b : OthelloBoard)
    : M (option (Z * Z)) :=
  let valid_moves := get_valid_moves b (player cpu) in
  match valid_moves with
  | [] => ret None
  | _ :: _ => m <- get_minimax_move_unpruned cpu b valid_moves ;; ret (Some m)
  end.

(** A score as the window [(alpha, beta)] sees it: anything at or below
    [alpha] counts as [alpha], anything at or above [beta] as [beta]. *)
Definition clamp (alpha beta x : ext) : ext := ext_min beta (ext_max alpha x).

(** ** Boards reachable by play *)

Inductive reachable (n : Z) : OthelloBoard -> Prop :=
| reach_init : forall b, OthelloBoard_init n = Some b -> reachable n b
| reach_move : forall b row col p,
    reachable n b -> reachable n (snd (make_move b row col p)).

(** Replays a list of [(row, col, player)] calls of [make_move]. *)
Definition play (b : OthelloBoard) (ms : list (Z * Z * Player)) : OthelloBoard :=
  fold_left (fun acc m => snd (make_move acc (fst (fst m)) (snd (fst m)) (snd m))) ms b.

(** ** Flip lines, stated on the cells themselves *)

Definition cell_at (b : OthelloBoard) (row col dr dc : Z) (i : nat) : Z :=
  getitem (board b) (row + Z.of_nat i * dr) (col + Z.of_nat i * dc).

Definition inside_at (b : OthelloBoard) (row col dr dc : Z) (i : nat) : Prop :=
  in_bounds b (row + Z.of_nat i * dr) (col + Z.of_nat i * dc) = true.

(** From [(row, col)] in direction [(dr, dc)]: cells [1 .. k] hold pieces
    that are not [p]'s, and cell [k + 1] holds a piece of [p]. *)
Definition flip_line (b : OthelloBoard) (row col dr dc : Z) (p : Player)
    (k : nat) : Prop :=
  (1 <= k)%nat /\
  (forall i, (1 <= i <= k)%nat ->
     inside_at b row col dr dc i /\
     cell_at b row col dr dc i <> value EMPTY /\
     cell_at b row col dr dc i <> value p) /\
  inside_at b row col dr dc (S k) /\
  cell_at b row col dr dc (S k) = value p /\
  p <> EMPTY.

(** ** Sums over the cells of a board *)

Definition b2z (x : bool) : Z := if x then 1 else 0.

Definition zsum (l : list Z) : Z := fold_right Z.add 0 l.

Definition sum_over {A : Type} (f : A -> Z) (xs : list A) : Z := zsum (map f xs).

(** The sum of [f row col] over the two nested [range(n)] loops. *)
Definition sum_cells (f : Z -> Z -> Z) (n : Z) : Z :=
  sum_over (fun row => sum_over (fun col => f row col) (range n)) (range n).

(** What one cell adds to [position_score] when the table lookup succeeds. *)
Definition position_term (cpu : OthelloCPU) (b : OthelloBoard) (row col : Z) : Z :=
  if getitem (board b) row col =? value (player cpu) then
    getitem (position_values cpu) row col
  else if getitem (board b) row col =? value (opponent cpu) then
    - getitem (position_values cpu) row col
  else 0.

(** The largest share of the heuristic score a cell can carry: a piece on
    [(row, col)] counts 10 for the piece and the table entry for the place. *)
Definition cell_weight (row col : Z) : Z :=
  Z.abs (10 + getitem POSITION_VALUES row col).

(** What one cell adds to the heuristic score: its piece, its place, and
    the legal move it may offer to either side. *)
Definition cell_term (cpu : OthelloCPU) (b : OthelloBoard) (row col : Z) : Z :=
  10 * ((b2z (value BLACK =? getitem (board b) row col)
         - b2z (value WHITE =? getitem (board b) row col))
        * (if Player_eqb (player cpu) BLACK then 1 else -1))
  + position_term cpu b row col
  + 5 * (b2z (is_valid_move b row col (player cpu))
         - b2z (is_valid_move b row col (opponent cpu))).

(** ** Concrete boards *)

(** [OthelloBoard(8)], the standard opening position. *)
Definition initial8 : OthelloBoard :=
  mkBoard 8
    [ [0; 0; 0; 0; 0; 0; 0; 0];
      [0; 0; 0; 0; 0; 0; 0; 0];
      [0; 0; 0; 0; 0; 0; 0; 0];
      [0; 0; 0; -1; 1; 0; 0; 0];
      [0; 0; 0; 1; -1; 0; 0; 0];
      [0; 0; 0; 0; 0; 0; 0; 0];
      [0; 0; 0; 0; 0; 0; 0; 0];
      [0; 0; 0; 0; 0; 0; 0; 0] ].

(** A 4x4 position in which White cannot move and Black can. *)
Definition pass_board : OthelloBoard :=
  mkBoard 4
    [ [1; -1; 0; 0];
      [0; 0; 0; 0];
      [0; 0; 0; 0];
      [0; 0; 0; 0] ].

(** A 4x4 board filled by Black: the game is over. *)
Definition full_black4 : OthelloBoard :=
  mkBoard 4
    [ [1; 1; 1; 1];
      [1; 1; 1; 1];
      [1; 1; 1; 1];
      [1; 1; 1; 1] ].

(** The 10x10 game [OthelloBoard(10)] after Black (6,5), White (6,4),
    Black (7,3), White (7,4), Black (8,3). *)
Definition opening10 : list (Z * Z * Player) :=
  [(6, 5, BLACK); (6, 4, WHITE); (7, 3, BLACK); (7, 4, WHITE); (8, 3, BLACK)].

Definition board10 : OthelloBoard :=
  mkBoard 10
    [ [0; 0; 0; 0; 0; 0; 0; 0; 0; 0];
      [0; 0; 0; 0; 0; 0; 0; 0; 0; 0];
      [0; 0; 0; 0; 0; 0; 0; 0; 0; 0];
      [0; 0; 0; 0; 0; 0; 0; 0; 0; 0];
      [0; 0; 0; 0; -1; 1; 0; 0; 0; 0];
      [0; 0; 0; 0; -1; 1; 0; 0; 0; 0];
      [0; 0; 0; 0; -1; 1; 0; 0; 0; 0];
      [0; 0; 0; 1; 1; 0; 0; 0; 0; 0];
      [0; 0; 0; 1; 0; 0; 0; 0; 0; 0];
      [0; 0; 0; 0; 0; 0; 0; 0; 0; 0] ].

(** An 8x8 position with White to move: (3,4) and (5,5) are White's two
    legal moves. *)
Definition greedy_board : OthelloBoard :=
  mkBoard 8
    [ [1; 0; 0; 0; 0; 0; 0; 0];
      [0; 0; 0; 0; 0; 0; 0; 0];
      [0; 0; 0; 0; 0; 0; 0; 0];
      [0; 0; -1; 1; 0; 0; 0; 0];
      [0; 0; 0; 0; 0; 0; 0; 0];
      [0; 0; -1; 1; 1; 0; 0; 0];
      [0; 0; 0; 0; 0; 0; 0; 0];
      [0; 0; 0; 0; 0; 0; 0; 0] ].

(** An 8x8 position with one empty cell, (2,2), where both sides can move:
    Black holds every cell but the twelve next to the corners. *)
Definition heavy_board : OthelloBoard :=
  mkBoard 8
    [ [1; -1; 1; 1; 1; 1; -1; 1];
      [-1; -1; 1; 1; 1; 1; -1; -1];
      [1; 1; 0; 1; 1; 1; 1; 1];
      [1; 1; 1; 1; 1; 1; 1; 1];
      [1; 1; 1; 1; 1; 1; 1; 1];
      [1; 1; 1; 1; 1; 1; 1; 1];
      [-1; -1; 1; 1; 1; 1; -1; -1];
      [1; -1; 1; 1; 1; 1; -1; 1] ].

(** A 10x10 position with Black to move, every piece inside the first
    eight rows and columns. *)
Definition cutoff_board : OthelloBoard :=
  mkBoard 10
    [ [0; 0; 0; 0; 0; 0; 0; 0; 0; 0];
      [0; 0; 0; 0; 0; 0; 0; 0; 0; 0];
      [0; 0; 0; 0; 0; 0; 0; 0; 0; 0];
      [0; 0; 0; 0; 0; 0; 1; 0; 0; 0];
      [0; 0; 0; 0; -1; -1; 1; 0; 0; 0];
      [0; 0; -1; 0; 1; 0; 0; 0; 0; 0];
      [0; 0; 0; 0; 0; 0; 0; 0; 0; 0];
      [0; 0; 0; 0; 0; 0; 0; 0; 0; 0];
      [0; 0; 0; 0; 0; 0; 0; 0; 0; 0];
      [0; 0; 0; 0; 0; 0; 0; 0; 0; 0] ].

(** The 10x10 game [OthelloBoard(10)] after Black (3,4), White (3,3),
    Black (5,6), White (6,4): Black to move, every piece inside the first
    eight rows and columns. *)
Definition cut_opening10 : list (Z * Z * Player) :=
  [(3, 4, BLACK); (3, 3, WHITE); (5, 6, BLACK); (6, 4, WHITE)].

Definition cut_board10 : OthelloBoard :=
  mkBoard 10
    [ [0; 0; 0; 0; 0; 0; 0; 0; 0; 0];
      [0; 0; 0; 0; 0; 0; 0; 0; 0; 0];
      [0; 0; 0; 0; 0; 0; 0; 0; 0; 0];
      [0; 0; 0; -1; 1; 0; 0; 0; 0; 0];
      [0; 0; 0; 0; -1; 1; 0; 0; 0; 0];
      [0; 0; 0; 0; -1; 1; 1; 0; 0; 0];
      [0; 0; 0; 0; -1; 0; 0; 0; 0; 0];
      [0; 0; 0; 0; 0; 0; 0; 0; 0; 0];
      [0; 0; 0; 0; 0; 0; 0; 0; 0; 0];
      [0; 0; 0; 0; 0; 0; 0; 0; 0; 0] ].

(** ** Notions used by the further properties *)

(** Row-major order on moves. *)
Definition move_lt (m1 m2 : Z * Z) : Prop :=
  fst m1 < fst m2 \/ (fst m1 = fst m2 /\ snd m1 < snd m2).

(** Number of calls of [make_move] that return [True] when the calls [ms]
    are replayed from [b]. *)
Fixpoint applied (b : OthelloBoard) (ms : list (Z * Z * Player)) : Z :=
  match ms with
  | [] => 0
  | m :: rest =>
    b2z (fst (make_move b (fst (fst m)) (snd (fst m)) (snd m)))
    + applied (snd (make_move b (fst (fst m)) (snd (fst m)) (snd m))) rest
  end.

(** The cells that a move of [p] on [(row, col)] turns over, looking only
    at the directions [ds]: the cells strictly inside a flip line. *)
Definition flipped_in (b : OthelloBoard) (row col : Z) (p : Player)
    (ds : list (Z * Z)) (r c : Z) : Prop :=
  exists d k i,
    In d ds /\ flip_line b row col (fst d) (snd d) p k /\
    (1 <= i <= k)%nat /\
    r = row + Z.of_nat i * fst d /\ c = col + Z.of_nat i * snd d.

(** The state of [make_move] after the directions [done]: [bc] holds [p]
    on the cell played and on the cells turned over so far, and is the
    board [b] of before anywhere else. *)
Definition move_inv (b : OthelloBoard) (row col : Z) (p : Player)
    (done : list (Z * Z)) (bc : OthelloBoard) : Prop :=
  well_shaped bc = true /\ size bc = size b /\
  forall r c, in_bounds b r c = true ->
    (((r = row /\ c = col) \/ flipped_in b row col p done r c) ->
       getitem (board bc) r c = value p) /\
    (~ (r = row /\ c = col) -> ~ flipped_in b row col p done r c ->
       getitem (board bc) r c = getitem (board b) r c).

(** The four central cells written by [_setup_initial_position] on a board
    of size [n], as a function of the cell. *)
Definition initial_cell (n r c : Z) : Z :=
  let center := n / 2 in
  if ((r =? center - 1) && (c =? center - 1)) || ((r =? center) && (c =? center))
  then value WHITE
  else if ((r =? center - 1) && (c =? center)) || ((r =? center) && (c =? center - 1))
  then value BLACK
  else value EMPTY.

Definition zero_board (n : Z) : OthelloBoard :=
  mkBoard n (repeat (repeat 0 (Z.to_nat n)) (Z.to_nat n)).

(** Some piece stands on a row or a column that the 8x8 table of position
    values does not have. *)
Definition piece_outside_table (b : OthelloBoard) : bool :=
  existsb (fun row =>
    existsb (fun col =>
      ((8 <=? row) || (8 <=? col)) && negb (getitem (board b) row col =? 0))
      (range (size b)))
    (range (size b)).

(** ** The HTTP routes ([api_server.py], [backend/app/api/routes.py])

    The two files define the same handlers.  A handler is its [try] body,
    which returns a response or raises, followed by the two [except]
    clauses.  The request's [board] is a list of rows of integers.  The
    handlers are modelled, and their properties stated, for requests that
    carry a well-formed board: 8 rows of 8 cells, each cell 0, 1 or -1.
    On such a request [np.array(board_list)] is an integer array holding
    the same cells, no access of the engine is out of range, and the
    response models ([BoardState], [CPUMoveResponse]) accept the values
    the handler gives them; requests outside that domain (a ragged list,
    cells that numpy stores as floats or objects) are not covered. *)

(** [Player(v)]: the lookup by value raises [ValueError] on any other
    integer. *)
Definition Player_of_value (v : Z) : option Player :=
  if v =? 1 then Some BLACK
  else if v =? -1 then Some WHITE
  else if v =? 0 then Some EMPTY
  else None.

(** [list_to_board]: a default [OthelloBoard()], of size 8, whose array is
    replaced by [np.array(board_list)]: on a well-formed request, the
    request's cells themselves. *)
Definition list_to_board (board_list : grid) : OthelloBoard := mkBoard 8 board_list.

Definition board_to_list (b : OthelloBoard) : grid := board b.

(** What a [try] body can raise. *)
Inductive raised : Type :=
| ValueError
| HTTPException (status_code : Z)
| OtherException.

Inductive response (A : Type) : Type :=
| Ok (body : A)
| HTTPError (status_code : Z).
Arguments Ok {A} body.
Arguments HTTPError {A} status_code.

(** [except ValueError: raise HTTPException(400)], then
    [except Exception: raise HTTPException(500)]: the second clause also
    catches an [HTTPException] raised inside the [try] body. *)
Definition handle {A : Type} (r : raised + A) : response A :=
  match r with
  | inr a => Ok a
  | inl ValueError => HTTPError 400
  | inl _ => HTTPError 500
  end.

Record BoardState : Type := mkBoardState {
  bs_board : grid;
  current_player : Z;
  black_score : Z;
  white_score : Z;
  game_over : bool;
  winner : option Z;
  valid_moves : list (Z * Z)
}.

Record CPUMoveResponse : Type := mkCPUMoveResponse {
  move : option (Z * Z);
  new_board : grid;
  cpu_black_score : Z;
  cpu_white_score : Z;
  cpu_valid_moves : list (Z * Z)
}.

(** POST /api/game/move *)
Definition route_make_move (board_list : grid) (row col player_value : Z)
    : response BoardState :=
  handle
    (let board0 := list_to_board board_list in
     match Player_of_value player_value with
     | None => inl ValueError
     | Some p =>
       if negb (is_valid_move board0 row col p) then inl (HTTPException 400)
       else
         let '(success, board1) := make_move board0 row col p in
         if negb success then inl (HTTPException 400)
         else
           let '(bl, wh) := get_score board1 in
           let next_player := if Player_eqb p BLACK then WHITE else BLACK in
           let moves := get_valid_moves board1 next_player in
           let over := is_game_over board1 in
           let win :=
             if over then
               if wh <? bl then Some (value BLACK)
               else if bl <? wh then Some (value WHITE)
               else None
             else None in
           inr (mkBoardState (board_to_list board1) (value next_player)
                             bl wh over win moves)
     end).

(** POST /api/game/cpu-move *)
Definition route_get_cpu_move (rnd : nat) (board_list : grid)
    (player_value : Z) (difficulty_level : nat) : response CPUMoveResponse :=
  handle
    (let board0 := list_to_board board_list in
     match Player_of_value player_value with
     | None => inl ValueError
     | Some p =>
       let cpu := OthelloCPU_init p difficulty_level in
       match get_move rnd cpu board0 with
       | None => inl OtherException
       | Some None =>
         inr (mkCPUMoveResponse None (board_to_list board0)
                (fst (get_score board0)) (snd (get_score board0))
                (get_valid_moves board0 p))
       | Some (Some mv) =>
         let '(success, board1) := make_move board0 (fst mv) (snd mv) p in
         if negb success then inl (HTTPException 500)
         else
           let '(bl, wh) := get_score board1 in
           let next_player := if Player_eqb p BLACK then WHITE else BLACK in
           inr (mkCPUMoveResponse (Some mv) (board_to_list board1) bl wh
                  (get_valid_moves board1 next_player))
       end
     end).

(** * Properties *)

(** ** Lists and grids *)

Lemma list_set_length {A : Type} (l : list A) (n : nat) (x : A) :
  length (list_set l n x) = length l.
Proof.
  revert n; induction l as [|h t IH]; intros [|n]; simpl; auto.
Qed.

Lemma nth_list_set_same {A : Type} (l : list A) (n : nat) (x d : A) :
  (n < length l)%nat -> nth n (list_set l n x) d = x.
Proof.
  revert n; induction l as [|h t IH]; intros [|n] H; simpl in *; try lia; auto.
  apply IH; lia.
Qed.

Lemma nth_list_set_other {A : Type} (l : list A) (n m : nat) (x d : A) :
  n <> m -> nth m (list_set l n x) d = nth m l d.
Proof.
  revert n m; induction l as [|h t IH]; intros [|n] [|m] H; simpl; auto;
    try congruence.
Qed.

Lemma forallb_list_set {A : Type} (P : A -> bool) (l : list A) (n : nat) (x : A) :
  forallb P l = true -> P x = true -> forallb P (list_set l n x) = true.
Proof.
  revert n; induction l as [|h t IH]; intros [|n] Hl Hx; simpl in *; auto.
  - apply andb_true_iff in Hl as [_ Ht]. now rewrite Hx.
  - apply andb_true_iff in Hl as [Hh Ht]. rewrite Hh. simpl. now apply IH.
Qed.

Lemma forallb_nth {A : Type} (P : A -> bool) (l : list A) (n : nat) (d : A) :
  forallb P l = true -> P d = true -> P (nth n l d) = true.
Proof.
  revert n; induction l as [|h t IH]; intros [|n] Hl Hd; simpl in *; auto.
  - now apply andb_true_iff in Hl as [Hh _].
  - apply andb_true_iff in Hl as [_ Ht]. now apply IH.
Qed.

Lemma count_row_nonneg (f : Z -> bool) (row : list Z) : 0 <= count_row f row.
Proof. unfold count_row; lia. Qed.

Lemma count_row_list_set (f : Z -> bool) (l : list Z) (n : nat) (x : Z) :
  (n < length l)%nat ->
  count_row f (list_set l n x) = count_row f l - b2z (f (nth n l 0)) + b2z (f x).
Proof.
  unfold count_row, b2z.
  revert n; induction l as [|h t IH]; intros [|n] H;
    cbn [length list_set nth filter] in *; try lia.
  - destruct (f x), (f h); cbn [length]; lia.
  - specialize (IH n ltac:(lia)).
    destruct (f h); cbn [length]; lia.
Qed.

Lemma count_if_list_set (f : Z -> bool) (g : grid) (n : nat) (row : list Z) :
  (n < length g)%nat ->
  count_if f (list_set g n row)
  = count_if f g - count_row f (nth n g []) + count_row f row.
Proof.
  revert n; induction g as [|h t IH]; intros [|n] H; simpl in *; try lia.
  specialize (IH n ltac:(lia)). lia.
Qed.

Lemma in_range (n x : Z) : In x (range n) <-> 0 <= x < n.
Proof.
  unfold range. rewrite in_map_iff. split.
  - intros [k [<- Hk]]. apply in_seq in Hk. lia.
  - intros H. exists (Z.to_nat x). split; [lia|]. apply in_seq. lia.
Qed.

Lemma list_set_overflow {A : Type} (l : list A) (n : nat) (x : A) :
  (length l <= n)%nat -> list_set l n x = l.
Proof.
  revert n; induction l as [|h t IH]; intros [|n] H; simpl in *; auto; try lia.
  f_equal. apply IH. lia.
Qed.

Lemma In_list_set {A : Type} (l : list A) (n : nat) (x y : A) :
  In y (list_set l n x) -> (y = x /\ (n < length l)%nat) \/ In y l.
Proof.
  revert n; induction l as [|h t IH]; intros [|n] H; simpl in *; auto.
  - destruct H as [<-|H]; [left; split; [reflexivity|lia] | right; now right].
  - destruct H as [<-|H]; [right; now left|].
    destruct (IH _ H) as [[-> Hn]|Hin]; [left; split; [reflexivity|lia] | right; now right].
Qed.

(** ** Board accesses *)

Lemma in_bounds_iff (b : OthelloBoard) (r c : Z) :
  in_bounds b r c = true <-> 0 <= r < size b /\ 0 <= c < size b.
Proof.
  unfold in_bounds. rewrite !andb_true_iff, !Z.leb_le, !Z.ltb_lt. lia.
Qed.

Lemma well_shaped_iff (b : OthelloBoard) :
  well_shaped b = true <->
  0 <= size b /\ length (board b) = Z.to_nat (size b) /\
  (forall row, In row (board b) -> length row = Z.to_nat (size b)).
Proof.
  unfold well_shaped.
  rewrite !andb_true_iff, Z.leb_le, Nat.eqb_eq, forallb_forall.
  split.
  - intros [[H0 H1] H2]. repeat split; auto.
    intros row Hr. apply Nat.eqb_eq. now apply H2.
  - intros (H0 & H1 & H2). repeat split; auto.
    intros row Hr. apply Nat.eqb_eq. now apply H2.
Qed.

Lemma row_length (b : OthelloBoard) (r : Z) :
  well_shaped b = true -> 0 <= r < size b ->
  length (nth (Z.to_nat r) (board b) []) = Z.to_nat (size b).
Proof.
  intros Hw Hr. apply well_shaped_iff in Hw as (H0 & H1 & H2).
  apply H2, nth_In. lia.
Qed.

Lemma set_cell_well_shaped (b : OthelloBoard) (r c v : Z) :
  well_shaped b = true -> well_shaped (set_cell b r c v) = true.
Proof.
  intros Hw. pose proof Hw as Hw'.
  apply well_shaped_iff in Hw as (H0 & H1 & H2).
  apply well_shaped_iff. unfold set_cell, setitem. cbn [size board].
  repeat split; auto.
  - now rewrite list_set_length.
  - intros row Hin. apply In_list_set in Hin as [[-> Hn]|Hin]; auto.
    rewrite list_set_length. apply H2, nth_In. exact Hn.
Qed.

Lemma getitem_set_cell_same (b : OthelloBoard) (r c v : Z) :
  well_shaped b = true -> in_bounds b r c = true ->
  getitem (board (set_cell b r c v)) r c = v.
Proof.
  intros Hw Hb. apply in_bounds_iff in Hb as [Hr Hc].
  pose proof (row_length b r Hw Hr) as Hlen.
  apply well_shaped_iff in Hw as (H0 & H1 & H2).
  unfold set_cell, setitem, getitem. cbn [board].
  rewrite nth_list_set_same by lia.
  apply nth_list_set_same. lia.
Qed.

Lemma getitem_setitem_other (g : grid) (r c v r' c' : Z) :
  0 <= r -> 0 <= c -> 0 <= r' -> 0 <= c' -> (r', c') <> (r, c) ->
  getitem (setitem g r c v) r' c' = getitem g r' c'.
Proof.
  intros Hr Hc Hr' Hc' Hne. unfold setitem, getitem.
  destruct (Z.eq_dec r r') as [<-|Hrr].
  - destruct (Nat.lt_ge_cases (Z.to_nat r) (length g)) as [Hlt|Hge].
    + rewrite nth_list_set_same by exact Hlt.
      apply nth_list_set_other. intros E. apply Hne. f_equal. lia.
    + now rewrite list_set_overflow by exact Hge.
  - rewrite nth_list_set_other by lia. reflexivity.
Qed.

Lemma count_set_cell (f : Z -> bool) (b : OthelloBoard) (r c v : Z) :
  well_shaped b = true -> in_bounds b r c = true ->
  count_if f (board (set_cell b r c v))
  = count_if f (board b) - b2z (f (getitem (board b) r c)) + b2z (f v).
Proof.
  intros Hw Hb. apply in_bounds_iff in Hb as [Hr Hc].
  pose proof (row_length b r Hw Hr) as Hlen.
  apply well_shaped_iff in Hw as (H0 & H1 & H2).
  unfold set_cell, setitem, getitem. cbn [board].
  rewrite count_if_list_set by lia.
  rewrite count_row_list_set by lia. lia.
Qed.

Lemma cell_ok_value (p : Player) : cell_ok (value p) = true.
Proof. now destruct p. Qed.

Lemma set_cell_cells_ok (b : OthelloBoard) (r c v : Z) :
  cells_ok b = true -> cell_ok v = true -> cells_ok (set_cell b r c v) = true.
Proof.
  unfold cells_ok, set_cell, setitem. cbn [board]. intros Hb Hv.
  apply forallb_list_set; [exact Hb|].
  apply forallb_list_set; [|exact Hv].
  now apply (forallb_nth (forallb cell_ok)).
Qed.

Lemma getitem_cell_ok (b : OthelloBoard) (r c : Z) :
  cells_ok b = true -> cell_ok (getitem (board b) r c) = true.
Proof.
  unfold cells_ok, getitem. intros Hb.
  apply forallb_nth; [|reflexivity].
  now apply (forallb_nth (forallb cell_ok)).
Qed.

(** ** The two direction walks *)

Section Walks.
Variables (dr dc : Z) (p : Player).

Lemma can_flip_loop_EMPTY (fuel : nat) (b : OthelloBoard) (r c : Z) (found : bool) :
  can_flip_loop fuel b r c dr dc EMPTY found = false.
Proof.
  revert r c found; induction fuel as [|k IH]; intros r c found; simpl; auto.
  destruct (in_bounds b r c); auto.
  destruct (getitem (board b) r c =? 0); auto.
Qed.

Lemma cell_at_S (b : OthelloBoard) (r c : Z) (i : nat) :
  cell_at b (r + dr) (c + dc) dr dc i = cell_at b r c dr dc (S i).
Proof. unfold cell_at. f_equal; lia. Qed.

Lemma inside_at_S (b : OthelloBoard) (r c : Z) (i : nat) :
  inside_at b (r + dr) (c + dc) dr dc i <-> inside_at b r c dr dc (S i).
Proof.
  unfold inside_at.
  replace (r + dr + Z.of_nat i * dr) with (r + Z.of_nat (S i) * dr) by lia.
  replace (c + dc + Z.of_nat i * dc) with (c + Z.of_nat (S i) * dc) by lia.
  reflexivity.
Qed.

Lemma cell_at_0 (b : OthelloBoard) (r c : Z) :
  cell_at b r c dr dc 0 = getitem (board b) r c.
Proof. unfold cell_at. f_equal; lia. Qed.

Lemma inside_at_0 (b : OthelloBoard) (r c : Z) :
  inside_at b r c dr dc 0 <-> in_bounds b r c = true.
Proof.
  unfold inside_at.
  replace (r + Z.of_nat 0 * dr) with r by lia.
  replace (c + Z.of_nat 0 * dc) with c by lia.
  reflexivity.
Qed.

(** What the walk of [_can_flip_in_direction] decides, from any state of
    its loop: it answers [True] exactly when, [j] steps ahead and within
    the fuel, there is a piece of [p] reached over non-empty cells that
    are not [p]'s, an opponent piece having been seen on the way. *)
Lemma can_flip_loop_spec (b : OthelloBoard) (fuel : nat) :
  forall (r c : Z) (found : bool),
    can_flip_loop fuel b r c dr dc p found = true <->
    exists j : nat,
      (j < fuel)%nat /\
      (forall i, (i < j)%nat ->
         inside_at b r c dr dc i /\
         cell_at b r c dr dc i <> value EMPTY /\
         cell_at b r c dr dc i <> value p) /\
      inside_at b r c dr dc j /\
      cell_at b r c dr dc j = value p /\
      value p <> value EMPTY /\
      (found = true \/ (1 <= j)%nat).
Proof.
  induction fuel as [|k IH]; intros r c found.
  - simpl. split; [discriminate|]. intros (j & Hj & _). lia.
  - cbn [can_flip_loop]. split.
    + destruct (in_bounds b r c) eqn:Hin; [|discriminate].
      destruct (getitem (board b) r c =? value EMPTY) eqn:He; [discriminate|].
      apply Z.eqb_neq in He.
      destruct (getitem (board b) r c =? value p) eqn:Hp.
      * apply Z.eqb_eq in Hp. intros ->. exists O.
        split; [lia|]. split; [intros i Hi; lia|].
        split; [now apply <- inside_at_0|].
        split; [now rewrite cell_at_0|].
        split; [congruence|now left].
      * apply Z.eqb_neq in Hp. intros H.
        apply IH in H as (j & Hj & Hpre & Hinj & Hcj & Hv & _).
        exists (S j). split; [lia|]. split.
        { intros [|i] Hi.
          - rewrite cell_at_0. split; [now apply <- inside_at_0|now split].
          - rewrite <- cell_at_S. destruct (Hpre i ltac:(lia)) as (Ha & Hb & Hc).
            split; [now apply -> inside_at_S|now split]. }
        split; [now apply -> inside_at_S|].
        split; [now rewrite <- cell_at_S|].
        split; [exact Hv|right; lia].
    + intros (j & Hj & Hpre & Hinj & Hcj & Hv & Hf).
      destruct j as [|j].
      * apply -> inside_at_0 in Hinj. rewrite cell_at_0 in Hcj.
        rewrite Hinj, Hcj.
        destruct (value p =? value EMPTY) eqn:He;
          [apply Z.eqb_eq in He; contradiction|].
        rewrite Z.eqb_refl. destruct Hf as [Hf|Hf]; [exact Hf|lia].
      * destruct (Hpre O ltac:(lia)) as (H0 & H1 & H2).
        apply -> inside_at_0 in H0. rewrite cell_at_0 in H1, H2.
        rewrite H0.
        apply Z.eqb_neq in H1, H2. rewrite H1, H2.
        apply IH. exists j. split; [lia|]. split.
        { intros i Hi. rewrite cell_at_S.
          destruct (Hpre (S i) ltac:(lia)) as (Ha & Hb & Hc).
          split; [now apply <- inside_at_S|now split]. }
        split; [now apply <- inside_at_S|].
        split; [now rewrite cell_at_S|].
        split; [exact Hv|now left].
Qed.

(** A store outside the ray does not change the walk's answer. *)
Lemma can_flip_loop_set_cell (fuel : nat) (r0 c0 x : Z) :
  forall (b : OthelloBoard) (r c : Z) (found : bool),
    0 <= r0 -> 0 <= c0 ->
    (forall i : nat, (r + Z.of_nat i * dr, c + Z.of_nat i * dc) <> (r0, c0)) ->
    can_flip_loop fuel (set_cell b r0 c0 x) r c dr dc p found
    = can_flip_loop fuel b r c dr dc p found.
Proof.
  induction fuel as [|k IH]; intros b r c found Hr0 Hc0 Hray; [reflexivity|].
  cbn [can_flip_loop].
  replace (in_bounds (set_cell b r0 c0 x) r c) with (in_bounds b r c) by reflexivity.
  destruct (in_bounds b r c) eqn:Hin; [|reflexivity].
  apply in_bounds_iff in Hin as [Hr Hc].
  assert (Hget : getitem (board (set_cell b r0 c0 x)) r c = getitem (board b) r c).
  { cbn [set_cell board]. apply getitem_setitem_other; try lia.
    specialize (Hray O). intros E. apply Hray. rewrite <- E. f_equal; lia. }
  rewrite Hget.
  destruct (getitem (board b) r c =? value EMPTY); [reflexivity|].
  destruct (getitem (board b) r c =? value p); [reflexivity|].
  apply IH; auto.
  intros i. specialize (Hray (S i)). intros E. apply Hray. rewrite <- E.
  f_equal; lia.
Qed.

Lemma flip_loop_size (fuel : nat) :
  forall (b : OthelloBoard) (r c : Z), size (flip_loop fuel b r c dr dc p) = size b.
Proof.
  induction fuel as [|k IH]; intros b r c; cbn [flip_loop]; [reflexivity|].
  destruct (in_bounds b r c); [|reflexivity].
  destruct (getitem (board b) r c =? value p); [reflexivity|].
  now rewrite IH.
Qed.

Lemma flip_loop_well_shaped (fuel : nat) :
  forall (b : OthelloBoard) (r c : Z),
    well_shaped b = true -> well_shaped (flip_loop fuel b r c dr dc p) = true.
Proof.
  induction fuel as [|k IH]; intros b r c Hw; cbn [flip_loop]; [exact Hw|].
  destruct (in_bounds b r c); [|exact Hw].
  destruct (getitem (board b) r c =? value p); [exact Hw|].
  apply IH. now apply set_cell_well_shaped.
Qed.

Lemma flip_loop_cells_ok (fuel : nat) :
  forall (b : OthelloBoard) (r c : Z),
    cells_ok b = true -> cells_ok (flip_loop fuel b r c dr dc p) = true.
Proof.
  induction fuel as [|k IH]; intros b r c Hw; cbn [flip_loop]; [exact Hw|].
  destruct (in_bounds b r c); [|exact Hw].
  destruct (getitem (board b) r c =? value p); [exact Hw|].
  apply IH. apply set_cell_cells_ok; [exact Hw|apply cell_ok_value].
Qed.

Hypothesis Hdir : dr <> 0 \/ dc <> 0.

Lemma ray_misses_origin (r c : Z) (i : nat) :
  (r + dr + Z.of_nat i * dr, c + dc + Z.of_nat i * dc) <> (r, c).
Proof.
  intros E. injection E as E1 E2.
  assert (dr * (1 + Z.of_nat i) = 0) by lia.
  assert (dc * (1 + Z.of_nat i) = 0) by lia.
  destruct Hdir; nia.
Qed.

(** Flipping a direction the walk accepts turns opponent pieces into
    pieces of [p]: the occupied cells stay the same in number, and [p]
    gains at least one piece when no opponent piece was behind. *)
Lemma flip_loop_counts (fuel : nat) :
  forall (b : OthelloBoard) (r c : Z) (found : bool),
    well_shaped b = true ->
    can_flip_loop fuel b r c dr dc p found = true ->
    occupied (board (flip_loop fuel b r c dr dc p)) = occupied (board b) /\
    count_grid (value p) (board b) + (if found then 0 else 1)
    <= count_grid (value p) (board (flip_loop fuel b r c dr dc p)).
Proof.
  induction fuel as [|k IH]; intros b r c found Hw Hcan; [discriminate|].
  pose proof Hcan as Hv.
  apply can_flip_loop_spec in Hv as (_ & _ & _ & _ & _ & Hv & _).
  cbn [can_flip_loop flip_loop] in *.
  destruct (in_bounds b r c) eqn:Hin; [|discriminate].
  destruct (getitem (board b) r c =? value EMPTY) eqn:He; [discriminate|].
  destruct (getitem (board b) r c =? value p) eqn:Hp.
  - subst found. split; [reflexivity|lia].
  - pose proof Hin as Hin'. apply in_bounds_iff in Hin' as [Hr Hc].
    rewrite <- (can_flip_loop_set_cell k r c (value p)) in Hcan;
      try lia; [|intros i; apply ray_misses_origin].
    destruct (IH _ _ _ _ (set_cell_well_shaped b r c (value p) Hw) Hcan)
      as [Hocc Hcnt].
    unfold occupied, count_grid in *.
    rewrite (count_set_cell _ b r c (value p) Hw Hin) in Hocc.
    rewrite (count_set_cell _ b r c (value p) Hw Hin) in Hcnt.
    cbv beta in Hocc, Hcnt. change (value EMPTY) with 0 in He, Hv.
    rewrite He in Hocc. rewrite (Z.eqb_sym (value p)), Hp, Z.eqb_refl in Hcnt.
    assert (Hvp : (value p =? 0) = false) by (apply Z.eqb_neq; exact Hv).
    rewrite Hvp in Hocc. unfold b2z in *. cbn [negb] in *.
    split; [lia|]. destruct found; lia.
Qed.

(** Once the walk has accepted a direction, more fuel changes neither
    walk: the flip stops at the piece of [p] that the walk found. *)
Lemma flip_loop_fuel (fuel extra : nat) :
  forall (b : OthelloBoard) (r c : Z) (found : bool),
    can_flip_loop fuel b r c dr dc p found = true ->
    flip_loop (fuel + extra) b r c dr dc p = flip_loop fuel b r c dr dc p.
Proof.
  induction fuel as [|k IH]; intros b r c found Hcan; [discriminate|].
  cbn [can_flip_loop flip_loop Nat.add] in *.
  destruct (in_bounds b r c) eqn:Hin; [|reflexivity].
  destruct (getitem (board b) r c =? value EMPTY) eqn:He; [discriminate|].
  destruct (getitem (board b) r c =? value p) eqn:Hp; [reflexivity|].
  apply in_bounds_iff in Hin as [Hr Hc].
  apply (IH _ _ _ true).
  rewrite can_flip_loop_set_cell; try lia; [exact Hcan|].
  intros i; apply ray_misses_origin.
Qed.
End Walks.

(** ** Legality *)

Lemma directions_nonzero (d : Z * Z) :
  In d directions -> fst d <> 0 \/ snd d <> 0.
Proof.
  unfold directions. cbn [In].
  intros H; repeat (destruct H as [<-|H]; [cbn; lia|]); contradiction.
Qed.

(** [_can_flip_in_direction] accepts a direction exactly when it carries a
    flip line; in particular its fuel, the board size, is never what makes
    it answer [False]. *)
Lemma can_flip_in_direction_spec (b : OthelloBoard) (row col : Z) (d : Z * Z)
    (p : Player) :
  In d directions -> in_bounds b row col = true ->
  (_can_flip_in_direction b row col (fst d) (snd d) p = true <->
   exists k, flip_line b row col (fst d) (snd d) p k).
Proof.
  intros Hd Hin. unfold _can_flip_in_direction. rewrite can_flip_loop_spec.
  apply in_bounds_iff in Hin. split.
  - intros (j & Hj & Hpre & Hinj & Hcj & Hv & Hf).
    assert (Hj1 : (1 <= j)%nat) by (destruct Hf as [Hf|Hf]; [discriminate|exact Hf]).
    exists j. split; [exact Hj1|]. split.
    { intros [|i] Hi; [lia|].
      destruct (Hpre i ltac:(lia)) as (Ha & Hb & Hc).
      rewrite <- cell_at_S. split; [now apply -> inside_at_S|now split]. }
    split; [now apply -> inside_at_S|].
    split; [now rewrite <- cell_at_S|].
    intros ->. now apply Hv.
  - intros (k & Hk & Hpre & Hins & Hc & Hp).
    exists k. split.
    { unfold inside_at in Hins. apply in_bounds_iff in Hins.
      unfold directions in Hd. cbn [In] in Hd.
      repeat (destruct Hd as [<-|Hd]; [cbn [fst snd] in *; lia|]).
      contradiction. }
    split.
    { intros i Hi. rewrite cell_at_S.
      destruct (Hpre (S i) ltac:(lia)) as (Ha & Hb & Hc').
      split; [now apply <- inside_at_S|now split]. }
    split; [now apply <- inside_at_S|].
    split; [now rewrite cell_at_S|].
    split; [|right; exact Hk].
    destruct p; cbn; congruence.
Qed.

Lemma can_flip_loop_fuel (b : OthelloBoard) (row col : Z) (d : Z * Z)
    (p : Player) (extra : nat) :
  In d directions -> in_bounds b row col = true ->
  can_flip_loop (Z.to_nat (size b) + extra) b (row + fst d) (col + snd d)
                (fst d) (snd d) p false
  = _can_flip_in_direction b row col (fst d) (snd d) p.
Proof.
  intros Hd Hin.
  destruct (_can_flip_in_direction b row col (fst d) (snd d) p) eqn:E.
  - unfold _can_flip_in_direction in E.
    apply can_flip_loop_spec in E as (j & Hj & Hrest).
    apply can_flip_loop_spec. exists j. split; [lia|exact Hrest].
  - destruct (can_flip_loop _ b _ _ _ _ p false) eqn:E'; [|reflexivity].
    apply can_flip_loop_spec in E' as (j & Hj & Hpre & Hinj & Hcj & Hv & Hf).
    rewrite <- E. symmetry. unfold _can_flip_in_direction.
    apply can_flip_loop_spec. exists j. split.
    { unfold inside_at in Hinj. apply in_bounds_iff in Hinj, Hin.
      assert (Hj1 : (1 <= j)%nat) by (destruct Hf as [Hf|Hf]; [discriminate|exact Hf]).
      unfold directions in Hd. cbn [In] in Hd.
      repeat (destruct Hd as [<-|Hd]; [cbn [fst snd] in *; lia|]).
      contradiction. }
    repeat (split; [assumption|]). exact Hf.
Qed.

Lemma is_valid_move_iff (b : OthelloBoard) (row col : Z) (p : Player) :
  is_valid_move b row col p = true <->
  in_bounds b row col = true /\
  getitem (board b) row col = value EMPTY /\
  exists d, In d directions /\
            _can_flip_in_direction b row col (fst d) (snd d) p = true.
Proof.
  unfold is_valid_move.
  destruct (in_bounds b row col); cbn [negb].
  2: { split; [discriminate|]. intros [H _]; discriminate. }
  destruct (getitem (board b) row col =? value EMPTY) eqn:He; cbn [negb].
  - apply Z.eqb_eq in He. rewrite existsb_exists. tauto.
  - apply Z.eqb_neq in He. split; [discriminate|]. intros (_ & H & _). contradiction.
Qed.

Lemma is_valid_move_player (b : OthelloBoard) (row col : Z) (p : Player) :
  is_valid_move b row col p = true -> p <> EMPTY.
Proof.
  intros H ->. apply is_valid_move_iff in H as (_ & _ & d & _ & Hd).
  unfold _can_flip_in_direction in Hd. now rewrite can_flip_loop_EMPTY in Hd.
Qed.

Lemma make_move_invalid (b : OthelloBoard) (row col : Z) (p : Player) :
  is_valid_move b row col p = false -> make_move b row col p = (false, b).
Proof. unfold make_move. now intros ->. Qed.

(** ** Applying a move *)

Lemma flip_step_well_shaped (row col : Z) (p : Player) (b : OthelloBoard) (d : Z * Z) :
  well_shaped b = true -> well_shaped (flip_step row col p b d) = true.
Proof.
  intros Hw. unfold flip_step, _flip_pieces_in_direction.
  destruct (_can_flip_in_direction b row col (fst d) (snd d) p); [|exact Hw].
  now apply flip_loop_well_shaped.
Qed.

Lemma flip_step_cells_ok (row col : Z) (p : Player) (b : OthelloBoard) (d : Z * Z) :
  cells_ok b = true -> cells_ok (flip_step row col p b d) = true.
Proof.
  intros Hw. unfold flip_step, _flip_pieces_in_direction.
  destruct (_can_flip_in_direction b row col (fst d) (snd d) p); [|exact Hw].
  now apply flip_loop_cells_ok.
Qed.

Lemma flip_step_size (row col : Z) (p : Player) (b : OthelloBoard) (d : Z * Z) :
  size (flip_step row col p b d) = size b.
Proof.
  unfold flip_step, _flip_pieces_in_direction.
  destruct (_can_flip_in_direction b row col (fst d) (snd d) p); [|reflexivity].
  apply flip_loop_size.
Qed.

Lemma flip_step_counts (row col : Z) (p : Player) (b : OthelloBoard) (d : Z * Z) :
  fst d <> 0 \/ snd d <> 0 -> well_shaped b = true ->
  occupied (board (flip_step row col p b d)) = occupied (board b) /\
  count_grid (value p) (board b)
    + b2z (_can_flip_in_direction b row col (fst d) (snd d) p)
  <= count_grid (value p) (board (flip_step row col p b d)).
Proof.
  intros Hd Hw. unfold flip_step.
  destruct (_can_flip_in_direction b row col (fst d) (snd d) p) eqn:E.
  - unfold _can_flip_in_direction in E. unfold _flip_pieces_in_direction.
    apply (flip_loop_counts _ _ p Hd _ _ _ _ false Hw E).
  - cbn [b2z]. split; [reflexivity|lia].
Qed.

Lemma fold_flip_well_shaped (row col : Z) (p : Player) (ds : list (Z * Z)) :
  forall b, well_shaped b = true ->
            well_shaped (fold_left (flip_step row col p) ds b) = true.
Proof.
  induction ds as [|d ds IH]; intros b Hw; cbn [fold_left]; [exact Hw|].
  apply IH. now apply flip_step_well_shaped.
Qed.

Lemma fold_flip_cells_ok (row col : Z) (p : Player) (ds : list (Z * Z)) :
  forall b, cells_ok b = true ->
            cells_ok (fold_left (flip_step row col p) ds b) = true.
Proof.
  induction ds as [|d ds IH]; intros b Hw; cbn [fold_left]; [exact Hw|].
  apply IH. now apply flip_step_cells_ok.
Qed.

Lemma fold_flip_size (row col : Z) (p : Player) (ds : list (Z * Z)) :
  forall b, size (fold_left (flip_step row col p) ds b) = size b.
Proof.
  induction ds as [|d ds IH]; intros b; cbn [fold_left]; [reflexivity|].
  rewrite IH. apply flip_step_size.
Qed.

Lemma fold_flip_counts (row col : Z) (p : Player) (ds : list (Z * Z)) :
  forall b,
    (forall d, In d ds -> fst d <> 0 \/ snd d <> 0) ->
    well_shaped b = true ->
    occupied (board (fold_left (flip_step row col p) ds b)) = occupied (board b) /\
    count_grid (value p) (board b)
      + b2z (existsb (fun d => _can_flip_in_direction b row col (fst d) (snd d) p) ds)
    <= count_grid (value p) (board (fold_left (flip_step row col p) ds b)).
Proof.
  induction ds as [|d ds IH]; intros b Hds Hw; cbn [fold_left existsb].
  - cbn [b2z]. split; [reflexivity|lia].
  - destruct (flip_step_counts row col p b d (Hds d (or_introl eq_refl)) Hw)
      as [Ho Hc].
    destruct (IH (flip_step row col p b d)
                 (fun d' H => Hds d' (or_intror H))
                 (flip_step_well_shaped row col p b d Hw)) as [Ho' Hc'].
    split; [congruence|].
    destruct (_can_flip_in_direction b row col (fst d) (snd d) p) eqn:E;
      cbn [orb b2z] in *.
    + assert (0 <= b2z (existsb (fun d0 =>
                _can_flip_in_direction (flip_step row col p b d) row col
                                       (fst d0) (snd d0) p) ds))
        by (destruct (existsb _ ds); cbn; lia).
      lia.
    + unfold flip_step in Hc' at 1. unfold flip_step in Hc' at 1.
      rewrite E in Hc'. lia.
Qed.

Lemma can_flip_after_placing (b : OthelloBoard) (row col x : Z) (d : Z * Z)
    (p : Player) :
  In d directions -> in_bounds b row col = true ->
  _can_flip_in_direction (set_cell b row col x) row col (fst d) (snd d) p
  = _can_flip_in_direction b row col (fst d) (snd d) p.
Proof.
  intros Hd Hin. apply in_bounds_iff in Hin. unfold _can_flip_in_direction.
  cbn [set_cell size]. apply can_flip_loop_set_cell; try lia.
  intros i. apply ray_misses_origin. now apply directions_nonzero.
Qed.

Lemma count_row_cells (row : list Z) :
  forallb cell_ok row = true ->
  count_row (fun x => negb (x =? 0)) row
  = count_row (Z.eqb (value BLACK)) row + count_row (Z.eqb (value WHITE)) row.
Proof.
  unfold count_row. induction row as [|x t IH]; [reflexivity|].
  cbn [forallb filter]. intros H. apply andb_true_iff in H as [Hx Ht].
  specialize (IH Ht). unfold cell_ok in Hx.
  apply orb_true_iff in Hx as [Hx|Hx]; [apply orb_true_iff in Hx as [Hx|Hx]|];
    apply Z.eqb_eq in Hx; subst x; cbn [value Z.eqb negb length Pos.eqb] in *; lia.
Qed.

Lemma occupied_get_score (b : OthelloBoard) :
  cells_ok b = true ->
  occupied (board b) = fst (get_score b) + snd (get_score b).
Proof.
  unfold cells_ok, get_score, occupied, count_grid. cbn [fst snd].
  induction (board b) as [|row g IH]; [reflexivity|].
  cbn [forallb count_if fold_right]. intros H.
  apply andb_true_iff in H as [Hr Hg]. specialize (IH Hg).
  unfold count_if in IH. rewrite (count_row_cells row Hr). lia.
Qed.

Lemma make_move_well_shaped (b : OthelloBoard) (row col : Z) (p : Player) :
  well_shaped b = true -> well_shaped (snd (make_move b row col p)) = true.
Proof.
  intros Hw. unfold make_move.
  destruct (is_valid_move b row col p); cbn [negb snd]; [|exact Hw].
  apply fold_flip_well_shaped. now apply set_cell_well_shaped.
Qed.

Lemma make_move_cells_ok (b : OthelloBoard) (row col : Z) (p : Player) :
  cells_ok b = true -> cells_ok (snd (make_move b row col p)) = true.
Proof.
  intros Hw. unfold make_move.
  destruct (is_valid_move b row col p); cbn [negb snd]; [|exact Hw].
  apply fold_flip_cells_ok. apply set_cell_cells_ok; [exact Hw|apply cell_ok_value].
Qed.

Lemma make_move_size (b : OthelloBoard) (row col : Z) (p : Player) :
  size (snd (make_move b row col p)) = size b.
Proof.
  unfold make_move.
  destruct (is_valid_move b row col p); cbn [negb snd]; [|reflexivity].
  now rewrite fold_flip_size.
Qed.

Lemma make_move_well_formed (b : OthelloBoard) (row col : Z) (p : Player) :
  well_formed b = true -> well_formed (snd (make_move b row col p)) = true.
Proof.
  unfold well_formed. rewrite !andb_true_iff. intros [Hs Hc].
  split; [now apply make_move_well_shaped|now apply make_move_cells_ok].
Qed.

(** C5.  A call of [make_move] whose target is out of bounds, or occupied,
    or from which no direction carries a flip line, returns [False] and
    hands back the very board it was given: no cell has changed. *)
Theorem make_move_illegal_no_effect (b : OthelloBoard) (row col : Z) (p : Player) :
  in_bounds b row col = false \/
  getitem (board b) row col <> value EMPTY \/
  (forall d k, In d directions -> ~ flip_line b row col (fst d) (snd d) p k) ->
  make_move b row col p = (false, b).
Proof.
  intros H. apply make_move_invalid.
  destruct (is_valid_move b row col p) eqn:E; [|reflexivity].
  apply is_valid_move_iff in E as (Hin & Hget & d & Hd & Hcan).
  destruct H as [H|[H|H]].
  - congruence.
  - contradiction.
  - apply can_flip_in_direction_spec in Hcan as [k Hk]; auto.
    exfalso. exact (H d k Hd Hk).
Qed.

Lemma make_move_illegal_no_effect_witness :
  getitem (board initial8) 3 3 <> value EMPTY /\
  make_move initial8 3 3 BLACK = (false, initial8).
Proof.
  split; [discriminate|].
  apply make_move_illegal_no_effect. right; left. discriminate.
Defined.

(** C6.  A legal move gives the mover at least two more pieces (the one
    placed and at least one flipped) and makes exactly one more cell
    occupied; on a board of the three cell values that is one more piece
    in the sum of the two scores. *)
Theorem make_move_legal_counts (b : OthelloBoard) (row col : Z) (p : Player) :
  well_shaped b = true ->
  is_valid_move b row col p = true ->
  fst (make_move b row col p) = true /\
  count_grid (value p) (board b) + 2
    <= count_grid (value p) (board (snd (make_move b row col p))) /\
  occupied (board (snd (make_move b row col p))) = occupied (board b) + 1 /\
  (cells_ok b = true ->
   fst (get_score (snd (make_move b row col p)))
     + snd (get_score (snd (make_move b row col p)))
   = fst (get_score b) + snd (get_score b) + 1).
Proof.
  intros Hw Hv.
  assert (Hmain :
    fst (make_move b row col p) = true /\
    count_grid (value p) (board b) + 2
      <= count_grid (value p) (board (snd (make_move b row col p))) /\
    occupied (board (snd (make_move b row col p))) = occupied (board b) + 1).
  { pose proof (is_valid_move_player _ _ _ _ Hv) as Hp.
    unfold make_move. rewrite Hv. cbn [negb fst snd].
    apply is_valid_move_iff in Hv as (Hin & Hget & d & Hd & Hcan).
    split; [reflexivity|].
    set (b1 := set_cell b row col (value p)).
    destruct (fold_flip_counts row col p directions b1 directions_nonzero
                (set_cell_well_shaped b row col (value p) Hw)) as [Ho Hc].
    assert (He : existsb (fun d0 => _can_flip_in_direction b1 row col
                                      (fst d0) (snd d0) p) directions = true).
    { apply existsb_exists. exists d. split; [exact Hd|].
      unfold b1. now rewrite can_flip_after_placing. }
    rewrite He in Hc. cbn [b2z] in Hc.
    unfold occupied, count_grid in *. unfold b1 in Ho, Hc.
    rewrite (count_set_cell _ b row col (value p) Hw Hin) in Ho.
    rewrite (count_set_cell _ b row col (value p) Hw Hin) in Hc.
    cbv beta in Ho, Hc. rewrite Hget in Ho, Hc.
    assert (Hvp : (value p =? value EMPTY) = false)
      by (destruct p; [reflexivity|reflexivity|congruence]).
    rewrite Hvp, Z.eqb_refl in Hc.
    change (value EMPTY) with 0 in *. rewrite Hvp in Ho.
    cbn [b2z negb Z.eqb] in *. fold b1 in Ho, Hc. split; lia. }
  destruct Hmain as (H1 & H2 & H3). repeat split; auto.
  intros Hc. rewrite <- !occupied_get_score; auto.
  now apply make_move_cells_ok.
Qed.

Lemma make_move_legal_counts_witness :
  well_shaped initial8 = true /\
  is_valid_move initial8 2 3 BLACK = true /\
  count_grid (value BLACK) (board initial8) + 2
    <= count_grid (value BLACK) (board (snd (make_move initial8 2 3 BLACK))) /\
  occupied (board (snd (make_move initial8 2 3 BLACK)))
    = occupied (board initial8) + 1.
Proof.
  split; [reflexivity|]. split; [reflexivity|].
  destruct (make_move_legal_counts initial8 2 3 BLACK eq_refl eq_refl)
    as (_ & H2 & H3 & _).
  split; [exact H2|exact H3].
Defined.

(** ** Construction and reachable boards *)

Lemma np_set_cell_well_formed (b b' : OthelloBoard) (r c v : Z) :
  np_set_cell b r c v = Some b' -> well_formed b = true -> cell_ok v = true ->
  well_formed b' = true /\ size b' = size b.
Proof.
  unfold np_set_cell, bind, ret. intros H Hw Hv.
  destruct (np_index _ r) as [r'|]; [|discriminate].
  destruct (np_index _ c) as [c'|]; [|discriminate].
  injection H as <-. split; [|reflexivity].
  unfold well_formed in *. apply andb_true_iff in Hw as [Hs Hc].
  apply andb_true_iff. split.
  - now apply set_cell_well_shaped.
  - now apply set_cell_cells_ok.
Qed.

Lemma np_zeros_well_formed (n : Z) (g : grid) :
  np_zeros n = Some g -> well_formed (mkBoard n g) = true.
Proof.
  unfold np_zeros, ret. destruct (n <? 0) eqn:Hn; [discriminate|].
  intros H; injection H as <-. apply Z.ltb_ge in Hn.
  unfold well_formed, well_shaped, cells_ok. cbn [size board].
  rewrite repeat_length, Nat.eqb_refl.
  assert ((0 <=? n) = true) as -> by (apply Z.leb_le; lia). cbn [andb].
  apply andb_true_iff. split; apply forallb_forall; intros row Hr;
    apply repeat_spec in Hr; subst row.
  - rewrite repeat_length. apply Nat.eqb_refl.
  - apply forallb_forall. intros x Hx. apply repeat_spec in Hx. now subst x.
Qed.

Lemma OthelloBoard_init_well_formed (n : Z) (b : OthelloBoard) :
  OthelloBoard_init n = Some b -> well_formed b = true /\ size b = n.
Proof.
  unfold OthelloBoard_init, _setup_initial_position, bind.
  destruct (np_zeros n) as [g|] eqn:Hg; [|discriminate].
  apply np_zeros_well_formed in Hg. cbn [size].
  destruct (np_set_cell _ _ _ _) as [b1|] eqn:H1; [|discriminate].
  destruct (np_set_cell b1 _ _ _) as [b2|] eqn:H2; [|discriminate].
  destruct (np_set_cell b2 _ _ _) as [b3|] eqn:H3; [|discriminate].
  intros H4.
  apply np_set_cell_well_formed in H1 as [W1 S1]; auto.
  apply np_set_cell_well_formed in H2 as [W2 S2]; auto.
  apply np_set_cell_well_formed in H3 as [W3 S3]; auto.
  apply np_set_cell_well_formed in H4 as [W4 S4]; auto.
  split; [exact W4|]. cbn [size] in S1. congruence.
Qed.

Lemma reachable_well_formed (n : Z) (b : OthelloBoard) :
  reachable n b -> well_formed b = true /\ size b = n.
Proof.
  induction 1 as [b Hb|b row col p Hr [IHw IHs]].
  - now apply OthelloBoard_init_well_formed.
  - split; [now apply make_move_well_formed|].
    now rewrite make_move_size.
Qed.

Lemma play_reachable (n : Z) (ms : list (Z * Z * Player)) :
  forall b, reachable n b -> reachable n (play b ms).
Proof.
  unfold play. induction ms as [|m ms IH]; intros b Hb; cbn [fold_left]; [exact Hb|].
  apply IH. now apply reach_move.
Qed.

(** C10.  Whatever calls of [make_move] follow the construction of
    [OthelloBoard(n)], every cell of the grid is [Player.EMPTY.value],
    [Player.BLACK.value] or [Player.WHITE.value]. *)
Theorem reachable_cell_values (n : Z) (b : OthelloBoard) :
  reachable n b ->
  forall row x, In row (board b) -> In x row ->
    x = value EMPTY \/ x = value BLACK \/ x = value WHITE.
Proof.
  intros Hr row x Hrow Hx.
  apply reachable_well_formed in Hr as [Hw _].
  unfold well_formed in Hw. apply andb_true_iff in Hw as [_ Hc].
  unfold cells_ok in Hc. rewrite forallb_forall in Hc.
  specialize (Hc row Hrow). rewrite forallb_forall in Hc.
  specialize (Hc x Hx). unfold cell_ok in Hc.
  rewrite !orb_true_iff, !Z.eqb_eq in Hc. tauto.
Qed.

Lemma reachable_cell_values_witness :
  reachable 8 (play initial8 [(2, 3, BLACK); (2, 2, WHITE); (0, 0, EMPTY)]) /\
  forall row x,
    In row (board (play initial8 [(2, 3, BLACK); (2, 2, WHITE); (0, 0, EMPTY)])) ->
    In x row -> x = value EMPTY \/ x = value BLACK \/ x = value WHITE.
Proof.
  assert (H : reachable 8 (play initial8 [(2, 3, BLACK); (2, 2, WHITE); (0, 0, EMPTY)])).
  { apply play_reachable. apply reach_init. reflexivity. }
  split; [exact H|]. exact (reachable_cell_values 8 _ H).
Defined.

(** C9.  [OthelloBoard(8)] is the standard opening, from which
    [get_valid_moves] lists (2,3), (3,2), (4,5), (5,4) for Black and
    (2,4), (3,5), (4,2), (5,3) for White, and nothing else. *)
Theorem initial_valid_moves :
  OthelloBoard_init 8 = Some initial8 /\
  get_valid_moves initial8 BLACK = [(2, 3); (3, 2); (4, 5); (5, 4)] /\
  get_valid_moves initial8 WHITE = [(2, 4); (3, 5); (4, 2); (5, 3)] /\
  (forall m, In m (get_valid_moves initial8 BLACK) <->
             m = (2, 3) \/ m = (3, 2) \/ m = (4, 5) \/ m = (5, 4)) /\
  (forall m, In m (get_valid_moves initial8 WHITE) <->
             m = (2, 4) \/ m = (3, 5) \/ m = (4, 2) \/ m = (5, 3)).
Proof.
  assert (HB : get_valid_moves initial8 BLACK = [(2, 3); (3, 2); (4, 5); (5, 4)])
    by (vm_compute; reflexivity).
  assert (HW : get_valid_moves initial8 WHITE = [(2, 4); (3, 5); (4, 2); (5, 3)])
    by (vm_compute; reflexivity).
  split; [vm_compute; reflexivity|]. split; [exact HB|]. split; [exact HW|].
  split; intros m; [rewrite HB|rewrite HW]; cbn [In];
    intuition (auto; try congruence).
Qed.

(** ** The evaluator at the end of the game *)

(** C8.  When neither player can move, the scores seen by a Black CPU and
    by a White CPU are opposite: 1000 and -1000 for the side with more
    pieces and the other, 0 for both on equal counts. *)
Theorem terminal_evaluation_antisymmetric (cpuB cpuW : OthelloCPU) (b : OthelloBoard) :
  player cpuB = BLACK -> player cpuW = WHITE ->
  is_game_over b = true ->
  exists v,
    _evaluate_board cpuB b = Some v /\
    _evaluate_board cpuW b = Some (- v) /\
    (v = 1000 <-> snd (get_score b) < fst (get_score b)) /\
    (v = -1000 <-> fst (get_score b) < snd (get_score b)) /\
    (v = 0 <-> fst (get_score b) = snd (get_score b)).
Proof.
  intros HB HW Hover. unfold _evaluate_board, terminal_score, TERMINAL, ret.
  rewrite Hover, HB, HW. cbn [Player_eqb].
  destruct (get_score b) as [black white]. cbn [fst snd].
  destruct (white <? black) eqn:E1; destruct (black <? white) eqn:E2;
    rewrite ?Z.ltb_lt, ?Z.ltb_ge in E1, E2.
  - lia.
  - exists 1000. repeat split; intros; try reflexivity; lia.
  - exists (-1000). repeat split; intros; try reflexivity; lia.
  - exists 0. repeat split; intros; try reflexivity; lia.
Qed.

Lemma terminal_evaluation_antisymmetric_witness :
  is_game_over full_black4 = true /\
  exists v,
    _evaluate_board (OthelloCPU_init BLACK 3) full_black4 = Some v /\
    _evaluate_board (OthelloCPU_init WHITE 3) full_black4 = Some (- v) /\
    (v = 1000 <-> snd (get_score full_black4) < fst (get_score full_black4)) /\
    (v = -1000 <-> fst (get_score full_black4) < snd (get_score full_black4)) /\
    (v = 0 <-> fst (get_score full_black4) = snd (get_score full_black4)).
Proof.
  split; [reflexivity|].
  apply (terminal_evaluation_antisymmetric
           (OthelloCPU_init BLACK 3) (OthelloCPU_init WHITE 3) full_black4);
    reflexivity.
Defined.

(** ** The search *)

(** C7.  In [_minimax] with budget left on a board where the game is not
    over, an actor without a legal move passes: the result is that of the
    same board, same window, one level of depth less and the other side to
    move. *)
Theorem minimax_pass_costs_one_ply (cpu : OthelloCPU) (depth : nat)
    (b : OthelloBoard) (alpha beta : ext) (is_maximizing : bool) :
  (0 < depth)%nat ->
  is_game_over b = false ->
  get_valid_moves b (if is_maximizing then player cpu else opponent cpu) = [] ->
  _minimax cpu depth b alpha beta is_maximizing
  = _minimax cpu (depth - 1) b alpha beta (negb is_maximizing).
Proof.
  intros Hd Hover Hmoves. destruct depth as [|d]; [lia|].
  cbn [_minimax]. rewrite Hover, Hmoves.
  now rewrite Nat.sub_succ, Nat.sub_0_r.
Qed.

Lemma minimax_pass_costs_one_ply_witness :
  is_game_over pass_board = false /\
  get_valid_moves pass_board WHITE = [] /\
  _minimax (OthelloCPU_init WHITE 3) 2 pass_board NegInf PosInf true
  = _minimax (OthelloCPU_init WHITE 3) 1 pass_board NegInf PosInf false.
Proof.
  split; [reflexivity|]. split; [reflexivity|].
  apply (minimax_pass_costs_one_ply (OthelloCPU_init WHITE 3) 2 pass_board
           NegInf PosInf true); [lia|reflexivity|reflexivity].
Defined.

(** ** Sums over cells *)

Lemma sum_over_le {A : Type} (f g : A -> Z) (xs : list A) :
  (forall x, In x xs -> f x <= g x) -> sum_over f xs <= sum_over g xs.
Proof.
  unfold sum_over, zsum. induction xs as [|x xs IH]; intros H; cbn; [lia|].
  pose proof (H x (or_introl eq_refl)).
  assert (forall y, In y xs -> f y <= g y) by (intros y Hy; apply H; now right).
  specialize (IH H1). lia.
Qed.

Lemma sum_over_ext {A : Type} (f g : A -> Z) (xs : list A) :
  (forall x, In x xs -> f x = g x) -> sum_over f xs = sum_over g xs.
Proof.
  intros H. apply Z.le_antisymm; apply sum_over_le; intros x Hx;
    rewrite (H x Hx); lia.
Qed.

Lemma sum_over_plus {A : Type} (f g : A -> Z) (xs : list A) :
  sum_over (fun x => f x + g x) xs = sum_over f xs + sum_over g xs.
Proof.
  unfold sum_over, zsum. induction xs as [|x xs IH]; cbn; lia.
Qed.

Lemma sum_over_scale {A : Type} (k : Z) (f : A -> Z) (xs : list A) :
  sum_over (fun x => k * f x) xs = k * sum_over f xs.
Proof.
  unfold sum_over, zsum. induction xs as [|x xs IH]; cbn; lia.
Qed.

Lemma sum_cells_le (f g : Z -> Z -> Z) (n : Z) :
  (forall row col, 0 <= row < n -> 0 <= col < n -> f row col <= g row col) ->
  sum_cells f n <= sum_cells g n.
Proof.
  intros H. unfold sum_cells. apply sum_over_le. intros row Hr.
  apply sum_over_le. intros col Hc. apply H; now apply in_range.
Qed.

Lemma sum_cells_ext (f g : Z -> Z -> Z) (n : Z) :
  (forall row col, 0 <= row < n -> 0 <= col < n -> f row col = g row col) ->
  sum_cells f n = sum_cells g n.
Proof.
  intros H. apply Z.le_antisymm; apply sum_cells_le; intros row col Hr Hc;
    rewrite (H row col Hr Hc); lia.
Qed.

Lemma sum_cells_plus (f g : Z -> Z -> Z) (n : Z) :
  sum_cells (fun row col => f row col + g row col) n = sum_cells f n + sum_cells g n.
Proof.
  unfold sum_cells. rewrite <- sum_over_plus. apply sum_over_ext.
  intros row _. apply sum_over_plus.
Qed.

Lemma sum_cells_scale (k : Z) (f : Z -> Z -> Z) (n : Z) :
  sum_cells (fun row col => k * f row col) n = k * sum_cells f n.
Proof.
  unfold sum_cells. rewrite <- sum_over_scale. apply sum_over_ext.
  intros row _. apply sum_over_scale.
Qed.

Lemma foldM_sum {B : Type} (g : B -> Z) (body : Z -> B -> M Z) (xs : list B) :
  forall acc,
    (forall a x, In x xs -> body a x = Some (a + g x)) ->
    foldM body xs acc = Some (acc + sum_over g xs).
Proof.
  unfold sum_over, zsum.
  induction xs as [|x xs IH]; intros acc H; cbn [foldM map fold_right].
  - unfold ret. f_equal. lia.
  - rewrite (H acc x (or_introl eq_refl)). cbn [bind].
    rewrite IH by (intros a y Hy; apply H; now right).
    f_equal. lia.
Qed.

Lemma map_nth_range {A : Type} (l : list A) (d : A) :
  map (fun i => nth (Z.to_nat i) l d) (range (Z.of_nat (length l))) = l.
Proof.
  unfold range. rewrite Nat2Z.id, map_map.
  induction l as [|h t IH]; [reflexivity|].
  cbn [length seq map]. rewrite <- seq_shift, map_map. f_equal.
  rewrite <- IH at 2. apply map_ext. intros k. now rewrite !Nat2Z.id.
Qed.

Lemma sum_over_nth {A : Type} (f : A -> Z) (l : list A) (d : A) (n : Z) :
  length l = Z.to_nat n -> 0 <= n ->
  sum_over f l = sum_over (fun i => f (nth (Z.to_nat i) l d)) (range n).
Proof.
  intros Hl Hn. replace n with (Z.of_nat (length l)) by lia.
  rewrite <- (map_nth_range l d) at 1.
  unfold sum_over. now rewrite map_map.
Qed.

Lemma count_row_sum (f : Z -> bool) (row : list Z) :
  count_row f row = sum_over (fun x => b2z (f x)) row.
Proof.
  unfold count_row, sum_over, zsum, b2z.
  induction row as [|x t IH]; [reflexivity|].
  cbn [filter map fold_right]. destruct (f x); cbn [length]; lia.
Qed.

Lemma count_if_sum_over (f : Z -> bool) (g : grid) :
  count_if f g = sum_over (count_row f) g.
Proof.
  unfold count_if, sum_over, zsum.
  induction g as [|r g IH]; cbn [fold_right map]; [reflexivity|].
  now rewrite IH.
Qed.

Lemma count_if_sum_cells (f : Z -> bool) (b : OthelloBoard) :
  well_shaped b = true ->
  count_if f (board b)
  = sum_cells (fun row col => b2z (f (getitem (board b) row col))) (size b).
Proof.
  intros Hw. pose proof Hw as Hw'.
  apply well_shaped_iff in Hw as (H0 & H1 & H2).
  rewrite count_if_sum_over, (sum_over_nth _ (board b) [] (size b) H1 H0).
  unfold sum_cells. apply sum_over_ext. intros row Hr. apply in_range in Hr.
  rewrite count_row_sum.
  rewrite (sum_over_nth _ _ 0 (size b) (row_length b row Hw' Hr) H0).
  reflexivity.
Qed.

Lemma length_flat_map_sum {A B : Type} (F : A -> list B) (xs : list A) :
  Z.of_nat (length (flat_map F xs)) = sum_over (fun x => Z.of_nat (length (F x))) xs.
Proof.
  unfold sum_over, zsum. induction xs as [|x xs IH]; [reflexivity|].
  cbn [flat_map map fold_right]. rewrite length_app. lia.
Qed.

Lemma length_get_valid_moves (b : OthelloBoard) (p : Player) :
  Z.of_nat (length (get_valid_moves b p))
  = sum_cells (fun row col => b2z (is_valid_move b row col p)) (size b).
Proof.
  unfold get_valid_moves, sum_cells. rewrite length_flat_map_sum.
  apply sum_over_ext. intros row _. rewrite length_flat_map_sum.
  apply sum_over_ext. intros col _.
  now destruct (is_valid_move b row col p).
Qed.

(** ** The evaluator *)

Lemma small_index (i : Z) :
  0 <= i < 8 ->
  i = 0 \/ i = 1 \/ i = 2 \/ i = 3 \/ i = 4 \/ i = 5 \/ i = 6 \/ i = 7.
Proof. lia. Qed.

Ltac each_index H :=
  apply small_index in H;
  destruct H as [ -> | [ -> | [ -> | [ -> | [ -> | [ -> | [ -> | -> ] ] ] ] ] ] ].

Lemma pv_get_POSITION_VALUES (row col : Z) :
  0 <= row < 8 -> 0 <= col < 8 ->
  pv_get POSITION_VALUES row col = Some (getitem POSITION_VALUES row col).
Proof. intros Hr Hc. each_index Hr; each_index Hc; reflexivity. Qed.

Lemma cell_weight_ge_8 (row col : Z) :
  0 <= row < 8 -> 0 <= col < 8 -> 8 <= cell_weight row col.
Proof.
  intros Hr Hc. apply Z.leb_le. each_index Hr; each_index Hc; reflexivity.
Qed.

Lemma position_cell_term (cpu : OthelloCPU) (b : OthelloBoard) (row acc col : Z) :
  position_values cpu = POSITION_VALUES ->
  0 <= row < 8 -> 0 <= col < 8 ->
  position_cell cpu b row acc col = Some (acc + position_term cpu b row col).
Proof.
  intros Hpv Hr Hc. unfold position_cell, position_term. rewrite Hpv.
  rewrite (pv_get_POSITION_VALUES row col Hr Hc). cbn [bind]. unfold ret.
  destruct (getitem (board b) row col =? value (player cpu)); [reflexivity|].
  destruct (getitem (board b) row col =? value (opponent cpu)); f_equal; lia.
Qed.

Lemma position_score_sum (cpu : OthelloCPU) (b : OthelloBoard) :
  position_values cpu = POSITION_VALUES -> size b <= 8 ->
  position_score cpu b = Some (sum_cells (position_term cpu b) (size b)).
Proof.
  intros Hpv Hn. unfold position_score, sum_cells.
  rewrite (foldM_sum (fun row => sum_over (position_term cpu b row) (range (size b)))).
  - f_equal.
  - intros a row Hr. apply in_range in Hr. unfold position_row.
    apply foldM_sum. intros a' col Hc. apply in_range in Hc.
    apply position_cell_term; auto; lia.
Qed.

Lemma heuristic_score_sum (cpu : OthelloCPU) (b : OthelloBoard) :
  well_shaped b = true -> position_values cpu = POSITION_VALUES -> size b <= 8 ->
  heuristic_score cpu b = Some (sum_cells (cell_term cpu b) (size b)).
Proof.
  intros Hw Hpv Hn. unfold heuristic_score, get_score, count_grid.
  rewrite (position_score_sum cpu b Hpv Hn). cbn [bind]. unfold ret. f_equal.
  rewrite !(count_if_sum_cells _ b Hw), !length_get_valid_moves.
  set (sg := if Player_eqb (player cpu) BLACK then 1 else -1).
  set (SB := sum_cells (fun row col => b2z (value BLACK =? getitem (board b) row col)) (size b)).
  set (SW := sum_cells (fun row col => b2z (value WHITE =? getitem (board b) row col)) (size b)).
  set (SP := sum_cells (position_term cpu b) (size b)).
  set (V1 := sum_cells (fun row col => b2z (is_valid_move b row col (player cpu))) (size b)).
  set (V2 := sum_cells (fun row col => b2z (is_valid_move b row col (opponent cpu))) (size b)).
  assert (E : sum_cells (cell_term cpu b) (size b)
              = (10 * sg) * SB + ((- (10 * sg)) * SW + (SP + (5 * V1 + (-5) * V2)))).
  { unfold SB, SW, SP, V1, V2.
    rewrite <- !sum_cells_scale, <- !sum_cells_plus.
    apply sum_cells_ext. intros row col _ _. unfold cell_term. fold sg. lia. }
  rewrite E. lia.
Qed.

(** The evaluator never raises on a board that fits its 8x8 table. *)
Lemma evaluate_board_total (cpu : OthelloCPU) (b : OthelloBoard) :
  position_values cpu = POSITION_VALUES -> size b <= 8 ->
  exists s, _evaluate_board cpu b = Some s.
Proof.
  intros Hpv Hn. unfold _evaluate_board.
  destruct (is_game_over b); [now eexists|].
  unfold heuristic_score. destruct (get_score b) as [bl wh].
  rewrite (position_score_sum cpu b Hpv Hn). cbn [bind]. now eexists.
Qed.

Lemma is_valid_move_cell (b : OthelloBoard) (row col : Z) (p : Player) :
  is_valid_move b row col p = true -> getitem (board b) row col = 0.
Proof. intros H. now apply is_valid_move_iff in H as (_ & H & _). Qed.

Lemma cell_term_bound (p : Player) (d : nat) (b : OthelloBoard) (row col : Z) :
  cells_ok b = true -> p <> EMPTY ->
  0 <= row < 8 -> 0 <= col < 8 ->
  Z.abs (cell_term (OthelloCPU_init p d) b row col)
  <= cell_weight row col - 3 * b2z (getitem (board b) row col =? 0).
Proof.
  intros Hc Hp Hr Hcol.
  pose proof (cell_weight_ge_8 row col Hr Hcol) as Hw.
  pose proof (getitem_cell_ok b row col Hc) as Hx.
  pose proof (is_valid_move_cell b row col BLACK) as HvB.
  pose proof (is_valid_move_cell b row col WHITE) as HvW.
  unfold cell_term, position_term, cell_weight in *.
  unfold cell_ok in Hx. rewrite !orb_true_iff, !Z.eqb_eq in Hx.
  set (pv := getitem POSITION_VALUES row col) in *.
  destruct p; [| |congruence];
    cbn [OthelloCPU_init player opponent position_values Player_eqb];
    fold pv;
    destruct (is_valid_move b row col BLACK);
    destruct (is_valid_move b row col WHITE);
    try (specialize (HvB eq_refl)); try (specialize (HvW eq_refl));
    destruct Hx as [[Hx|Hx]|Hx]; rewrite Hx in *; cbn [value] in *;
    try discriminate; cbn [Z.eqb Pos.eqb b2z]; lia.
Qed.

Lemma empty_cells_of_moves (b : OthelloBoard) (p : Player) :
  Z.of_nat (length (get_valid_moves b p))
  <= sum_cells (fun row col => b2z (getitem (board b) row col =? 0)) (size b).
Proof.
  rewrite length_get_valid_moves. apply sum_cells_le. intros row col _ _.
  destruct (is_valid_move b row col p) eqn:E; cbn [b2z].
  - apply is_valid_move_cell in E. rewrite E. cbn. lia.
  - destruct (_ =? 0); cbn; lia.
Qed.

(** C3.  The evaluator is not total on the board sizes the engine accepts:
    on the 10x10 board reached from [OthelloBoard(10)] by five legal moves,
    where the game is not over and a piece stands on row 8, the lookup
    [self.position_values[8, 3]] leaves the 8x8 table and
    [_evaluate_board] raises, for a Black CPU and for a White one. *)
Theorem evaluate_board_raises_on_10x10 :
  (exists b0, OthelloBoard_init 10 = Some b0 /\ play b0 opening10 = board10) /\
  reachable 10 board10 /\
  well_formed board10 = true /\
  is_game_over board10 = false /\
  _evaluate_board (OthelloCPU_init BLACK 4) board10 = None /\
  _evaluate_board (OthelloCPU_init WHITE 4) board10 = None.
Proof.
  assert (H : exists b0, OthelloBoard_init 10 = Some b0 /\ play b0 opening10 = board10).
  { eexists. split; [vm_compute; reflexivity|]. vm_compute; reflexivity. }
  split; [exact H|]. split.
  { destruct H as (b0 & H0 & H1). rewrite <- H1.
    apply play_reachable, reach_init, H0. }
  split; [vm_compute; reflexivity|].
  split; [vm_compute; reflexivity|].
  split; vm_compute; reflexivity.
Qed.

(** On the opposite side of C4: the claim that a heuristic score always
    stays below the terminal constant fails on [heavy_board], where the
    game is not over and Black's score is 1223. *)
Lemma heuristic_score_exceeds_terminal :
  ~ (forall (b : OthelloBoard) (p : Player) (d : nat) (s : Z),
       well_formed b = true -> size b = 8 -> is_game_over b = false ->
       p <> EMPTY ->
       _evaluate_board (OthelloCPU_init p d) b = Some s ->
       Z.abs s < TERMINAL).
Proof.
  intros H.
  assert (Hp : BLACK <> EMPTY) by discriminate.
  assert (Hw : well_formed heavy_board = true) by (vm_compute; reflexivity).
  assert (Ho : is_game_over heavy_board = false) by (vm_compute; reflexivity).
  assert (He : _evaluate_board (OthelloCPU_init BLACK 3) heavy_board = Some 1223)
    by (vm_compute; reflexivity).
  specialize (H heavy_board BLACK 3%nat 1223 Hw eq_refl Ho Hp He).
  unfold TERMINAL in H. lia.
Qed.

(** C4, amended.  On a well-formed 8x8 board where the game is not over,
    the evaluator returns the heuristic sum, and its absolute value is at
    most 1229: each piece weighs at most [cell_weight] of its cell, the
    weights add up to 1232, and an empty cell, of which there is at least
    one, trades a weight of 8 or more for a mobility share of at most 5. *)
Theorem heuristic_score_bound (b : OthelloBoard) (p : Player) (d : nat) :
  well_formed b = true -> size b = 8 -> is_game_over b = false -> p <> EMPTY ->
  exists s,
    _evaluate_board (OthelloCPU_init p d) b = Some s /\
    heuristic_score (OthelloCPU_init p d) b = Some s /\
    Z.abs s <= 1229.
Proof.
  intros Hwf Hn Hover Hp.
  unfold well_formed in Hwf. apply andb_true_iff in Hwf as [Hw Hc].
  set (cpu := OthelloCPU_init p d).
  assert (Hs : heuristic_score cpu b = Some (sum_cells (cell_term cpu b) 8)).
  { rewrite <- Hn. apply heuristic_score_sum; [exact Hw|reflexivity|lia]. }
  exists (sum_cells (cell_term cpu b) 8).
  split; [unfold _evaluate_board; now rewrite Hover|]. split; [exact Hs|].
  set (E := sum_cells (fun row col => b2z (getitem (board b) row col =? 0)) 8).
  assert (HE : 1 <= E).
  { unfold is_game_over in Hover. apply andb_false_iff in Hover.
    pose proof (empty_cells_of_moves b BLACK) as HB.
    pose proof (empty_cells_of_moves b WHITE) as HW.
    rewrite Hn in HB, HW. fold E in HB, HW.
    destruct Hover as [Ho|Ho]; apply Nat.eqb_neq in Ho; lia. }
  assert (Hsum : sum_cells (fun row col =>
                   cell_weight row col
                   + (-3) * b2z (getitem (board b) row col =? 0)) 8
                 = 1232 + (-3) * E).
  { rewrite sum_cells_plus, sum_cells_scale. fold E.
    assert (sum_cells cell_weight 8 = 1232) as -> by (vm_compute; reflexivity).
    reflexivity. }
  assert (Hup : sum_cells (cell_term cpu b) 8 <= 1232 + (-3) * E).
  { rewrite <- Hsum. apply sum_cells_le. intros row col Hr Hcol.
    pose proof (cell_term_bound p d b row col Hc Hp Hr Hcol). fold cpu in H. lia. }
  assert (Hlo : (-1) * (1232 + (-3) * E) <= sum_cells (cell_term cpu b) 8).
  { rewrite <- Hsum, <- sum_cells_scale. apply sum_cells_le. intros row col Hr Hcol.
    pose proof (cell_term_bound p d b row col Hc Hp Hr Hcol). fold cpu in H. lia. }
  lia.
Qed.

Lemma heuristic_score_bound_witness :
  well_formed heavy_board = true /\ size heavy_board = 8 /\
  is_game_over heavy_board = false /\
  exists s,
    _evaluate_board (OthelloCPU_init WHITE 3) heavy_board = Some s /\
    heuristic_score (OthelloCPU_init WHITE 3) heavy_board = Some s /\
    Z.abs s <= 1229.
Proof.
  assert (Hw : well_formed heavy_board = true) by (vm_compute; reflexivity).
  assert (Ho : is_game_over heavy_board = false) by (vm_compute; reflexivity).
  split; [exact Hw|]. split; [reflexivity|]. split; [exact Ho|].
  apply (heuristic_score_bound heavy_board WHITE 3 Hw eq_refl Ho); discriminate.
Defined.

(** ** The greedy level *)

Lemma greedy_loop_spec (cpu : OthelloCPU) (b : OthelloBoard) (moves : list (Z * Z)) :
  forall (best_move : Z * Z) (best_score : Z) (m : Z * Z),
    greedy_loop cpu b moves best_move best_score = Some m ->
    (m = best_move /\
     forall mv s, In mv moves ->
       _evaluate_board cpu (apply_move b mv (player cpu)) = Some s -> s <= best_score)
    \/
    (In m moves /\
     exists sm, _evaluate_board cpu (apply_move b m (player cpu)) = Some sm /\
       best_score < sm /\
       forall mv s, In mv moves ->
         _evaluate_board cpu (apply_move b mv (player cpu)) = Some s -> s <= sm).
Proof.
  induction moves as [|mv rest IH]; intros bm bs m H; cbn [greedy_loop] in H.
  - injection H as <-. left. split; [reflexivity|]. intros mv s [].
  - destruct (_evaluate_board cpu (apply_move b mv (player cpu))) as [sc|] eqn:E;
      [|discriminate].
    cbn [bind] in H. destruct (bs <? sc) eqn:Hlt.
    + apply Z.ltb_lt in Hlt. right.
      destruct (IH _ _ _ H) as [[-> Hall]|(Hin & sm & Hsm & Hgt & Hall)].
      * split; [now left|]. exists sc. split; [exact E|]. split; [exact Hlt|].
        intros mv' s [<-|Hin'] Hs; [rewrite E in Hs; injection Hs as <-; lia|].
        eapply Hall; eauto.
      * split; [now right|]. exists sm. split; [exact Hsm|]. split; [lia|].
        intros mv' s [<-|Hin'] Hs; [rewrite E in Hs; injection Hs as <-; lia|].
        eapply Hall; eauto.
    + apply Z.ltb_ge in Hlt.
      destruct (IH _ _ _ H) as [[-> Hall]|(Hin & sm & Hsm & Hgt & Hall)].
      * left. split; [reflexivity|].
        intros mv' s [<-|Hin'] Hs; [rewrite E in Hs; injection Hs as <-; lia|].
        eapply Hall; eauto.
      * right. split; [now right|]. exists sm. split; [exact Hsm|]. split; [lia|].
        intros mv' s [<-|Hin'] Hs; [rewrite E in Hs; injection Hs as <-; lia|].
        eapply Hall; eauto.
Qed.

(** X15.  What the greedy level does guarantee, on a board whose array
    has shape (size, size): as soon as one legal move leads to a score of
    0 or more, the move returned has the highest score. *)
Lemma greedy_move_best_when_nonnegative (rnd : nat) (cpu : OthelloCPU)
    (b : OthelloBoard) (m m0 : Z * Z) (s0 : Z) :
  well_shaped b = true ->
  difficulty cpu = 2%nat ->
  get_move rnd cpu b = Some (Some m) ->
  In m0 (get_valid_moves b (player cpu)) ->
  _evaluate_board cpu (apply_move b m0 (player cpu)) = Some s0 -> 0 <= s0 ->
  exists sm,
    _evaluate_board cpu (apply_move b m (player cpu)) = Some sm /\
    forall mv s, In mv (get_valid_moves b (player cpu)) ->
      _evaluate_board cpu (apply_move b mv (player cpu)) = Some s -> s <= sm.
Proof.
  intros _ Hd Hm Hin Hs0 Hpos. unfold get_move in Hm. rewrite Hd in Hm.
  destruct (get_valid_moves b (player cpu)) as [|mv0 rest] eqn:Hvm; [contradiction|].
  cbn [Nat.eqb] in Hm. unfold _get_greedy_move in Hm. cbn [nth_error bind] in Hm.
  destruct (greedy_loop cpu b (mv0 :: rest) mv0 (-1)) as [m'|] eqn:Hg; [|discriminate].
  cbn [bind] in Hm. unfold ret in Hm. injection Hm as ->.
  destruct (greedy_loop_spec _ _ _ _ _ _ Hg) as [[_ Hall]|(_ & sm & Hsm & _ & Hall)].
  - specialize (Hall m0 s0 Hin Hs0). lia.
  - exists sm. split; [exact Hsm|exact Hall].
Qed.

(** C2.  The greedy level can return a strictly dominated move: on
    [greedy_board] with White to move, the legal moves are (3,4) and (5,5),
    leading to the scores -92 and -74; no score exceeds the initial
    [best_score = -1], so [get_move] returns the first move, (3,4), although
    (5,5) scores strictly higher. *)
Theorem greedy_move_dominated :
  well_formed greedy_board = true /\
  get_valid_moves greedy_board WHITE = [(3, 4); (5, 5)] /\
  (forall rnd, get_move rnd (OthelloCPU_init WHITE 2) greedy_board = Some (Some (3, 4))) /\
  _evaluate_board (OthelloCPU_init WHITE 2) (apply_move greedy_board (3, 4) WHITE)
    = Some (-92) /\
  _evaluate_board (OthelloCPU_init WHITE 2) (apply_move greedy_board (5, 5) WHITE)
    = Some (-74).
Proof.
  split; [vm_compute; reflexivity|].
  split; [vm_compute; reflexivity|].
  split; [intros rnd; vm_compute; reflexivity|].
  split; vm_compute; reflexivity.
Qed.

(** ** Order facts on scores *)

Ltac ext_norm :=
  cbn [ext_leb negb] in *;
  repeat match goal with H : Fin _ = Fin _ |- _ => injection H as H end;
  try discriminate; try reflexivity; try (exfalso; lia).

Ltac ext_crush :=
  intros;
  repeat match goal with x : ext |- _ => destruct x end;
  unfold clamp, ext_max, ext_min, ext_ltb in *;
  ext_norm;
  repeat match goal with
  | H : context [Z.leb ?x ?y] |- _ => destruct (Z.leb_spec x y); ext_norm
  | |- context [Z.leb ?x ?y] => destruct (Z.leb_spec x y); ext_norm
  end;
  try (f_equal; lia).

Lemma ext_max_NegInf (a : ext) : ext_max a NegInf = a.
Proof. ext_crush. Qed.

Lemma ext_min_PosInf (a : ext) : ext_min a PosInf = a.
Proof. ext_crush. Qed.

Lemma clamp_full (x : ext) : clamp NegInf PosInf x = x.
Proof. ext_crush. Qed.

Lemma ext_max_assoc (a m s : ext) :
  ext_max (ext_max a m) s = ext_max a (ext_max m s).
Proof. ext_crush. Qed.

Lemma ext_min_assoc (a m s : ext) :
  ext_min (ext_min a m) s = ext_min a (ext_min m s).
Proof. ext_crush. Qed.

Lemma ext_leb_max_l (r v : ext) : ext_leb r (ext_max r v) = true.
Proof. ext_crush. Qed.

Lemma ext_leb_min_l (r v : ext) : ext_leb (ext_min r v) r = true.
Proof. ext_crush. Qed.

Lemma ext_leb_trans (a b c : ext) :
  ext_leb a b = true -> ext_leb b c = true -> ext_leb a c = true.
Proof. ext_crush. Qed.

Lemma max_step (a0 bt m r s v : ext) :
  ext_ltb (ext_max a0 m) bt = true ->
  clamp a0 bt m = clamp a0 bt r ->
  clamp (ext_max a0 m) bt s = clamp (ext_max a0 m) bt v ->
  clamp a0 bt (ext_max m s) = clamp a0 bt (ext_max r v).
Proof. ext_crush. Qed.

Lemma max_cut (a0 bt m r v : ext) :
  ext_ltb a0 bt = true ->
  ext_leb bt (ext_max a0 m) = true ->
  clamp a0 bt m = clamp a0 bt r ->
  ext_leb r v = true ->
  clamp a0 bt m = clamp a0 bt v.
Proof. ext_crush. Qed.

Lemma min_step (al b0 m r s v : ext) :
  ext_ltb al (ext_min b0 m) = true ->
  clamp al b0 m = clamp al b0 r ->
  clamp al (ext_min b0 m) s = clamp al (ext_min b0 m) v ->
  clamp al b0 (ext_min m s) = clamp al b0 (ext_min r v).
Proof. ext_crush. Qed.

Lemma min_cut (al b0 m r v : ext) :
  ext_ltb al b0 = true ->
  ext_leb (ext_min b0 m) al = true ->
  clamp al b0 m = clamp al b0 r ->
  ext_leb v r = true ->
  clamp al b0 m = clamp al b0 v.
Proof. ext_crush. Qed.

Lemma ext_ltb_max_l (a0 m bt : ext) :
  ext_ltb (ext_max a0 m) bt = true -> ext_ltb a0 bt = true.
Proof. ext_crush. Qed.

Lemma ext_ltb_min_r (al b0 m : ext) :
  ext_ltb al (ext_min b0 m) = true -> ext_ltb al b0 = true.
Proof. ext_crush. Qed.

Lemma ext_leb_false_ltb (a b : ext) : ext_leb a b = false -> ext_ltb b a = true.
Proof. unfold ext_ltb. now intros ->. Qed.

(** ** Pruned and unpruned loops *)

Section LoopAgreement.
Variable child : OthelloBoard -> ext -> ext -> M ext.
Variable child_all : OthelloBoard -> M ext.
Variable b : OthelloBoard.
Variable current_player : Player.

(** On every window the pruned child agrees with the unpruned one, as far
    as the window can tell, whenever the unpruned one returns. *)
Hypothesis child_agrees :
  forall tb alpha beta v,
    ext_ltb alpha beta = true -> child_all tb = Some v ->
    exists s, child tb alpha beta = Some s /\ clamp alpha beta s = clamp alpha beta v.

Lemma max_all_ge (moves : list (Z * Z)) :
  forall r v, max_all child_all b current_player moves r = Some v ->
              ext_leb r v = true.
Proof.
  induction moves as [|mv rest IH]; intros r v H; cbn [max_all] in H.
  - injection H as <-. destruct r; cbn; auto. apply Z.leb_refl.
  - destruct (child_all _) as [s|]; [|discriminate]. cbn [bind] in H.
    apply IH in H. eapply ext_leb_trans; [apply ext_leb_max_l|exact H].
Qed.

Lemma min_all_le (moves : list (Z * Z)) :
  forall r v, min_all child_all b current_player moves r = Some v ->
              ext_leb v r = true.
Proof.
  induction moves as [|mv rest IH]; intros r v H; cbn [min_all] in H.
  - injection H as <-. destruct r; cbn; auto. apply Z.leb_refl.
  - destruct (child_all _) as [s|]; [|discriminate]. cbn [bind] in H.
    apply IH in H. eapply ext_leb_trans; [exact H|apply ext_leb_min_l].
Qed.

Lemma max_loop_agrees (alpha0 beta : ext) (moves : list (Z * Z)) :
  forall m r v,
    ext_ltb (ext_max alpha0 m) beta = true ->
    clamp alpha0 beta m = clamp alpha0 beta r ->
    max_all child_all b current_player moves r = Some v ->
    exists s,
      max_loop child b current_player moves m (ext_max alpha0 m) beta = Some s /\
      clamp alpha0 beta s = clamp alpha0 beta v.
Proof.
  induction moves as [|mv rest IH]; intros m r v Hw Hmr Hall;
    cbn [max_all max_loop] in *.
  - injection Hall as <-. exists m. split; [reflexivity|exact Hmr].
  - destruct (child_all (apply_move b mv current_player)) as [cv|] eqn:Ec;
      [|discriminate].
    cbn [bind] in Hall.
    destruct (child_agrees _ _ _ _ Hw Ec) as (cs & Hcs & Hcl).
    rewrite Hcs. cbn [bind].
    pose proof (max_step _ _ _ _ _ _ Hw Hmr Hcl) as Hstep.
    rewrite ext_max_assoc.
    destruct (ext_leb beta (ext_max alpha0 (ext_max m cs))) eqn:Hcut.
    + exists (ext_max m cs). split; [reflexivity|].
      apply (max_cut _ _ _ (ext_max r cv)); auto.
      * eapply ext_ltb_max_l; exact Hw.
      * eapply max_all_ge; exact Hall.
    + apply (IH _ _ _ (ext_leb_false_ltb _ _ Hcut) Hstep Hall).
Qed.

Lemma min_loop_agrees (alpha beta0 : ext) (moves : list (Z * Z)) :
  forall m r v,
    ext_ltb alpha (ext_min beta0 m) = true ->
    clamp alpha beta0 m = clamp alpha beta0 r ->
    min_all child_all b current_player moves r = Some v ->
    exists s,
      min_loop child b current_player moves m alpha (ext_min beta0 m) = Some s /\
      clamp alpha beta0 s = clamp alpha beta0 v.
Proof.
  induction moves as [|mv rest IH]; intros m r v Hw Hmr Hall;
    cbn [min_all min_loop] in *.
  - injection Hall as <-. exists m. split; [reflexivity|exact Hmr].
  - destruct (child_all (apply_move b mv current_player)) as [cv|] eqn:Ec;
      [|discriminate].
    cbn [bind] in Hall.
    destruct (child_agrees _ _ _ _ Hw Ec) as (cs & Hcs & Hcl).
    rewrite Hcs. cbn [bind].
    pose proof (min_step _ _ _ _ _ _ Hw Hmr Hcl) as Hstep.
    rewrite ext_min_assoc.
    destruct (ext_leb (ext_min beta0 (ext_min m cs)) alpha) eqn:Hcut.
    + exists (ext_min m cs). split; [reflexivity|].
      apply (min_cut _ _ _ (ext_min r cv)); auto.
      * eapply ext_ltb_min_r; exact Hw.
      * eapply min_all_le; exact Hall.
    + apply (IH _ _ _ (ext_leb_false_ltb _ _ Hcut) Hstep Hall).
Qed.
End LoopAgreement.

(** Fail-soft alpha-beta: on a window [alpha < beta], whenever the unpruned
    search returns [v], [_minimax] returns a score that the window cannot
    tell from [v]. *)
Lemma minimax_agrees (cpu : OthelloCPU) (depth : nat) :
  forall (b : OthelloBoard) (alpha beta : ext) (is_maximizing : bool) (v : ext),
    ext_ltb alpha beta = true ->
    minimax_unpruned cpu depth b is_maximizing = Some v ->
    exists s, _minimax cpu depth b alpha beta is_maximizing = Some s /\
              clamp alpha beta s = clamp alpha beta v.
Proof.
  induction depth as [|d IH]; intros b alpha beta mx v Hw Hv;
    cbn [_minimax minimax_unpruned] in *.
  - exists v. split; [exact Hv|reflexivity].
  - destruct (is_game_over b).
    + exists v. split; [exact Hv|reflexivity].
    + destruct (get_valid_moves b (if mx then player cpu else opponent cpu))
        as [|mv rest] eqn:Hmoves.
      * now apply IH.
      * destruct mx.
        -- pose proof (max_loop_agrees _ (fun tb => minimax_unpruned cpu d tb false)
                         b (player cpu) (fun tb a bt w => IH tb a bt false w)
                         alpha beta (mv :: rest) NegInf NegInf v) as H.
           rewrite ext_max_NegInf in H. now apply H.
        -- pose proof (min_loop_agrees _ (fun tb => minimax_unpruned cpu d tb true)
                         b (opponent cpu) (fun tb a bt w => IH tb a bt true w)
                         alpha beta (mv :: rest) PosInf PosInf v) as H.
           rewrite ext_min_PosInf in H. now apply H.
Qed.

Lemma minimax_full_window (cpu : OthelloCPU) (depth : nat) (b : OthelloBoard)
    (is_maximizing : bool) (v : ext) :
  minimax_unpruned cpu depth b is_maximizing = Some v ->
  _minimax cpu depth b NegInf PosInf is_maximizing = Some v.
Proof.
  intros Hv.
  destruct (minimax_agrees cpu depth b NegInf PosInf is_maximizing v eq_refl Hv)
    as (s & Hs & Hcl).
  rewrite !clamp_full in Hcl. now subst s.
Qed.

Lemma root_loop_agrees (f g : OthelloBoard -> M ext) (cpu : OthelloCPU)
    (b : OthelloBoard) (moves : list (Z * Z)) :
  (forall tb v, g tb = Some v -> f tb = Some v) ->
  forall best_move best_score m,
    root_loop g cpu b moves best_move best_score = Some m ->
    root_loop f cpu b moves best_move best_score = Some m.
Proof.
  intros Hfg. induction moves as [|mv rest IH]; intros bm bs m H;
    cbn [root_loop] in *; [exact H|].
  destruct (g (apply_move b mv (player cpu))) as [s|] eqn:E; [|discriminate].
  rewrite (Hfg _ _ E). cbn [bind] in *.
  destruct (ext_ltb bs s); now apply IH.
Qed.

(** ** The root loop keeps the first best score *)

Lemma ext_leb_refl (a : ext) : ext_leb a a = true.
Proof. ext_crush. Qed.

Lemma ext_ltb_leb (a b : ext) : ext_ltb a b = true -> ext_leb a b = true.
Proof. ext_crush. Qed.

Lemma ext_ltb_false_leb (a b : ext) : ext_ltb a b = false -> ext_leb b a = true.
Proof. ext_crush. Qed.

Lemma ext_leb_ltb_trans (a b c : ext) :
  ext_leb a b = true -> ext_ltb b c = true -> ext_ltb a c = true.
Proof. ext_crush. Qed.

Lemma root_loop_spec (g : OthelloBoard -> M ext) (cpu : OthelloCPU)
    (b : OthelloBoard) (moves : list (Z * Z)) :
  forall (best_move : Z * Z) (best_score : ext) (m : Z * Z),
    root_loop g cpu b moves best_move best_score = Some m ->
    (m = best_move /\
     forall mv, In mv moves ->
       exists s, g (apply_move b mv (player cpu)) = Some s /\
                 ext_leb s best_score = true)
    \/
    (In m moves /\
     exists sm, g (apply_move b m (player cpu)) = Some sm /\
       ext_ltb best_score sm = true /\
       forall mv, In mv moves ->
         exists s, g (apply_move b mv (player cpu)) = Some s /\
                   ext_leb s sm = true).
Proof.
  induction moves as [|mv rest IH]; intros bm bs m H; cbn [root_loop] in H.
  - injection H as <-. left. split; [reflexivity|]. intros mv [].
  - destruct (g (apply_move b mv (player cpu))) as [sc|] eqn:E; [|discriminate].
    cbn [bind] in H. destruct (ext_ltb bs sc) eqn:Hlt.
    + right.
      destruct (IH _ _ _ H) as [[-> Hall]|(Hin & sm & Hsm & Hgt & Hall)].
      * split; [now left|]. exists sc. split; [exact E|]. split; [exact Hlt|].
        intros mv' [<-|Hin'].
        -- exists sc. split; [exact E|apply ext_leb_refl].
        -- now apply Hall.
      * split; [now right|]. exists sm. split; [exact Hsm|]. split.
        { eapply ext_leb_ltb_trans; [apply ext_ltb_leb; exact Hlt|exact Hgt]. }
        intros mv' [<-|Hin'].
        -- exists sc. split; [exact E|now apply ext_ltb_leb].
        -- now apply Hall.
    + apply ext_ltb_false_leb in Hlt.
      destruct (IH _ _ _ H) as [[-> Hall]|(Hin & sm & Hsm & Hgt & Hall)].
      * left. split; [reflexivity|].
        intros mv' [<-|Hin'].
        -- exists sc. split; [exact E|exact Hlt].
        -- now apply Hall.
      * right. split; [now right|]. exists sm. split; [exact Hsm|]. split; [exact Hgt|].
        intros mv' [<-|Hin'].
        -- exists sc. split; [exact E|].
           eapply ext_leb_trans; [exact Hlt|now apply ext_ltb_leb].
        -- now apply Hall.
Qed.

(** X16.  The minimax levels start from [float('-inf')]: on a board whose
    array has shape (size, size), the move they return has the highest
    search score among the legal moves. *)
Lemma minimax_move_not_dominated (rnd : nat) (cpu : OthelloCPU)
    (b : OthelloBoard) (m : Z * Z) :
  well_shaped b = true ->
  (3 <= difficulty cpu)%nat ->
  get_move rnd cpu b = Some (Some m) ->
  exists sm,
    _minimax cpu (difficulty cpu - 1) (apply_move b m (player cpu))
             NegInf PosInf false = Some sm /\
    forall mv, In mv (get_valid_moves b (player cpu)) ->
      exists s,
        _minimax cpu (difficulty cpu - 1) (apply_move b mv (player cpu))
                 NegInf PosInf false = Some s /\
        ext_leb s sm = true.
Proof.
  intros _ Hd Hm. unfold get_move in Hm.
  destruct (get_valid_moves b (player cpu)) as [|mv0 rest] eqn:Hvm; [discriminate|].
  destruct (Nat.eqb_spec (difficulty cpu) 1) as [E|_]; [lia|].
  destruct (Nat.eqb_spec (difficulty cpu) 2) as [E|_]; [lia|].
  unfold _get_minimax_move in Hm. cbn [nth_error bind] in Hm.
  destruct (root_loop _ cpu b (mv0 :: rest) mv0 NegInf) as [m'|] eqn:Hg; [|discriminate].
  cbn [bind] in Hm. unfold ret in Hm. injection Hm as ->.
  destruct (root_loop_spec _ _ _ _ _ _ _ Hg) as [[-> Hall]|(_ & sm & Hsm & _ & Hall)].
  - destruct (Hall mv0 (or_introl eq_refl)) as (s0 & Hs0 & Hle).
    exists s0. split; [exact Hs0|].
    intros mv Hin. destruct (Hall mv Hin) as (s & Hs & Hle').
    exists s. split; [exact Hs|]. destruct s, s0; cbn in *; auto; discriminate.
  - exists sm. split; [exact Hsm|exact Hall].
Qed.

(** ** The unpruned search returns on boards that fit the table *)

Lemma apply_move_size (b : OthelloBoard) (mv : Z * Z) (p : Player) :
  size (apply_move b mv p) = size b.
Proof. unfold apply_move. now rewrite make_move_size. Qed.

Lemma max_all_total (child_all : OthelloBoard -> M ext) (b : OthelloBoard)
    (p : Player) (moves : list (Z * Z)) :
  (forall mv, exists v, child_all (apply_move b mv p) = Some v) ->
  forall r, exists v, max_all child_all b p moves r = Some v.
Proof.
  intros Hc. induction moves as [|mv rest IH]; intros r; cbn [max_all].
  - now eexists.
  - destruct (Hc mv) as [v ->]. cbn [bind]. apply IH.
Qed.

Lemma min_all_total (child_all : OthelloBoard -> M ext) (b : OthelloBoard)
    (p : Player) (moves : list (Z * Z)) :
  (forall mv, exists v, child_all (apply_move b mv p) = Some v) ->
  forall r, exists v, min_all child_all b p moves r = Some v.
Proof.
  intros Hc. induction moves as [|mv rest IH]; intros r; cbn [min_all].
  - now eexists.
  - destruct (Hc mv) as [v ->]. cbn [bind]. apply IH.
Qed.

Lemma minimax_unpruned_total (cpu : OthelloCPU) (depth : nat) :
  position_values cpu = POSITION_VALUES ->
  forall (b : OthelloBoard) (is_maximizing : bool),
    size b <= 8 -> exists v, minimax_unpruned cpu depth b is_maximizing = Some v.
Proof.
  intros Hpv. induction depth as [|d IH]; intros b mx Hn; cbn [minimax_unpruned].
  - destruct (evaluate_board_total cpu b Hpv Hn) as [s ->]. now eexists.
  - destruct (is_game_over b).
    + destruct (evaluate_board_total cpu b Hpv Hn) as [s ->]. now eexists.
    + destruct (get_valid_moves b (if mx then player cpu else opponent cpu));
        [now apply IH|].
      destruct mx.
      * apply max_all_total. intros mv. apply IH. now rewrite apply_move_size.
      * apply min_all_total. intros mv. apply IH. now rewrite apply_move_size.
Qed.

Lemma root_loop_total (g : OthelloBoard -> M ext) (cpu : OthelloCPU)
    (b : OthelloBoard) (moves : list (Z * Z)) :
  (forall mv, exists v, g (apply_move b mv (player cpu)) = Some v) ->
  forall best_move best_score,
    exists m, root_loop g cpu b moves best_move best_score = Some m.
Proof.
  intros Hg. induction moves as [|mv rest IH]; intros bm bs; cbn [root_loop].
  - now eexists.
  - destruct (Hg mv) as [v ->]. cbn [bind]. destruct (ext_ltb bs v); apply IH.
Qed.

Lemma get_move_unpruned_total (cpu : OthelloCPU) (b : OthelloBoard) :
  position_values cpu = POSITION_VALUES -> size b <= 8 ->
  exists r, get_move_unpruned cpu b = Some r.
Proof.
  intros Hpv Hn. unfold get_move_unpruned, get_minimax_move_unpruned.
  destruct (get_valid_moves b (player cpu)) as [|mv rest]; [now eexists|].
  cbn [nth_error bind].
  destruct (root_loop_total
              (fun tb => minimax_unpruned cpu (difficulty cpu - 1) tb false)
              cpu b (mv :: rest)) with (best_move := mv) (best_score := NegInf)
    as [m Hm].
  - intros mv'. apply minimax_unpruned_total; auto. now rewrite apply_move_size.
  - rewrite Hm. cbn [bind]. now eexists.
Qed.

(** The evaluator's [IndexError] on boards larger than its table (C3) seen
    through the search: on [cutoff_board] the line Black (3,4), White (4,7),
    Black (5,8) ends on a board with a piece in column 8, which the
    evaluator cannot score.  The unpruned search visits that leaf and
    raises; [_minimax] cuts the node off after Black (4,8), never visits
    it, and [get_move] returns (4,3). *)
Lemma cutoff_hides_evaluator_error :
  get_valid_moves cutoff_board BLACK = [(3, 4); (4, 3)] /\
  _evaluate_board (OthelloCPU_init BLACK 3)
    (apply_move (apply_move (apply_move cutoff_board (3, 4) BLACK) (4, 7) WHITE)
                (5, 8) BLACK) = None /\
  get_move_unpruned (OthelloCPU_init BLACK 3) cutoff_board = None /\
  get_move 0 (OthelloCPU_init BLACK 3) cutoff_board = Some (Some (4, 3)).
Proof.
  split; [vm_compute; reflexivity|].
  split; [vm_compute; reflexivity|].
  split; vm_compute; reflexivity.
Qed.

(** C1.  Pruning is not a pure optimisation on the board sizes the engine
    accepts.  On the 10x10 board reached from [OthelloBoard(10)] by four
    legal moves, a Black CPU of difficulty 3 returns (7,4), while the
    search without pruning raises: below the root move (7,3), the line
    White (7,4), Black (8,4) ends on a board with a piece on row 8, which
    the evaluator cannot score ([IndexError], the defect of C3).  The
    search without pruning visits that leaf; [_minimax] has cut the node
    off at its first child and never does. *)
Theorem pruning_changes_result_on_10x10 :
  (exists b0, OthelloBoard_init 10 = Some b0 /\
              play b0 cut_opening10 = cut_board10 /\
              applied b0 cut_opening10 = 4) /\
  well_formed cut_board10 = true /\
  _evaluate_board (OthelloCPU_init BLACK 3)
    (apply_move (apply_move (apply_move cut_board10 (7, 3) BLACK) (7, 4) WHITE)
                (8, 4) BLACK) = None /\
  minimax_unpruned (OthelloCPU_init BLACK 3) 2
    (apply_move cut_board10 (7, 3) BLACK) false = None /\
  _minimax (OthelloCPU_init BLACK 3) 2
    (apply_move cut_board10 (7, 3) BLACK) NegInf PosInf false = Some (Fin 13) /\
  get_move_unpruned (OthelloCPU_init BLACK 3) cut_board10 = None /\
  get_move 0 (OthelloCPU_init BLACK 3) cut_board10 = Some (Some (7, 4)) /\
  get_move 0 (OthelloCPU_init BLACK 3) cut_board10
  <> get_move_unpruned (OthelloCPU_init BLACK 3) cut_board10.
Proof.
  assert (Hu : get_move_unpruned (OthelloCPU_init BLACK 3) cut_board10 = None)
    by (vm_compute; reflexivity).
  assert (Hp : get_move 0 (OthelloCPU_init BLACK 3) cut_board10 = Some (Some (7, 4)))
    by (vm_compute; reflexivity).
  split.
  { eexists. split; [vm_compute; reflexivity|].
    split; vm_compute; reflexivity. }
  split; [vm_compute; reflexivity|].
  split; [vm_compute; reflexivity|].
  split; [vm_compute; reflexivity|].
  split; [vm_compute; reflexivity|].
  split; [exact Hu|]. split; [exact Hp|].
  rewrite Hu, Hp. discriminate.
Qed.

(** X22.  At difficulty 3 and above, on a board whose array has shape
    (size, size): whatever the search without pruning returns (a move, or
    no move), [get_move] with its alpha-beta pruning returns the same; and
    on a board that fits the evaluator's 8x8 table the search without
    pruning always returns. *)
Theorem pruning_preserves_move (rnd : nat) (cpu : OthelloCPU) (b : OthelloBoard) :
  well_shaped b = true ->
  (3 <= difficulty cpu)%nat ->
  (forall r, get_move_unpruned cpu b = Some r -> get_move rnd cpu b = Some r) /\
  (position_values cpu = POSITION_VALUES -> size b <= 8 ->
   exists r, get_move_unpruned cpu b = Some r /\ get_move rnd cpu b = Some r).
Proof.
  intros _ Hd.
  assert (Hmain : forall r, get_move_unpruned cpu b = Some r ->
                            get_move rnd cpu b = Some r).
  { intros r. unfold get_move_unpruned, get_move.
    destruct (get_valid_moves b (player cpu)) as [|mv rest]; [auto|].
    destruct (Nat.eqb_spec (difficulty cpu) 1) as [E|_]; [lia|].
    destruct (Nat.eqb_spec (difficulty cpu) 2) as [E|_]; [lia|].
    unfold get_minimax_move_unpruned, _get_minimax_move. cbn [nth_error bind].
    destruct (root_loop (fun tb => minimax_unpruned cpu (difficulty cpu - 1) tb false)
                        cpu b (mv :: rest) mv NegInf) as [m|] eqn:E; [|discriminate].
    intros H. rewrite (root_loop_agrees _ _ cpu b (mv :: rest)
                         (fun tb v => minimax_full_window cpu _ tb false v) _ _ _ E).
    exact H. }
  split; [exact Hmain|].
  intros Hpv Hn. destruct (get_move_unpruned_total cpu b Hpv Hn) as [r Hr].
  exists r. split; [exact Hr|now apply Hmain].
Qed.

Lemma pruning_preserves_move_witness :
  well_shaped initial8 = true /\
  (3 <= difficulty (OthelloCPU_init BLACK 3))%nat /\
  get_move_unpruned (OthelloCPU_init BLACK 3) initial8 = Some (Some (2, 3)) /\
  get_move 0 (OthelloCPU_init BLACK 3) initial8 = Some (Some (2, 3)).
Proof.
  assert (Hd : (3 <= difficulty (OthelloCPU_init BLACK 3))%nat) by (cbn; lia).
  assert (Hu : get_move_unpruned (OthelloCPU_init BLACK 3) initial8 = Some (Some (2, 3)))
    by (vm_compute; reflexivity).
  split; [reflexivity|]. split; [exact Hd|]. split; [exact Hu|].
  exact (proj1 (pruning_preserves_move 0 (OthelloCPU_init BLACK 3) initial8
                  eq_refl Hd) _ Hu).
Defined.

(** * Further properties of the board engine *)

(** X1.  On a board whose array has shape (size, size), a move is valid
    exactly when its cell is on the board and empty and some direction
    carries a flip line. *)
Theorem is_valid_move_flip_line (b : OthelloBoard) (row col : Z) (p : Player) :
  well_shaped b = true ->
  (is_valid_move b row col p = true <->
   in_bounds b row col = true /\
   getitem (board b) row col = value EMPTY /\
   exists d k, In d directions /\ flip_line b row col (fst d) (snd d) p k).
Proof.
  intros _. rewrite is_valid_move_iff. split.
  - intros (Hin & Hc & d & Hd & Hf).
    apply can_flip_in_direction_spec in Hf as [k Hk]; auto.
    repeat split; auto. now exists d, k.
  - intros (Hin & Hc & d & k & Hd & Hk).
    repeat split; auto. exists d. split; [exact Hd|].
    apply can_flip_in_direction_spec; auto. now exists k.
Qed.

Lemma is_valid_move_flip_line_witness :
  well_shaped initial8 = true /\
  exists d k, In d directions /\ flip_line initial8 2 3 (fst d) (snd d) BLACK k.
Proof.
  split; [reflexivity|].
  destruct (proj1 (is_valid_move_flip_line initial8 2 3 BLACK eq_refl) eq_refl)
    as (_ & _ & H).
  exact H.
Defined.

Lemma StronglySorted_app {A : Type} (R : A -> A -> Prop) (l1 l2 : list A) :
  StronglySorted R l1 -> StronglySorted R l2 ->
  (forall x y, In x l1 -> In y l2 -> R x y) ->
  StronglySorted R (l1 ++ l2).
Proof.
  induction l1 as [|a l1 IH]; intros H1 H2 H12; cbn [app]; [exact H2|].
  inversion H1 as [|? ? Hs Hf]; subst. constructor.
  - apply IH; auto. intros x y Hx Hy. apply H12; [now right|exact Hy].
  - apply Forall_app. split; [exact Hf|].
    apply Forall_forall. intros y Hy. apply H12; [now left|exact Hy].
Qed.

Lemma range_sorted (n : Z) : StronglySorted Z.lt (range n).
Proof.
  unfold range. generalize 0%nat as s.
  induction (Z.to_nat n) as [|k IH]; intros s; cbn [seq map]; constructor.
  - apply IH.
  - apply Forall_forall. intros y Hy. apply in_map_iff in Hy as (j & <- & Hj).
    apply in_seq in Hj. lia.
Qed.

Lemma row_moves_sorted (f : Z -> bool) (row : Z) (cols : list Z) :
  StronglySorted Z.lt cols ->
  StronglySorted move_lt
    (flat_map (fun col => if f col then [(row, col)] else []) cols) /\
  forall m, In m (flat_map (fun col => if f col then [(row, col)] else []) cols) ->
            fst m = row /\ In (snd m) cols /\ f (snd m) = true.
Proof.
  induction cols as [|c cols IH]; intros Hs; cbn [flat_map].
  - split; [constructor|]. intros m [].
  - inversion Hs as [|? ? Hs' Hf]; subst. destruct (IH Hs') as [IH1 IH2].
    rewrite Forall_forall in Hf. split.
    + destruct (f c); cbn [app]; [|exact IH1].
      constructor; [exact IH1|]. apply Forall_forall. intros m Hm.
      destruct (IH2 m Hm) as (Hr & Hc & _). right. cbn [fst snd].
      split; [now rewrite Hr|]. now apply Hf.
    + intros m Hm. apply in_app_or in Hm as [Hm|Hm].
      * destruct (f c) eqn:E; [|contradiction].
        destruct Hm as [<-|[]]. cbn [fst snd]. repeat split; auto. now left.
      * destruct (IH2 m Hm) as (Hr & Hc & Hv). repeat split; auto. now right.
Qed.

Lemma get_valid_moves_In (b : OthelloBoard) (p : Player) (m : Z * Z) :
  In m (get_valid_moves b p) <-> is_valid_move b (fst m) (snd m) p = true.
Proof.
  unfold get_valid_moves. rewrite in_flat_map. split.
  - intros (row & Hrow & Hm).
    destruct (row_moves_sorted (fun col => is_valid_move b row col p) row
                (range (size b)) (range_sorted _)) as [_ H].
    destruct (H m Hm) as (Hr & _ & Hv). now rewrite Hr.
  - intros Hv. pose proof Hv as Hv'.
    apply is_valid_move_iff in Hv' as (Hin & _). apply in_bounds_iff in Hin.
    exists (fst m). split; [now apply in_range|].
    apply in_flat_map. exists (snd m). split; [now apply in_range|].
    rewrite Hv. left. now destruct m.
Qed.

(** X2.  On a board whose array has shape (size, size),
    [get_valid_moves] lists exactly the valid moves, each once, in
    row-major order. *)
Theorem get_valid_moves_exact (b : OthelloBoard) (p : Player) :
  well_shaped b = true ->
  (forall m, In m (get_valid_moves b p) <->
             is_valid_move b (fst m) (snd m) p = true) /\
  StronglySorted move_lt (get_valid_moves b p).
Proof.
  intros _. split; [intros m; apply get_valid_moves_In|].
  unfold get_valid_moves.
  assert (H : forall rows, StronglySorted Z.lt rows ->
    StronglySorted move_lt
      (flat_map (fun row =>
         flat_map (fun col => if is_valid_move b row col p then [(row, col)] else [])
                  (range (size b))) rows) /\
    forall m, In m (flat_map (fun row =>
         flat_map (fun col => if is_valid_move b row col p then [(row, col)] else [])
                  (range (size b))) rows) -> In (fst m) rows).
  { induction rows as [|r rows IH]; intros Hs; cbn [flat_map].
    - split; [constructor|]. intros m [].
    - inversion Hs as [|? ? Hs' Hf]; subst. destruct (IH Hs') as [IH1 IH2].
      rewrite Forall_forall in Hf.
      destruct (row_moves_sorted (fun col => is_valid_move b r col p) r
                  (range (size b)) (range_sorted _)) as [R1 R2].
      split.
      + apply StronglySorted_app; auto.
        intros x y Hx Hy. left. destruct (R2 x Hx) as (-> & _).
        apply Hf. now apply IH2.
      + intros m Hm. apply in_app_or in Hm as [Hm|Hm].
        * left. destruct (R2 m Hm) as (Hr & _). now rewrite Hr.
        * right. now apply IH2. }
  apply H, range_sorted.
Qed.

Lemma get_valid_moves_exact_witness :
  well_shaped initial8 = true /\
  StronglySorted move_lt (get_valid_moves initial8 WHITE).
Proof.
  split; [reflexivity|].
  exact (proj2 (get_valid_moves_exact initial8 WHITE eq_refl)).
Defined.

Lemma get_valid_moves_nil (b : OthelloBoard) (p : Player) :
  (forall row col, is_valid_move b row col p = false) -> get_valid_moves b p = [].
Proof.
  intros H. destruct (get_valid_moves b p) as [|m rest] eqn:E; [reflexivity|].
  assert (Hin : In m (get_valid_moves b p)) by (rewrite E; now left).
  apply get_valid_moves_In in Hin. now rewrite H in Hin.
Qed.

(** X3.  [Player.EMPTY] is never a mover: on a board whose array has
    shape (size, size) it has no valid move anywhere, and [make_move] with
    it returns [False] and leaves the board alone. *)
Theorem empty_player_never_moves (b : OthelloBoard) :
  well_shaped b = true ->
  get_valid_moves b EMPTY = [] /\
  forall row col,
    is_valid_move b row col EMPTY = false /\
    make_move b row col EMPTY = (false, b).
Proof.
  intros _.
  assert (H : forall row col, is_valid_move b row col EMPTY = false).
  { intros row col. destruct (is_valid_move b row col EMPTY) eqn:E; [|reflexivity].
    now apply is_valid_move_player in E. }
  split; [now apply get_valid_moves_nil|].
  intros row col. split; [apply H|]. apply make_move_invalid, H.
Qed.

Lemma empty_player_never_moves_witness :
  well_shaped initial8 = true /\
  get_valid_moves initial8 EMPTY = [] /\
  make_move initial8 2 3 EMPTY = (false, initial8).
Proof.
  split; [reflexivity|].
  destruct (empty_player_never_moves initial8 eq_refl) as [H1 H2].
  split; [exact H1|]. exact (proj2 (H2 2 3)).
Defined.

Lemma sum_over_const {A : Type} (k : Z) (xs : list A) :
  sum_over (fun _ => k) xs = k * Z.of_nat (length xs).
Proof.
  unfold sum_over, zsum. induction xs as [|x xs IH]; cbn [map fold_right length]; lia.
Qed.

Lemma range_length (n : Z) : Z.of_nat (length (range n)) = Z.max 0 n.
Proof. unfold range. rewrite length_map, length_seq. lia. Qed.

Lemma sum_cells_const (k n : Z) : 0 <= n -> sum_cells (fun _ _ => k) n = k * (n * n).
Proof.
  intros Hn. unfold sum_cells.
  rewrite (sum_over_ext _ (fun _ => k * n)).
  - rewrite sum_over_const, range_length, Z.max_r by lia. ring.
  - intros row _. now rewrite sum_over_const, range_length, Z.max_r by lia.
Qed.

Lemma count_if_bounds (f : Z -> bool) (b : OthelloBoard) :
  well_shaped b = true -> 0 <= count_if f (board b) <= size b * size b.
Proof.
  intros Hw. rewrite (count_if_sum_cells f b Hw).
  pose proof Hw as Hw'. apply well_shaped_iff in Hw' as (H0 & _).
  split.
  - rewrite <- (Z.mul_0_l (size b * size b)), <- (sum_cells_const 0 (size b) H0).
    apply sum_cells_le. intros. destruct (f _); cbn; lia.
  - rewrite <- (Z.mul_1_l (size b * size b)), <- (sum_cells_const 1 (size b) H0).
    apply sum_cells_le. intros. destruct (f _); cbn; lia.
Qed.

(** X4.  On a well-formed board the two scores and the number of empty
    cells are not negative and add up to the number of cells. *)
Theorem get_score_partition (b : OthelloBoard) :
  well_formed b = true ->
  0 <= fst (get_score b) /\ 0 <= snd (get_score b) /\
  0 <= count_grid (value EMPTY) (board b) /\
  fst (get_score b) + snd (get_score b) + count_grid (value EMPTY) (board b)
  = size b * size b.
Proof.
  intros Hwf. unfold well_formed in Hwf. apply andb_true_iff in Hwf as [Hw Hc].
  unfold get_score, count_grid. cbn [fst snd].
  split; [apply (count_if_bounds _ b Hw)|].
  split; [apply (count_if_bounds _ b Hw)|].
  split; [apply (count_if_bounds _ b Hw)|].
  rewrite !(count_if_sum_cells _ b Hw), <- !sum_cells_plus.
  pose proof Hw as Hw'. apply well_shaped_iff in Hw' as (H0 & _).
  rewrite <- (Z.mul_1_l (size b * size b)), <- (sum_cells_const 1 (size b) H0).
  apply sum_cells_ext. intros row col _ _.
  pose proof (getitem_cell_ok b row col Hc) as Hx. unfold cell_ok in Hx.
  rewrite !orb_true_iff, !Z.eqb_eq in Hx.
  destruct Hx as [[Hx|Hx]|Hx]; rewrite Hx; reflexivity.
Qed.

Lemma get_score_partition_witness :
  well_formed initial8 = true /\
  fst (get_score initial8) + snd (get_score initial8)
    + count_grid (value EMPTY) (board initial8) = size initial8 * size initial8.
Proof.
  split; [reflexivity|].
  apply (get_score_partition initial8 eq_refl).
Defined.

Lemma make_move_occupied (b : OthelloBoard) (row col : Z) (p : Player) :
  well_shaped b = true ->
  occupied (board (snd (make_move b row col p)))
  = occupied (board b) + b2z (fst (make_move b row col p)).
Proof.
  intros Hw. unfold make_move.
  destruct (is_valid_move b row col p) eqn:Hv; cbn [negb fst snd b2z]; [|lia].
  pose proof (is_valid_move_player _ _ _ _ Hv) as Hp.
  apply is_valid_move_iff in Hv as (Hin & Hget & _).
  destruct (fold_flip_counts row col p directions (set_cell b row col (value p))
              directions_nonzero (set_cell_well_shaped b row col (value p) Hw))
    as [Ho _].
  rewrite Ho. unfold occupied.
  rewrite (count_set_cell _ b row col (value p) Hw Hin). cbv beta.
  rewrite Hget. destruct p; cbn; try lia. congruence.
Qed.

Lemma play_shape (ms : list (Z * Z * Player)) :
  forall b, well_shaped b = true ->
            well_shaped (play b ms) = true /\ size (play b ms) = size b.
Proof.
  unfold play. induction ms as [|m rest IH]; intros b Hw;
    cbn [fold_left]; [now split|].
  destruct (IH _ (make_move_well_shaped b (fst (fst m)) (snd (fst m)) (snd m) Hw))
    as [H1 H2].
  split; [exact H1|]. now rewrite H2, make_move_size.
Qed.

Lemma play_occupied (ms : list (Z * Z * Player)) :
  forall b, well_shaped b = true ->
            occupied (board (play b ms)) = occupied (board b) + applied b ms.
Proof.
  unfold play. induction ms as [|m rest IH]; intros b Hw;
    cbn [fold_left applied]; [lia|].
  rewrite IH by now apply make_move_well_shaped.
  rewrite make_move_occupied by exact Hw. lia.
Qed.

(** X5.  Replaying any calls of [make_move] on a board of the right shape
    adds one occupied cell per call that returned [True]; so at most as
    many calls succeed as the board had empty cells. *)
Theorem play_fills_one_cell_per_move (b : OthelloBoard) (ms : list (Z * Z * Player)) :
  well_shaped b = true ->
  occupied (board (play b ms)) = occupied (board b) + applied b ms /\
  applied b ms <= size b * size b - occupied (board b).
Proof.
  intros Hw. pose proof (play_occupied ms b Hw) as H.
  split; [exact H|].
  destruct (play_shape ms b Hw) as [Hs1 Hs2].
  pose proof (count_if_bounds (fun x => negb (x =? 0)) (play b ms) Hs1) as Hb.
  fold (occupied (board (play b ms))) in Hb. rewrite Hs2 in Hb. lia.
Qed.

Lemma play_fills_one_cell_per_move_witness :
  well_shaped initial8 = true /\
  occupied (board (play initial8 [(2, 3, BLACK); (0, 0, WHITE); (2, 2, WHITE)]))
  = occupied (board initial8)
    + applied initial8 [(2, 3, BLACK); (0, 0, WHITE); (2, 2, WHITE)].
Proof.
  split; [reflexivity|].
  apply (play_fills_one_cell_per_move initial8 _ eq_refl).
Defined.

(** X6.  A board of shape (size, size) without an empty cell has no valid
    move for anyone, and the game is over. *)
Theorem full_board_is_game_over (b : OthelloBoard) :
  well_shaped b = true ->
  (forall row col, in_bounds b row col = true ->
                   getitem (board b) row col <> value EMPTY) ->
  (forall p, get_valid_moves b p = []) /\ is_game_over b = true.
Proof.
  intros _ Hfull.
  assert (H : forall p, get_valid_moves b p = []).
  { intros p. apply get_valid_moves_nil. intros row col.
    destruct (is_valid_move b row col p) eqn:E; [|reflexivity].
    apply is_valid_move_iff in E as (Hin & Hc & _).
    now apply Hfull in Hin. }
  split; [exact H|]. unfold is_game_over. now rewrite !H.
Qed.

Lemma full_board_is_game_over_witness :
  well_shaped full_black4 = true /\
  (forall row col, in_bounds full_black4 row col = true ->
                   getitem (board full_black4) row col <> value EMPTY) /\
  is_game_over full_black4 = true.
Proof.
  assert (H : forall row col, in_bounds full_black4 row col = true ->
                getitem (board full_black4) row col <> value EMPTY).
  { intros row col Hin. apply in_bounds_iff in Hin. cbn [size full_black4] in Hin.
    assert (Hr : row = 0 \/ row = 1 \/ row = 2 \/ row = 3) by lia.
    assert (Hc : col = 0 \/ col = 1 \/ col = 2 \/ col = 3) by lia.
    destruct Hr as [->|[->|[->| ->]]]; destruct Hc as [->|[->|[->| ->]]];
      discriminate. }
  split; [reflexivity|].
  split; [exact H|]. exact (proj2 (full_board_is_game_over full_black4 eq_refl H)).
Defined.

(** X7.  When one colour has no piece left on a well-formed board, neither
    side has a valid move: the game is over. *)
Theorem wiped_out_is_game_over (b : OthelloBoard) (p : Player) :
  well_formed b = true -> p <> EMPTY ->
  (forall row col, in_bounds b row col = true ->
                   getitem (board b) row col <> value p) ->
  get_valid_moves b BLACK = [] /\ get_valid_moves b WHITE = [] /\
  is_game_over b = true.
Proof.
  intros Hwf Hp Hnone.
  unfold well_formed in Hwf. apply andb_true_iff in Hwf as [_ Hc].
  assert (Hmine : forall row col, is_valid_move b row col p = false).
  { intros row col. destruct (is_valid_move b row col p) eqn:E; [|reflexivity].
    apply is_valid_move_iff in E as (Hb & _ & d & Hd & Hf).
    apply can_flip_in_direction_spec in Hf as [k Hk]; auto.
    destruct Hk as (_ & _ & Hin & Hcell & _).
    exfalso. exact (Hnone _ _ Hin Hcell). }
  assert (Hother : forall q row col, q <> EMPTY -> q <> p ->
                     is_valid_move b row col q = false).
  { intros q row col Hq Hqp.
    destruct (is_valid_move b row col q) eqn:E; [|reflexivity].
    apply is_valid_move_iff in E as (Hb & _ & d & Hd & Hf).
    apply can_flip_in_direction_spec in Hf as [k Hk]; auto.
    destruct Hk as (Hk1 & Hpre & _).
    destruct (Hpre 1%nat ltac:(lia)) as (Hin & Hne & Hnq).
    pose proof (Hnone _ _ Hin) as Hnp. unfold cell_at in *.
    pose proof (getitem_cell_ok b (row + Z.of_nat 1 * fst d)
                  (col + Z.of_nat 1 * snd d) Hc) as Hok.
    unfold cell_ok in Hok. rewrite !orb_true_iff, !Z.eqb_eq in Hok.
    exfalso. destruct p, q; cbn [value] in *; try congruence;
      destruct Hok as [[Hx|Hx]|Hx]; contradiction. }
  assert (HB : get_valid_moves b BLACK = []).
  { apply get_valid_moves_nil. intros row col.
    destruct p; [apply Hmine|apply Hother; discriminate|congruence]. }
  assert (HW : get_valid_moves b WHITE = []).
  { apply get_valid_moves_nil. intros row col.
    destruct p; [apply Hother; discriminate|apply Hmine|congruence]. }
  split; [exact HB|]. split; [exact HW|].
  unfold is_game_over. now rewrite HB, HW.
Qed.

Lemma wiped_out_is_game_over_witness :
  well_formed full_black4 = true /\ is_game_over full_black4 = true.
Proof.
  split; [reflexivity|].
  refine (proj2 (proj2 (wiped_out_is_game_over full_black4 WHITE eq_refl _ _))).
  - discriminate.
  - intros row col Hin. apply in_bounds_iff in Hin. cbn [size full_black4] in Hin.
    assert (Hr : row = 0 \/ row = 1 \/ row = 2 \/ row = 3) by lia.
    assert (Hcc : col = 0 \/ col = 1 \/ col = 2 \/ col = 3) by lia.
    destruct Hr as [->|[->|[->| ->]]]; destruct Hcc as [->|[->|[->| ->]]];
      discriminate.
Defined.

(** ** What a move changes *)

Lemma rays_disjoint (row col : Z) (d d' : Z * Z) (i i' : nat) :
  In d directions -> In d' directions -> (1 <= i)%nat -> (1 <= i')%nat ->
  row + Z.of_nat i * fst d = row + Z.of_nat i' * fst d' ->
  col + Z.of_nat i * snd d = col + Z.of_nat i' * snd d' ->
  d = d'.
Proof.
  unfold directions. cbn [In]. intros Hd Hd' Hi Hi' Hr Hc.
  repeat (destruct Hd as [<-|Hd]); try contradiction;
    repeat (destruct Hd' as [<-|Hd']); try contradiction;
    cbn [fst snd] in *; try reflexivity; exfalso; lia.
Qed.

Lemma flip_line_unique (b : OthelloBoard) (row col dr dc : Z) (p : Player)
    (k k' : nat) :
  flip_line b row col dr dc p k -> flip_line b row col dr dc p k' -> k = k'.
Proof.
  intros (Hk & Hpre & _ & Hc & _) (Hk' & Hpre' & _ & Hc' & _).
  destruct (Nat.lt_trichotomy k k') as [Hlt|[Heq|Hgt]]; [|exact Heq|].
  - destruct (Hpre' (S k) ltac:(lia)) as (_ & _ & Hne). contradiction.
  - destruct (Hpre (S k') ltac:(lia)) as (_ & _ & Hne). contradiction.
Qed.

Lemma flip_line_transfer (b1 b2 : OthelloBoard) (row col dr dc : Z) (p : Player)
    (k : nat) :
  size b1 = size b2 ->
  (forall i, (1 <= i)%nat -> inside_at b1 row col dr dc i ->
             cell_at b2 row col dr dc i = cell_at b1 row col dr dc i) ->
  flip_line b1 row col dr dc p k -> flip_line b2 row col dr dc p k.
Proof.
  intros Hs Hag (Hk & Hpre & Hin & Hc & Hp).
  assert (Hins : forall i, inside_at b1 row col dr dc i ->
                           inside_at b2 row col dr dc i).
  { intros i. unfold inside_at, in_bounds. now rewrite Hs. }
  split; [exact Hk|]. split.
  { intros i Hi. destruct (Hpre i Hi) as (Ha & Hb & Hcc).
    rewrite (Hag i) by (auto; lia). split; [now apply Hins|now split]. }
  split; [now apply Hins|]. split; [|exact Hp].
  rewrite (Hag (S k)) by (auto; lia). exact Hc.
Qed.

Section FlipEffect.
Variables (dr dc : Z) (p : Player).

Lemma on_ray_dec (r c r' c' : Z) (j : nat) :
  (exists i, (i < j)%nat /\ r' = r + Z.of_nat i * dr /\ c' = c + Z.of_nat i * dc) \/
  (forall i, (i < j)%nat -> ~ (r' = r + Z.of_nat i * dr /\ c' = c + Z.of_nat i * dc)).
Proof.
  induction j as [|j IH].
  - right. intros i Hi. lia.
  - destruct IH as [(i & Hi & H)|IH]; [left; exists i; split; [lia|exact H]|].
    destruct (Z.eq_dec r' (r + Z.of_nat j * dr)) as [E1|N1].
    + destruct (Z.eq_dec c' (c + Z.of_nat j * dc)) as [E2|N2].
      * left. exists j. split; [lia|now split].
      * right. intros i Hi [H1 H2].
        destruct (Nat.eq_dec i j) as [->|Hne]; [contradiction|].
        apply (IH i ltac:(lia)). now split.
    + right. intros i Hi [H1 H2].
      destruct (Nat.eq_dec i j) as [->|Hne]; [contradiction|].
      apply (IH i ltac:(lia)). now split.
Qed.

Hypothesis Hdir : dr <> 0 \/ dc <> 0.

(** The flip walk, started where the legality walk accepts with the piece
    of [p] found [j] steps ahead: the [j] cells before it now hold [p], and
    no other cell has changed. *)
Lemma flip_loop_cells (fuel : nat) :
  forall (b : OthelloBoard) (r c : Z) (j : nat),
    well_shaped b = true ->
    (j < fuel)%nat ->
    (forall i, (i < j)%nat ->
       inside_at b r c dr dc i /\ cell_at b r c dr dc i <> value p) ->
    inside_at b r c dr dc j ->
    cell_at b r c dr dc j = value p ->
    (forall i, (i < j)%nat ->
       getitem (board (flip_loop fuel b r c dr dc p))
               (r + Z.of_nat i * dr) (c + Z.of_nat i * dc) = value p) /\
    (forall r' c', 0 <= r' -> 0 <= c' ->
       (forall i, (i < j)%nat ->
          ~ (r' = r + Z.of_nat i * dr /\ c' = c + Z.of_nat i * dc)) ->
       getitem (board (flip_loop fuel b r c dr dc p)) r' c'
       = getitem (board b) r' c').
Proof.
  induction fuel as [|k IH]; intros b r c j Hw Hj Hpre Hin Hcell; [lia|].
  cbn [flip_loop]. destruct j as [|j].
  - apply -> inside_at_0 in Hin. rewrite cell_at_0 in Hcell.
    rewrite Hin, Hcell, Z.eqb_refl.
    split; [intros i Hi; lia|reflexivity].
  - destruct (Hpre O ltac:(lia)) as [H0 H0c].
    apply -> inside_at_0 in H0. rewrite cell_at_0 in H0c.
    rewrite H0. apply Z.eqb_neq in H0c. rewrite H0c.
    pose proof H0 as H0'. apply in_bounds_iff in H0' as [Hr Hc].
    set (b1 := set_cell b r c (value p)).
    assert (Hother : forall i, getitem (board b1) (r + dr + Z.of_nat i * dr)
                                      (c + dc + Z.of_nat i * dc)
                             = getitem (board b) (r + dr + Z.of_nat i * dr)
                                       (c + dc + Z.of_nat i * dc) \/
                               ~ (0 <= r + dr + Z.of_nat i * dr /\
                                  0 <= c + dc + Z.of_nat i * dc)).
    { intros i.
      destruct (Z_le_dec 0 (r + dr + Z.of_nat i * dr)) as [Ha|Ha]; [|right; tauto].
      destruct (Z_le_dec 0 (c + dc + Z.of_nat i * dc)) as [Hb|Hb]; [|right; tauto].
      left. unfold b1. cbn [set_cell board].
      apply getitem_setitem_other; try lia. apply ray_misses_origin. exact Hdir. }
    assert (Hins : forall i, inside_at b r c dr dc (S i) ->
                             inside_at b1 (r + dr) (c + dc) dr dc i).
    { intros i H. apply <- inside_at_S. exact H. }
    assert (Hcells : forall i, inside_at b r c dr dc (S i) ->
                               cell_at b1 (r + dr) (c + dc) dr dc i
                               = cell_at b r c dr dc (S i)).
    { intros i H. rewrite <- cell_at_S. unfold cell_at.
      destruct (Hother i) as [E|N]; [exact E|].
      exfalso. apply N. apply <- inside_at_S in H. unfold inside_at in H.
      apply in_bounds_iff in H. lia. }
    destruct (IH b1 (r + dr) (c + dc) j
                (set_cell_well_shaped b r c (value p) Hw) ltac:(lia)) as [I1 I2].
    { intros i Hi. destruct (Hpre (S i) ltac:(lia)) as [Ha Hb].
      split; [now apply Hins|]. now rewrite Hcells. }
    { now apply Hins. }
    { now rewrite Hcells. }
    split.
    + intros [|i] Hi.
      * replace (r + Z.of_nat 0 * dr) with r by lia.
        replace (c + Z.of_nat 0 * dc) with c by lia.
        rewrite I2; [unfold b1; now apply getitem_set_cell_same|lia|lia|].
        intros i Hi' [E1 E2].
        apply (ray_misses_origin dr dc Hdir r c i). now rewrite <- E1, <- E2.
      * replace (r + Z.of_nat (S i) * dr) with (r + dr + Z.of_nat i * dr) by lia.
        replace (c + Z.of_nat (S i) * dc) with (c + dc + Z.of_nat i * dc) by lia.
        apply I1. lia.
    + intros r' c' Hr' Hc' Hoff.
      rewrite I2; [|exact Hr'|exact Hc'|].
      * unfold b1. cbn [set_cell board]. apply getitem_setitem_other; try lia.
        intros E. injection E as -> ->. apply (Hoff O ltac:(lia)). split; lia.
      * intros i Hi [E1 E2]. apply (Hoff (S i) ltac:(lia)). split; lia.
Qed.
End FlipEffect.

Lemma ray_not_origin (row col : Z) (d : Z * Z) (i : nat) :
  In d directions -> (1 <= i)%nat ->
  ~ (row + Z.of_nat i * fst d = row /\ col + Z.of_nat i * snd d = col).
Proof.
  unfold directions. cbn [In]. intros Hd Hi [Hr Hc].
  repeat (destruct Hd as [<-|Hd]); try contradiction; cbn [fst snd] in *; lia.
Qed.

Lemma NoDup_directions : NoDup directions.
Proof.
  unfold directions.
  repeat (constructor; [cbn [In]; intros H;
    repeat (destruct H as [H|H]; [discriminate H|]); exact H|]).
  constructor.
Qed.

Section MoveEffect.
Variables (b : OthelloBoard) (row col : Z) (p : Player).
Hypothesis Hin : in_bounds b row col = true.

Lemma flip_step_inv (done : list (Z * Z)) (d : Z * Z) (bc : OthelloBoard) :
  In d directions -> ~ In d done ->
  (forall x, In x done -> In x directions) ->
  move_inv b row col p done bc ->
  move_inv b row col p (d :: done) (flip_step row col p bc d).
Proof.
  intros Hd Hnew Hdone (Hwc & Hsz & Hcells).
  assert (Hray : forall i, (1 <= i)%nat -> inside_at b row col (fst d) (snd d) i ->
            cell_at bc row col (fst d) (snd d) i = cell_at b row col (fst d) (snd d) i).
  { intros i Hi Hins. unfold cell_at. apply (Hcells _ _ Hins).
    - now apply ray_not_origin.
    - intros (d0 & k0 & i0 & Hd0 & _ & Hi0 & Er & Ec).
      apply Hnew. rewrite (rays_disjoint row col d d0 i i0); auto; lia. }
  assert (Hins_eq : forall i, inside_at bc row col (fst d) (snd d) i <->
                              inside_at b row col (fst d) (snd d) i).
  { intros i. unfold inside_at, in_bounds. now rewrite Hsz. }
  assert (Hto : forall k, flip_line b row col (fst d) (snd d) p k ->
                          flip_line bc row col (fst d) (snd d) p k).
  { intros k. apply flip_line_transfer; [now rewrite Hsz|exact Hray]. }
  assert (Hfrom : forall k, flip_line bc row col (fst d) (snd d) p k ->
                            flip_line b row col (fst d) (snd d) p k).
  { intros k. apply flip_line_transfer; [exact Hsz|].
    intros i Hi Hins. symmetry. apply Hray; [exact Hi|now apply Hins_eq]. }
  assert (Hinc : in_bounds bc row col = true).
  { unfold in_bounds in *. now rewrite Hsz. }
  unfold flip_step.
  destruct (_can_flip_in_direction bc row col (fst d) (snd d) p) eqn:E.
  - pose proof E as E'. unfold _can_flip_in_direction in E'.
    apply can_flip_loop_spec in E' as (j & Hj & Hpre & Hinj & Hcj & Hv & Hf).
    assert (Hj1 : (1 <= j)%nat) by (destruct Hf as [Hf|Hf]; [discriminate|exact Hf]).
    destruct (flip_loop_cells (fst d) (snd d) p (directions_nonzero d Hd)
                (Z.to_nat (size bc)) bc (row + fst d) (col + snd d) j Hwc Hj)
      as [I1 I2]; auto.
    { intros i Hi. destruct (Hpre i Hi) as (Ha & _ & Hc). now split. }
    assert (Hline : flip_line b row col (fst d) (snd d) p j).
    { apply Hfrom. split; [exact Hj1|]. split.
      { intros [|i] Hi; [lia|].
        destruct (Hpre i ltac:(lia)) as (Ha & Hb & Hc).
        rewrite <- cell_at_S. split; [now apply -> inside_at_S|now split]. }
      split; [now apply -> inside_at_S|].
      split; [now rewrite <- cell_at_S|].
      intros ->. now apply Hv. }
    unfold _flip_pieces_in_direction.
    split; [now apply flip_loop_well_shaped|].
    split; [now rewrite flip_loop_size|].
    intros r c Hrc. pose proof Hrc as Hrc'. apply in_bounds_iff in Hrc' as [Hr0 Hc0].
    destruct (Hcells r c Hrc) as [Hset Hkeep]. split.
    + intros [Ho|(d0 & k0 & i0 & [<-|Hd0] & Hk0 & Hi0 & Er & Ec)].
      * rewrite I2; [apply Hset; now left|lia|lia|].
        intros i Hi [E1 E2]. destruct Ho as [-> ->].
        apply (ray_not_origin row col d (S i) Hd ltac:(lia)). split; lia.
      * rewrite (flip_line_unique _ _ _ _ _ _ _ _ Hk0 Hline) in Hi0.
        destruct i0 as [|i0]; [lia|]. subst r c.
        replace (row + Z.of_nat (S i0) * fst d)
          with (row + fst d + Z.of_nat i0 * fst d) by lia.
        replace (col + Z.of_nat (S i0) * snd d)
          with (col + snd d + Z.of_nat i0 * snd d) by lia.
        apply I1. lia.
      * assert (Hvp : getitem (board bc) r c = value p).
        { apply Hset. right. now exists d0, k0, i0. }
        destruct (on_ray_dec (fst d) (snd d) (row + fst d) (col + snd d) r c j)
          as [(i & Hi & -> & ->)|Hoff].
        -- now apply I1.
        -- rewrite I2; auto; lia.
    + intros Hno Hnf.
      rewrite I2; [|lia|lia|].
      * apply Hkeep; [exact Hno|].
        intros (d0 & k0 & i0 & Hd0 & H). apply Hnf.
        exists d0, k0, i0. split; [now right|exact H].
      * intros i Hi [E1 E2]. apply Hnf.
        exists d, j, (S i). split; [now left|]. split; [exact Hline|].
        split; [lia|]. split; lia.
  - split; [exact Hwc|]. split; [exact Hsz|].
    intros r c Hrc. destruct (Hcells r c Hrc) as [Hset Hkeep]. split.
    + intros [Ho|(d0 & k0 & i0 & [<-|Hd0] & Hk0 & Hi0 & Er & Ec)].
      * apply Hset. now left.
      * exfalso.
        assert (Ht : _can_flip_in_direction bc row col (fst d) (snd d) p = true).
        { apply can_flip_in_direction_spec; auto. exists k0. now apply Hto. }
        congruence.
      * apply Hset. right. now exists d0, k0, i0.
    + intros Hno Hnf. apply Hkeep; [exact Hno|].
      intros (d0 & k0 & i0 & Hd0 & H). apply Hnf.
      exists d0, k0, i0. split; [now right|exact H].
Qed.

Lemma fold_flip_inv (todo : list (Z * Z)) :
  forall (done : list (Z * Z)) (bc : OthelloBoard),
    (forall x, In x todo -> In x directions) ->
    (forall x, In x done -> In x directions) ->
    NoDup todo -> (forall x, In x todo -> ~ In x done) ->
    move_inv b row col p done bc ->
    move_inv b row col p (rev todo ++ done)
             (fold_left (flip_step row col p) todo bc).
Proof.
  induction todo as [|d rest IH]; intros done bc Ht Hd Hnd Hfresh Hinv;
    cbn [fold_left rev app]; [exact Hinv|].
  inversion Hnd as [|? ? Hnotin Hnd']; subst.
  rewrite <- app_assoc. cbn [app].
  apply IH; auto.
  - intros x Hx. apply Ht. now right.
  - intros x [<-|Hx]; [apply Ht; now left|now apply Hd].
  - intros x Hx [<-|Hx']; [contradiction|].
    apply (Hfresh x); [now right|exact Hx'].
  - apply flip_step_inv; auto.
    + apply Ht. now left.
    + apply Hfresh. now left.
Qed.
End MoveEffect.

(** X8.  A legal move changes exactly the cell played and the cells
    strictly inside the flip lines of the eight directions: they all hold
    the mover's value afterwards, and every other cell is as before. *)
Theorem make_move_changes_exactly (b : OthelloBoard) (row col : Z) (p : Player) :
  well_shaped b = true ->
  is_valid_move b row col p = true ->
  forall r c, in_bounds b r c = true ->
    (((r = row /\ c = col) \/ flipped_in b row col p directions r c) ->
       getitem (board (snd (make_move b row col p))) r c = value p) /\
    (~ (r = row /\ c = col) -> ~ flipped_in b row col p directions r c ->
       getitem (board (snd (make_move b row col p))) r c = getitem (board b) r c).
Proof.
  intros Hw Hv. pose proof Hv as Hv'.
  apply is_valid_move_iff in Hv' as (Hin & Hget & _).
  unfold make_move. rewrite Hv. cbn [negb snd].
  assert (H0 : move_inv b row col p [] (set_cell b row col (value p))).
  { split; [now apply set_cell_well_shaped|]. split; [reflexivity|].
    intros r c Hrc. pose proof Hrc as Hrc'. apply in_bounds_iff in Hrc' as [Hr Hc].
    pose proof Hin as Hin'. apply in_bounds_iff in Hin' as [Hr0 Hc0]. split.
    - intros [[-> ->]|(d & k & i & [] & _)]. now apply getitem_set_cell_same.
    - intros Hno _. cbn [set_cell board]. apply getitem_setitem_other; try lia.
      intros E. injection E as -> ->. now apply Hno. }
  pose proof (fold_flip_inv b row col p Hin directions [] _
                (fun x H => H) (fun x H => match H with end)
                NoDup_directions (fun x _ H => H) H0) as (_ & _ & Hcells).
  rewrite app_nil_r in Hcells.
  intros r c Hrc. destruct (Hcells r c Hrc) as [Hset Hkeep]. split.
  - intros [Ho|(d & k & i & Hd & H)]; apply Hset; [now left|].
    right. exists d, k, i. split; [now apply -> in_rev|exact H].
  - intros Hno Hnf. apply Hkeep; [exact Hno|].
    intros (d & k & i & Hd & H). apply Hnf.
    exists d, k, i. split; [now apply in_rev|exact H].
Qed.

Lemma make_move_changes_exactly_witness :
  well_shaped initial8 = true /\
  is_valid_move initial8 2 3 BLACK = true /\
  getitem (board (snd (make_move initial8 2 3 BLACK))) 2 3 = value BLACK.
Proof.
  split; [reflexivity|]. split; [reflexivity|].
  apply (make_move_changes_exactly initial8 2 3 BLACK eq_refl eq_refl 2 3 eq_refl).
  left. now split.
Defined.

(** ** Construction *)

Lemma np_index_inside (n i : Z) : 0 <= i < n -> np_index n i = Some i.
Proof.
  intros H. unfold np_index.
  assert ((0 <=? i) && (i <? n) = true) as ->
    by (apply andb_true_iff; split; [apply Z.leb_le|apply Z.ltb_lt]; lia).
  reflexivity.
Qed.

Lemma np_set_cell_inside (b : OthelloBoard) (r c v : Z) :
  well_shaped b = true -> in_bounds b r c = true ->
  np_set_cell b r c v = Some (set_cell b r c v).
Proof.
  intros Hw Hin. apply in_bounds_iff in Hin as [Hr Hc].
  pose proof (row_length b r Hw Hr) as Hlen.
  apply well_shaped_iff in Hw as (H0 & H1 & _).
  unfold np_set_cell. rewrite (np_index_inside _ r) by lia. cbn [bind].
  rewrite (np_index_inside _ c) by lia. reflexivity.
Qed.

Lemma count_if_zeros (f : Z -> bool) (n m : nat) :
  f 0 = false -> count_if f (repeat (repeat 0 n) m) = 0.
Proof.
  intros Hf.
  assert (Hrow : count_row f (repeat 0 n) = 0).
  { unfold count_row. induction n as [|k IHk]; cbn [repeat filter]; [reflexivity|].
    now rewrite Hf. }
  unfold count_if.
  induction m as [|m IH]; cbn [repeat fold_right]; [reflexivity|].
  rewrite IH, Hrow. reflexivity.
Qed.

Lemma getitem_zeros (n m : nat) (r c : Z) :
  getitem (repeat (repeat 0 n) m) r c = 0.
Proof.
  unfold getitem.
  assert (H : forall k, nth k (repeat (repeat 0 n) m) [] = repeat 0 n \/
                        nth k (repeat (repeat 0 n) m) [] = []).
  { intros k. destruct (Nat.lt_ge_cases k m) as [Hlt|Hge].
    - left. apply nth_repeat_lt. exact Hlt.
    - right. apply nth_overflow. now rewrite repeat_length. }
  destruct (H (Z.to_nat r)) as [-> | ->].
  - destruct (Nat.lt_ge_cases (Z.to_nat c) n) as [Hlt|Hge].
    + now apply nth_repeat_lt.
    + apply nth_overflow. now rewrite repeat_length.
  - now destruct (Z.to_nat c).
Qed.

Lemma zero_board_well_shaped (n : Z) : 0 <= n -> well_shaped (zero_board n) = true.
Proof.
  intros Hn. pose proof (np_zeros_well_formed n (board (zero_board n))) as H.
  unfold np_zeros in H.
  assert ((n <? 0) = false) as E by (apply Z.ltb_ge; lia).
  rewrite E in H. specialize (H eq_refl).
  unfold well_formed in H. now apply andb_true_iff in H as [H _].
Qed.

Lemma getitem_set_cell (b : OthelloBoard) (r0 c0 v r c : Z) :
  well_shaped b = true -> in_bounds b r0 c0 = true -> 0 <= r -> 0 <= c ->
  getitem (board (set_cell b r0 c0 v)) r c
  = if (r =? r0) && (c =? c0) then v else getitem (board b) r c.
Proof.
  intros Hw Hin Hr Hc.
  destruct (Z.eqb_spec r r0) as [->|Nr]; [destruct (Z.eqb_spec c c0) as [->|Nc]|];
    cbn [andb].
  - now apply getitem_set_cell_same.
  - apply in_bounds_iff in Hin. cbn [set_cell board].
    apply getitem_setitem_other; try lia. intros E. injection E as E. contradiction.
  - apply in_bounds_iff in Hin. cbn [set_cell board].
    apply getitem_setitem_other; try lia. intros E. injection E as E _. contradiction.
Qed.

Lemma OthelloBoard_init_eq (n : Z) :
  2 <= n ->
  OthelloBoard_init n
  = Some (set_cell (set_cell (set_cell (set_cell (zero_board n)
            (n / 2 - 1) (n / 2 - 1) (value WHITE))
            (n / 2 - 1) (n / 2) (value BLACK))
            (n / 2) (n / 2 - 1) (value BLACK))
            (n / 2) (n / 2) (value WHITE)).
Proof.
  intros Hn. unfold OthelloBoard_init, np_zeros.
  assert ((n <? 0) = false) as -> by (apply Z.ltb_ge; lia).
  cbn [bind ret]. unfold _setup_initial_position. cbn [size].
  assert (Hc : 1 <= n / 2 < n).
  { split; [apply Z.div_le_lower_bound; lia|apply Z.div_lt_upper_bound; lia]. }
  fold (zero_board n).
  pose proof (zero_board_well_shaped n ltac:(lia)) as Hw0.
  assert (Hin : forall b r c, size b = n -> 0 <= r < n -> 0 <= c < n ->
                              in_bounds b r c = true).
  { intros b r c Hs Hr Hcc. apply in_bounds_iff. rewrite Hs. lia. }
  rewrite (np_set_cell_inside (zero_board n));
    [|exact Hw0|apply Hin; [reflexivity|lia|lia]].
  cbn [bind].
  rewrite np_set_cell_inside;
    [|now apply set_cell_well_shaped|apply Hin; [reflexivity|lia|lia]].
  cbn [bind].
  rewrite np_set_cell_inside;
    [|now repeat apply set_cell_well_shaped|apply Hin; [reflexivity|lia|lia]].
  cbn [bind].
  rewrite np_set_cell_inside;
    [|now repeat apply set_cell_well_shaped|apply Hin; [reflexivity|lia|lia]].
  reflexivity.
Qed.

(** X9.  [OthelloBoard(n)] raises for every [n] that is 0 or negative:
    [np.zeros] refuses a negative size, and on the empty array of size 0
    the first store of [_setup_initial_position], at index -1, is out of
    range. *)
Theorem OthelloBoard_init_raises_nonpositive (n : Z) :
  n <= 0 -> OthelloBoard_init n = None.
Proof.
  intros Hn. unfold OthelloBoard_init, np_zeros.
  destruct (n <? 0) eqn:E; [reflexivity|]. apply Z.ltb_ge in E.
  assert (n = 0) as -> by lia. vm_compute. reflexivity.
Qed.

Lemma OthelloBoard_init_raises_nonpositive_witness :
  OthelloBoard_init 0 = None /\ OthelloBoard_init (-3) = None.
Proof.
  split; apply OthelloBoard_init_raises_nonpositive; lia.
Defined.

(** X10.  For every size [n >= 2], a board that [OthelloBoard(n)] returns
    is a well-formed board of size [n] whose cells are the four central
    pieces (White on the main diagonal, Black on the other) and nothing
    else; its score is 2 to 2. *)
Theorem OthelloBoard_init_layout (n : Z) (b : OthelloBoard) :
  2 <= n -> OthelloBoard_init n = Some b ->
  size b = n /\ well_formed b = true /\
  (forall r c, in_bounds b r c = true ->
               getitem (board b) r c = initial_cell n r c) /\
  get_score b = (2, 2).
Proof.
  intros Hn Hb. rewrite (OthelloBoard_init_eq n Hn) in Hb.
  apply (f_equal (fun o => match o with Some x => x | None => b end)) in Hb.
  cbv beta iota in Hb. subst b.
  assert (Hc : 1 <= n / 2 < n).
  { split; [apply Z.div_le_lower_bound; lia|apply Z.div_lt_upper_bound; lia]. }
  set (k := n / 2) in *.
  pose proof (zero_board_well_shaped n ltac:(lia)) as Hw0.
  set (b1 := set_cell (zero_board n) (k - 1) (k - 1) (value WHITE)).
  set (b2 := set_cell b1 (k - 1) k (value BLACK)).
  set (b3 := set_cell b2 k (k - 1) (value BLACK)).
  set (b4 := set_cell b3 k k (value WHITE)).
  assert (Hw1 : well_shaped b1 = true) by now apply set_cell_well_shaped.
  assert (Hw2 : well_shaped b2 = true) by now apply set_cell_well_shaped.
  assert (Hw3 : well_shaped b3 = true) by now apply set_cell_well_shaped.
  assert (Hw4 : well_shaped b4 = true) by now apply set_cell_well_shaped.
  assert (Hin : forall b r c, size b = n -> 0 <= r < n -> 0 <= c < n ->
                              in_bounds b r c = true).
  { intros b r c Hs Hr Hcc. apply in_bounds_iff. rewrite Hs. lia. }
  assert (I1 : in_bounds (zero_board n) (k - 1) (k - 1) = true)
    by (apply Hin; [reflexivity|lia|lia]).
  assert (I2 : in_bounds b1 (k - 1) k = true) by (apply Hin; [reflexivity|lia|lia]).
  assert (I3 : in_bounds b2 k (k - 1) = true) by (apply Hin; [reflexivity|lia|lia]).
  assert (I4 : in_bounds b3 k k = true) by (apply Hin; [reflexivity|lia|lia]).
  assert (Hcell : forall r c, 0 <= r -> 0 <= c ->
                              getitem (board b4) r c = initial_cell n r c).
  { intros r c Hr Hcc. unfold b4, b3, b2, b1.
    rewrite !getitem_set_cell; auto.
    unfold zero_board. cbn [board]. rewrite getitem_zeros.
    unfold initial_cell. fold k.
    destruct (Z.eqb_spec r k), (Z.eqb_spec r (k - 1)),
             (Z.eqb_spec c k), (Z.eqb_spec c (k - 1));
      cbn [andb orb]; try reflexivity; lia. }
  split; [reflexivity|]. split.
  { unfold well_formed. rewrite Hw4. cbn [andb].
    unfold b4, b3, b2, b1.
    repeat (apply set_cell_cells_ok; [|reflexivity]).
    unfold cells_ok, zero_board. cbn [board].
    apply forallb_forall. intros row Hrow. apply repeat_spec in Hrow. subst row.
    apply forallb_forall. intros x Hx. apply repeat_spec in Hx. now subst x. }
  split.
  { intros r c Hrc. apply in_bounds_iff in Hrc. apply Hcell; lia. }
  assert (Hcount : forall f, f 0 = false ->
            count_if f (board b4)
            = b2z (f (value WHITE)) + b2z (f (value BLACK))
              + b2z (f (value BLACK)) + b2z (f (value WHITE))).
  { intros f Hf. unfold b4.
    rewrite (count_set_cell f b3 k k _ Hw3 I4).
    unfold b3 at 1. rewrite (count_set_cell f b2 k (k - 1) _ Hw2 I3).
    unfold b2 at 1. rewrite (count_set_cell f b1 (k - 1) k _ Hw1 I2).
    unfold b1 at 1. rewrite (count_set_cell f _ (k - 1) (k - 1) _ Hw0 I1).
    unfold zero_board at 1. cbn [board]. rewrite (count_if_zeros f _ _ Hf).
    assert (E3 : getitem (board b3) k k = 0).
    { unfold b3, b2, b1. rewrite !getitem_set_cell; auto; try lia.
      unfold zero_board. cbn [board]. rewrite getitem_zeros.
      destruct (Z.eqb_spec k k), (Z.eqb_spec k (k - 1));
        cbn [andb]; try reflexivity; lia. }
    assert (E2 : getitem (board b2) k (k - 1) = 0).
    { unfold b2, b1. rewrite !getitem_set_cell; auto; try lia.
      unfold zero_board. cbn [board]. rewrite getitem_zeros.
      destruct (Z.eqb_spec k (k - 1)), (Z.eqb_spec (k - 1) k),
               (Z.eqb_spec (k - 1) (k - 1));
        cbn [andb]; try reflexivity; lia. }
    assert (E1 : getitem (board b1) (k - 1) k = 0).
    { unfold b1. rewrite !getitem_set_cell; auto; try lia.
      unfold zero_board. cbn [board]. rewrite getitem_zeros.
      destruct (Z.eqb_spec k (k - 1)), (Z.eqb_spec (k - 1) (k - 1));
        cbn [andb]; try reflexivity; lia. }
    rewrite E3, E2, E1.
    unfold zero_board. cbn [board]. rewrite getitem_zeros, Hf. cbn [b2z]. lia. }
  unfold get_score, count_grid.
  rewrite !Hcount by reflexivity. reflexivity.
Qed.

Lemma OthelloBoard_init_layout_witness :
  exists b,
    OthelloBoard_init 6 = Some b /\ size b = 6 /\ well_formed b = true /\
    (forall r c, in_bounds b r c = true ->
                 getitem (board b) r c = initial_cell 6 r c) /\
    get_score b = (2, 2).
Proof.
  destruct (OthelloBoard_init 6) as [b|] eqn:E.
  - exists b. split; [reflexivity|].
    apply (OthelloBoard_init_layout 6 b); [lia|exact E].
  - exfalso. vm_compute in E. discriminate.
Defined.

(** ** The evaluator on any board *)

Lemma position_term_opposite (d1 d2 : nat) (b : OthelloBoard) (row col : Z) :
  position_term (OthelloCPU_init WHITE d2) b row col
  = (-1) * position_term (OthelloCPU_init BLACK d1) b row col.
Proof.
  unfold position_term.
  cbn [OthelloCPU_init player opponent position_values Player_eqb value].
  destruct (Z.eqb_spec (getitem (board b) row col) 1) as [E|N];
    destruct (Z.eqb_spec (getitem (board b) row col) (-1)) as [E'|N']; lia.
Qed.

(** X11.  On a board of size 8 or less (its array of shape (size, size))
    the evaluator never raises, and the scores of a Black CPU and of a
    White CPU are opposite, in the heuristic branch as in the terminal
    one. *)
Theorem evaluate_board_antisymmetric (d1 d2 : nat) (b : OthelloBoard) :
  well_shaped b = true -> size b <= 8 ->
  exists v,
    _evaluate_board (OthelloCPU_init BLACK d1) b = Some v /\
    _evaluate_board (OthelloCPU_init WHITE d2) b = Some (- v).
Proof.
  intros _ Hn. unfold _evaluate_board. destruct (is_game_over b).
  - unfold terminal_score, TERMINAL, ret.
    cbn [OthelloCPU_init player Player_eqb].
    destruct (get_score b) as [bl wh].
    destruct (Z.ltb_spec wh bl), (Z.ltb_spec bl wh); try (exfalso; lia);
      eexists; split; reflexivity.
  - unfold heuristic_score. destruct (get_score b) as [bl wh].
    rewrite (position_score_sum (OthelloCPU_init BLACK d1) b eq_refl Hn).
    rewrite (position_score_sum (OthelloCPU_init WHITE d2) b eq_refl Hn).
    cbn [bind ret OthelloCPU_init player opponent Player_eqb].
    unfold ret. eexists. split; [reflexivity|]. f_equal.
    rewrite (sum_cells_ext (position_term (OthelloCPU_init WHITE d2) b)
               (fun row col => (-1) * position_term (OthelloCPU_init BLACK d1) b row col))
      by (intros; apply position_term_opposite).
    rewrite sum_cells_scale. lia.
Qed.

Lemma evaluate_board_antisymmetric_witness :
  well_shaped initial8 = true /\ size initial8 <= 8 /\
  exists v,
    _evaluate_board (OthelloCPU_init BLACK 3) initial8 = Some v /\
    _evaluate_board (OthelloCPU_init WHITE 3) initial8 = Some (- v).
Proof.
  assert (H : size initial8 <= 8) by (cbn; lia).
  split; [reflexivity|].
  split; [exact H|]. exact (evaluate_board_antisymmetric 3 3 initial8 eq_refl H).
Defined.

Lemma foldM_None {A B : Type} (body : A -> B -> M A) (xs : list B) (x : B) :
  In x xs -> (forall a, body a x = None) -> forall acc, foldM body xs acc = None.
Proof.
  induction xs as [|y ys IH]; intros Hin Hx acc; [contradiction|].
  cbn [foldM]. destruct Hin as [->|Hin].
  - now rewrite Hx.
  - destruct (body acc y); cbn [bind]; [now apply IH|reflexivity].
Qed.

Lemma pv_get_outside (row col : Z) :
  0 <= row -> 0 <= col -> 8 <= row \/ 8 <= col ->
  pv_get POSITION_VALUES row col = None.
Proof.
  intros Hr Hc Hout. unfold pv_get.
  destruct (Z_lt_le_dec row 8) as [Hlt|Hge].
  - assert (Hr' : 0 <= row < 8) by lia. each_index Hr'; cbn [bind];
      apply nth_error_None; cbn [length]; lia.
  - assert (nth_error POSITION_VALUES (Z.to_nat row) = None) as ->
      by (apply nth_error_None; cbn [length POSITION_VALUES]; lia).
    reflexivity.
Qed.

(** X12.  With the game not over on a well-formed board,
    [_evaluate_board] raises exactly when some piece stands on a row or a
    column of index 8 or more. *)
Theorem evaluate_board_raises_iff (p : Player) (d : nat) (b : OthelloBoard) :
  well_formed b = true -> p <> EMPTY -> is_game_over b = false ->
  (_evaluate_board (OthelloCPU_init p d) b = None <->
   piece_outside_table b = true).
Proof.
  intros Hwf Hp Hover.
  unfold well_formed in Hwf. apply andb_true_iff in Hwf as [_ Hc].
  unfold _evaluate_board. rewrite Hover.
  set (cpu := OthelloCPU_init p d).
  assert (Hpos : position_score cpu b = None <-> piece_outside_table b = true).
  { destruct (piece_outside_table b) eqn:E.
    - split; [reflexivity|]. intros _.
      unfold piece_outside_table in E. apply existsb_exists in E as (row & Hrow & E).
      apply existsb_exists in E as (col & Hcol & E).
      apply andb_true_iff in E as [Hout Hne].
      apply orb_true_iff in Hout. rewrite !Z.leb_le in Hout.
      apply negb_true_iff, Z.eqb_neq in Hne.
      apply in_range in Hrow as Hr. apply in_range in Hcol as Hcc.
      unfold position_score. apply (foldM_None _ _ row Hrow). intros a.
      unfold position_row. apply (foldM_None _ _ col Hcol). intros a'.
      unfold position_cell.
      cbn [cpu OthelloCPU_init position_values].
      rewrite (pv_get_outside row col) by lia. cbn [bind].
      pose proof (getitem_cell_ok b row col Hc) as Hx. unfold cell_ok in Hx.
      rewrite !orb_true_iff, !Z.eqb_eq in Hx.
      destruct p; [| |congruence];
        cbn [player opponent Player_eqb value] in *;
        destruct Hx as [[Hx|Hx]|Hx]; rewrite Hx in *; try contradiction;
        reflexivity.
    - split; [|discriminate]. intros Hnone. exfalso.
      assert (Hsome : position_score cpu b
                      = Some (sum_cells (position_term cpu b) (size b))).
      { unfold position_score, sum_cells.
        rewrite (foldM_sum (fun row => sum_over (position_term cpu b row)
                                                (range (size b)))); [f_equal|].
        intros a row Hrow. unfold position_row.
        apply foldM_sum. intros a' col Hcol.
        assert (Hgood : ((8 <=? row) || (8 <=? col))
                        && negb (getitem (board b) row col =? 0) = false).
        { unfold piece_outside_table in E.
          destruct (((8 <=? row) || (8 <=? col))
                    && negb (getitem (board b) row col =? 0)) eqn:G; [|reflexivity].
          rewrite <- E. symmetry. apply existsb_exists. exists row.
          split; [exact Hrow|]. apply existsb_exists. exists col. now split. }
        apply in_range in Hrow. apply in_range in Hcol.
        apply andb_false_iff in Hgood as [Hin|Hzero].
        - apply orb_false_iff in Hin as [H1 H2]. apply Z.leb_gt in H1, H2.
          apply position_cell_term; [reflexivity|lia|lia].
        - apply negb_false_iff, Z.eqb_eq in Hzero.
          unfold position_cell, position_term. rewrite Hzero.
          destruct p; [| |congruence];
            cbn [cpu OthelloCPU_init player opponent Player_eqb value Z.eqb];
            unfold ret; f_equal; lia. }
      congruence. }
  unfold heuristic_score. destruct (get_score b) as [bl wh].
  rewrite <- Hpos. destruct (position_score cpu b); cbn [bind ret];
    split; intros H; try discriminate; reflexivity.
Qed.

Lemma evaluate_board_raises_iff_witness :
  well_formed board10 = true /\ is_game_over board10 = false /\
  (_evaluate_board (OthelloCPU_init BLACK 3) board10 = None <->
   piece_outside_table board10 = true).
Proof.
  assert (Hc : well_formed board10 = true) by (vm_compute; reflexivity).
  assert (Ho : is_game_over board10 = false) by (vm_compute; reflexivity).
  split; [exact Hc|]. split; [exact Ho|].
  apply (evaluate_board_raises_iff BLACK 3 board10 Hc); [discriminate|exact Ho].
Defined.

(** ** What [get_move] returns *)

Lemma get_move_In (rnd : nat) (cpu : OthelloCPU) (b : OthelloBoard) (m : Z * Z) :
  get_move rnd cpu b = Some (Some m) -> In m (get_valid_moves b (player cpu)).
Proof.
  intros Hm. unfold get_move in Hm.
  destruct (get_valid_moves b (player cpu)) as [|mv0 rest] eqn:Hvm; [discriminate|].
  destruct (Nat.eqb (difficulty cpu) 1).
  { unfold _get_random_move in Hm.
    destruct (nth_error _ _) as [m'|] eqn:E; [|discriminate].
    cbn [bind] in Hm. unfold ret in Hm. injection Hm as ->.
    now apply nth_error_In in E. }
  destruct (Nat.eqb (difficulty cpu) 2).
  { unfold _get_greedy_move in Hm. cbn [nth_error bind] in Hm.
    destruct (greedy_loop cpu b (mv0 :: rest) mv0 (-1)) as [m'|] eqn:E;
      [|discriminate].
    cbn [bind] in Hm. unfold ret in Hm. injection Hm as ->.
    destruct (greedy_loop_spec _ _ _ _ _ _ E) as [[-> _]|[Hin _]];
      [now left|exact Hin]. }
  unfold _get_minimax_move in Hm. cbn [nth_error bind] in Hm.
  destruct (root_loop _ cpu b (mv0 :: rest) mv0 NegInf) as [m'|] eqn:E;
    [|discriminate].
  cbn [bind] in Hm. unfold ret in Hm. injection Hm as ->.
  destruct (root_loop_spec _ _ _ _ _ _ _ E) as [[-> _]|[Hin _]];
    [now left|exact Hin].
Qed.

Lemma get_move_no_move_iff (rnd : nat) (cpu : OthelloCPU) (b : OthelloBoard) :
  get_move rnd cpu b = Some None <-> get_valid_moves b (player cpu) = [].
Proof.
  unfold get_move.
  destruct (get_valid_moves b (player cpu)) as [|mv0 rest]; [now split|].
  split; [|discriminate]. intros H. exfalso.
  destruct (Nat.eqb (difficulty cpu) 1);
    [|destruct (Nat.eqb (difficulty cpu) 2)];
    match type of H with
    | bind ?x _ = _ => destruct x; cbn [bind] in H; discriminate
    end.
Qed.

(** X13.  Whatever the level (1 or more), on a board whose array has shape
    (size, size), a move returned by [get_move] is a valid move of the
    CPU's colour on that board, and the answer is "no move" exactly when
    that colour has no valid move. *)
Theorem get_move_returns_valid_move (rnd : nat) (cpu : OthelloCPU) (b : OthelloBoard) :
  well_shaped b = true -> (1 <= difficulty cpu)%nat ->
  (forall m, get_move rnd cpu b = Some (Some m) ->
             is_valid_move b (fst m) (snd m) (player cpu) = true) /\
  (get_move rnd cpu b = Some None <-> get_valid_moves b (player cpu) = []).
Proof.
  intros _ _. split; [|apply get_move_no_move_iff].
  intros m Hm. apply get_valid_moves_In. now apply get_move_In in Hm.
Qed.

Lemma get_move_returns_valid_move_witness :
  well_shaped greedy_board = true /\
  (1 <= difficulty (OthelloCPU_init WHITE 2))%nat /\
  is_valid_move greedy_board 3 4 WHITE = true.
Proof.
  assert (Hd : (1 <= difficulty (OthelloCPU_init WHITE 2))%nat) by (cbn; lia).
  split; [reflexivity|]. split; [exact Hd|].
  apply (proj1 (get_move_returns_valid_move 0 (OthelloCPU_init WHITE 2)
                  greedy_board eq_refl Hd) (3, 4)).
  vm_compute. reflexivity.
Defined.

(** X14.  At difficulty 1, with a legal move available on a board whose
    array has shape (size, size), [get_move] never raises, every legal move
    is returned by some draw, and nothing but legal moves is returned. *)
Theorem random_level_draws_legal_moves (cpu : OthelloCPU) (b : OthelloBoard) :
  well_shaped b = true ->
  difficulty cpu = 1%nat ->
  get_valid_moves b (player cpu) <> [] ->
  (forall rnd, exists m, get_move rnd cpu b = Some (Some m) /\
                         In m (get_valid_moves b (player cpu))) /\
  (forall m, In m (get_valid_moves b (player cpu)) ->
             exists rnd, get_move rnd cpu b = Some (Some m)).
Proof.
  intros _ Hd Hne. unfold get_move. rewrite Hd. cbn [Nat.eqb].
  destruct (get_valid_moves b (player cpu)) as [|mv0 rest] eqn:Hvm; [congruence|].
  unfold _get_random_move. split.
  - intros rnd.
    destruct (nth_error (mv0 :: rest) (rnd mod length (mv0 :: rest))) as [m|] eqn:E.
    + exists m. split; [reflexivity|]. now apply nth_error_In in E.
    + apply nth_error_None in E.
      pose proof (Nat.mod_upper_bound rnd (length (mv0 :: rest))) as Hb.
      cbn [length] in *. lia.
  - intros m Hin. apply In_nth_error in Hin as [k Hk].
    exists k. rewrite Nat.mod_small; [now rewrite Hk|].
    apply nth_error_Some. congruence.
Qed.

Lemma random_level_draws_legal_moves_witness :
  well_shaped initial8 = true /\
  difficulty (OthelloCPU_init BLACK 1) = 1%nat /\
  exists rnd, get_move rnd (OthelloCPU_init BLACK 1) initial8 = Some (Some (4, 5)).
Proof.
  split; [reflexivity|]. split; [reflexivity|].
  apply (proj2 (random_level_draws_legal_moves (OthelloCPU_init BLACK 1) initial8
                  eq_refl eq_refl ltac:(discriminate)) (4, 5)).
  vm_compute. tauto.
Defined.

Lemma greedy_move_best_when_nonnegative_witness :
  well_shaped initial8 = true /\
  difficulty (OthelloCPU_init BLACK 2) = 2%nat /\
  exists sm,
    _evaluate_board (OthelloCPU_init BLACK 2)
                    (apply_move initial8 (2, 3) BLACK) = Some sm /\
    forall mv s, In mv (get_valid_moves initial8 BLACK) ->
      _evaluate_board (OthelloCPU_init BLACK 2) (apply_move initial8 mv BLACK) = Some s ->
      s <= sm.
Proof.
  split; [reflexivity|]. split; [reflexivity|].
  apply (greedy_move_best_when_nonnegative 0 (OthelloCPU_init BLACK 2) initial8
           (2, 3) (2, 3) 27).
  - reflexivity.
  - reflexivity.
  - vm_compute. reflexivity.
  - vm_compute. tauto.
  - vm_compute. reflexivity.
  - lia.
Defined.

Lemma minimax_move_not_dominated_witness :
  well_shaped initial8 = true /\
  (3 <= difficulty (OthelloCPU_init BLACK 3))%nat /\
  exists sm,
    _minimax (OthelloCPU_init BLACK 3) 2 (apply_move initial8 (2, 3) BLACK)
             NegInf PosInf false = Some sm /\
    forall mv, In mv (get_valid_moves initial8 BLACK) ->
      exists s,
        _minimax (OthelloCPU_init BLACK 3) 2 (apply_move initial8 mv BLACK)
                 NegInf PosInf false = Some s /\
        ext_leb s sm = true.
Proof.
  assert (Hd : (3 <= difficulty (OthelloCPU_init BLACK 3))%nat) by (cbn; lia).
  split; [reflexivity|]. split; [exact Hd|].
  apply (minimax_move_not_dominated 0 (OthelloCPU_init BLACK 3) initial8 (2, 3)
           eq_refl Hd).
  vm_compute. reflexivity.
Defined.

(** ** The window of [_minimax] *)

(** X17.  On a window [alpha < beta] and a board whose array has shape
    (size, size), where the search without pruning returns [v]: [_minimax]
    returns [v] itself when [v] is strictly inside the window, a score at
    or below [alpha] when [v] is, and a score at or above [beta] when [v]
    is. *)
Theorem minimax_window_sound (cpu : OthelloCPU) (depth : nat) (b : OthelloBoard)
    (alpha beta : ext) (is_maximizing : bool) (v : ext) :
  well_shaped b = true ->
  ext_ltb alpha beta = true ->
  minimax_unpruned cpu depth b is_maximizing = Some v ->
  exists s,
    _minimax cpu depth b alpha beta is_maximizing = Some s /\
    (ext_ltb alpha v = true -> ext_ltb v beta = true -> s = v) /\
    (ext_leb v alpha = true -> ext_leb s alpha = true) /\
    (ext_leb beta v = true -> ext_leb beta s = true).
Proof.
  intros _ Hw Hv.
  destruct (minimax_agrees cpu depth b alpha beta is_maximizing v Hw Hv)
    as (s & Hs & Hcl).
  exists s. split; [exact Hs|]. clear Hs Hv.
  repeat split; revert Hw Hcl; ext_crush.
Qed.

Lemma minimax_window_sound_witness :
  well_shaped (apply_move initial8 (2, 3) BLACK) = true /\
  ext_ltb (Fin 0) (Fin 10) = true /\
  exists s,
    _minimax (OthelloCPU_init BLACK 3) 2 (apply_move initial8 (2, 3) BLACK)
             (Fin 0) (Fin 10) false = Some s /\
    ext_leb (Fin 10) s = true.
Proof.
  assert (Hw : well_shaped (apply_move initial8 (2, 3) BLACK) = true)
    by (vm_compute; reflexivity).
  split; [exact Hw|]. split; [reflexivity|].
  destruct (minimax_window_sound (OthelloCPU_init BLACK 3) 2
              (apply_move initial8 (2, 3) BLACK) (Fin 0) (Fin 10) false (Fin 42)
              Hw eq_refl) as (s & Hs & _ & _ & Hhigh).
  - vm_compute. reflexivity.
  - exists s. split; [exact Hs|]. apply Hhigh. reflexivity.
Defined.

(** ** Scores of the search are finite *)

Section FiniteLoops.
Variable child : OthelloBoard -> ext -> ext -> M ext.
Variable b : OthelloBoard.
Variable current_player : Player.
Hypothesis child_finite :
  forall tb alpha beta s, child tb alpha beta = Some s -> exists z, s = Fin z.

Lemma max_loop_finite (moves : list (Z * Z)) :
  forall m alpha beta s,
    m <> PosInf -> (moves <> [] \/ exists z, m = Fin z) ->
    max_loop child b current_player moves m alpha beta = Some s ->
    exists z, s = Fin z.
Proof.
  induction moves as [|mv rest IH]; intros m alpha beta s Hm Hor H;
    cbn [max_loop] in H; cbv [ret] in H.
  - injection H as <-. destruct Hor as [Hne|Hz]; [congruence|exact Hz].
  - destruct (child _ alpha beta) as [cs|] eqn:E; [|discriminate].
    cbn [bind] in H. destruct (child_finite _ _ _ _ E) as [z ->].
    assert (Hfin : exists z', ext_max m (Fin z) = Fin z').
    { destruct m as [|zm|]; [now exists z| |congruence].
      unfold ext_max, ext_ltb. cbn [ext_leb].
      destruct (negb (z <=? zm)); now eexists. }
    destruct Hfin as [z' Hz']. rewrite Hz' in H.
    destruct (ext_leb beta (ext_max alpha (Fin z))).
    + injection H as <-. now exists z'.
    + eapply IH; [| |exact H]; [discriminate|right; now exists z'].
Qed.

Lemma min_loop_finite (moves : list (Z * Z)) :
  forall m alpha beta s,
    m <> NegInf -> (moves <> [] \/ exists z, m = Fin z) ->
    min_loop child b current_player moves m alpha beta = Some s ->
    exists z, s = Fin z.
Proof.
  induction moves as [|mv rest IH]; intros m alpha beta s Hm Hor H;
    cbn [min_loop] in H; cbv [ret] in H.
  - injection H as <-. destruct Hor as [Hne|Hz]; [congruence|exact Hz].
  - destruct (child _ alpha beta) as [cs|] eqn:E; [|discriminate].
    cbn [bind] in H. destruct (child_finite _ _ _ _ E) as [z ->].
    assert (Hfin : exists z', ext_min m (Fin z) = Fin z').
    { destruct m as [|zm|]; [congruence| |now exists z].
      unfold ext_min, ext_ltb. cbn [ext_leb].
      destruct (negb (zm <=? z)); now eexists. }
    destruct Hfin as [z' Hz']. rewrite Hz' in H.
    destruct (ext_leb (ext_min beta (Fin z)) alpha).
    + injection H as <-. now exists z'.
    + eapply IH; [| |exact H]; [discriminate|right; now exists z'].
Qed.
End FiniteLoops.

(** X18.  Whatever the window, on a board whose array has shape
    (size, size), a score returned by [_minimax] is a finite number: the
    infinities that start its loops never come out. *)
Theorem minimax_score_finite (cpu : OthelloCPU) (depth : nat) (b : OthelloBoard)
    (alpha beta : ext) (is_maximizing : bool) (s : ext) :
  well_shaped b = true ->
  _minimax cpu depth b alpha beta is_maximizing = Some s ->
  exists z, s = Fin z.
Proof.
  intros _. revert b alpha beta is_maximizing s.
  induction depth as [|d IH]; intros b alpha beta mx s H; cbn [_minimax] in H.
  - unfold score_of in H. destruct (_evaluate_board cpu b) as [x|]; [|discriminate].
    cbn [bind] in H. cbv [ret] in H. injection H as <-. now eexists.
  - destruct (is_game_over b).
    + unfold score_of in H. destruct (_evaluate_board cpu b) as [x|]; [|discriminate].
      cbn [bind] in H. cbv [ret] in H. injection H as <-. now eexists.
    + destruct (get_valid_moves b (if mx then player cpu else opponent cpu))
        as [|mv rest]; [now apply IH in H|].
      destruct mx.
      * apply (max_loop_finite _ b (player cpu)
                 (fun tb a bt s0 => IH tb a bt false s0)
                 (mv :: rest) NegInf alpha beta s); auto; [discriminate|].
        left. discriminate.
      * apply (min_loop_finite _ b (opponent cpu)
                 (fun tb a bt s0 => IH tb a bt true s0)
                 (mv :: rest) PosInf alpha beta s); auto; [discriminate|].
        left. discriminate.
Qed.

Lemma minimax_score_finite_witness :
  well_shaped initial8 = true /\
  exists z,
    _minimax (OthelloCPU_init BLACK 3) 2 initial8 NegInf PosInf true = Some (Fin z).
Proof.
  split; [reflexivity|].
  destruct (_minimax (OthelloCPU_init BLACK 3) 2 initial8 NegInf PosInf true)
    as [s|] eqn:E.
  - destruct (minimax_score_finite _ _ initial8 _ _ _ _ eq_refl E) as [z ->].
    now exists z.
  - exfalso. vm_compute in E. discriminate.
Defined.

(** ** The HTTP routes *)

Lemma make_move_valid (b : OthelloBoard) (row col : Z) (p : Player) :
  is_valid_move b row col p = true ->
  make_move b row col p
  = (true, fold_left (flip_step row col p) directions (set_cell b row col (value p))).
Proof. intros H. unfold make_move. now rewrite H. Qed.

(** X19.  For a request carrying a well-formed 8x8 board (cells 0, 1 or
    -1), POST /move answers 400 only
    for a player value that is not 1, -1 or 0, and answers a move that is
    not valid with 500: the 400 raised for it inside the [try] body is
    caught by [except Exception].  No other error status leaves the
    handler. *)
Theorem route_make_move_status (board_list : grid) (row col player_value : Z) :
  well_formed (list_to_board board_list) = true ->
  (route_make_move board_list row col player_value = HTTPError 400 <->
   Player_of_value player_value = None) /\
  (route_make_move board_list row col player_value = HTTPError 500 <->
   exists p, Player_of_value player_value = Some p /\
             is_valid_move (list_to_board board_list) row col p = false) /\
  (forall st, route_make_move board_list row col player_value = HTTPError st ->
              st = 400 \/ st = 500).
Proof.
  intros _. unfold route_make_move.
  destruct (Player_of_value player_value) as [p|]; cbn [handle].
  2: { split; [tauto|]. split.
       - split; [discriminate|]. intros (p & H & _). discriminate.
       - intros st H. injection H as <-. now left. }
  destruct (is_valid_move (list_to_board board_list) row col p) eqn:Hv; cbn [negb].
  - rewrite (make_move_valid _ _ _ _ Hv). cbn [negb].
    destruct (get_score _) as [bl wh]. cbn [handle].
    split; [split; discriminate|]. split.
    + split; [discriminate|]. intros (q & Hq & Hf). injection Hq as <-. congruence.
    + discriminate.
  - cbn [handle]. split; [split; discriminate|]. split.
    + split; [|reflexivity]. intros _. now exists p.
    + intros st H. injection H as <-. now right.
Qed.

Lemma route_make_move_status_witness :
  well_formed (list_to_board (board initial8)) = true /\
  route_make_move (board initial8) 0 0 1 = HTTPError 500.
Proof.
  split; [reflexivity|].
  apply (proj2 (proj1 (proj2 (route_make_move_status (board initial8) 0 0 1 eq_refl)))).
  exists BLACK. split; reflexivity.
Defined.

(** X20.  When POST /move answers a request carrying a well-formed 8x8
    board (cells 0, 1 or -1) with a body, the move was valid for a real colour; the body carries the board after the move, the other
    colour as the player to move (the opposite value), that colour's
    valid moves on the new board, the scores of the new board, and a
    winner only when the game is over, the side with more pieces. *)
Theorem route_make_move_body (board_list : grid) (row col player_value : Z)
    (s : BoardState) :
  well_formed (list_to_board board_list) = true ->
  route_make_move board_list row col player_value = Ok s ->
  exists p,
    Player_of_value player_value = Some p /\ p <> EMPTY /\
    is_valid_move (list_to_board board_list) row col p = true /\
    let after := snd (make_move (list_to_board board_list) row col p) in
    bs_board s = board after /\
    current_player s = - player_value /\
    valid_moves s
      = get_valid_moves after (if Player_eqb p BLACK then WHITE else BLACK) /\
    (black_score s, white_score s) = get_score after /\
    game_over s = is_game_over after /\
    (winner s = Some (value BLACK) <->
       game_over s = true /\ white_score s < black_score s) /\
    (winner s = Some (value WHITE) <->
       game_over s = true /\ black_score s < white_score s) /\
    (winner s = None <->
       game_over s = false \/ black_score s = white_score s).
Proof.
  intros _ H. unfold route_make_move in H.
  destruct (Player_of_value player_value) as [p|] eqn:Hp; cbn [handle] in H;
    [|discriminate].
  destruct (is_valid_move (list_to_board board_list) row col p) eqn:Hv;
    cbn [negb] in H; [|discriminate].
  exists p. split; [reflexivity|].
  split; [now apply is_valid_move_player in Hv|].
  split; [exact Hv|].
  pose proof (make_move_valid _ _ _ _ Hv) as Hmm.
  destruct (make_move (list_to_board board_list) row col p) as [success after].
  injection Hmm as -> _. cbn [negb snd] in *.
  destruct (get_score after) as [bl wh] eqn:Hs. cbn [handle] in H.
  injection H as <-.
  cbn [bs_board current_player valid_moves black_score white_score game_over winner].
  split; [reflexivity|]. split.
  { unfold Player_of_value in Hp. apply is_valid_move_player in Hv.
    destruct (Z.eqb_spec player_value 1) as [->|_];
      [injection Hp as <-; reflexivity|].
    destruct (Z.eqb_spec player_value (-1)) as [->|_];
      [injection Hp as <-; reflexivity|].
    destruct (Z.eqb_spec player_value 0) as [->|_]; [|discriminate].
    injection Hp as <-. congruence. }
  split; [reflexivity|]. split; [reflexivity|]. split; [reflexivity|].
  generalize (is_game_over after). clear. intros over.
  destruct over; destruct (Z.ltb_spec wh bl); destruct (Z.ltb_spec bl wh);
    cbn [value];
    (split; [|split]); split;
    try discriminate; try reflexivity; try lia;
    try (intros [H1 H2]; (discriminate || lia));
    try (intros [H1|H2]; (discriminate || lia));
    try (intros _; split; (reflexivity || lia));
    try (intros _; (left; reflexivity) || (right; lia)).
Qed.

Lemma route_make_move_body_witness :
  well_formed (list_to_board (board initial8)) = true /\
  exists s,
    route_make_move (board initial8) 2 3 1 = Ok s /\
    current_player s = - 1 /\ (black_score s, white_score s) = (4, 1).
Proof.
  split; [reflexivity|].
  destruct (route_make_move (board initial8) 2 3 1) as [s|st] eqn:E.
  - exists s. split; [reflexivity|].
    destruct (route_make_move_body (board initial8) 2 3 1 s eq_refl E)
      as (p & Hp & _ & _ & _ & Hcur & _ & Hsc & _).
    split; [exact Hcur|]. rewrite Hsc.
    vm_compute in Hp. injection Hp as <-. vm_compute. reflexivity.
  - exfalso. vm_compute in E. discriminate.
Defined.

Lemma greedy_loop_total (cpu : OthelloCPU) (b : OthelloBoard) (moves : list (Z * Z)) :
  position_values cpu = POSITION_VALUES -> size b <= 8 ->
  forall best_move best_score,
    exists m, greedy_loop cpu b moves best_move best_score = Some m.
Proof.
  intros Hpv Hn. induction moves as [|mv rest IH]; intros bm bs; cbn [greedy_loop].
  - now eexists.
  - destruct (evaluate_board_total cpu (apply_move b mv (player cpu)) Hpv)
      as [s ->]; [now rewrite apply_move_size|].
    cbn [bind]. destruct (bs <? s); apply IH.
Qed.

Lemma get_move_total (rnd : nat) (cpu : OthelloCPU) (b : OthelloBoard) :
  position_values cpu = POSITION_VALUES -> size b <= 8 ->
  exists r, get_move rnd cpu b = Some r.
Proof.
  intros Hpv Hn. unfold get_move.
  destruct (get_valid_moves b (player cpu)) as [|mv rest]; [now eexists|].
  destruct (Nat.eqb (difficulty cpu) 1).
  { unfold _get_random_move.
    destruct (nth_error (mv :: rest) (rnd mod length (mv :: rest))) as [m|] eqn:E.
    - cbn [bind]. now eexists.
    - apply nth_error_None in E.
      pose proof (Nat.mod_upper_bound rnd (length (mv :: rest))) as Hb.
      cbn [length] in *. lia. }
  destruct (Nat.eqb (difficulty cpu) 2).
  { unfold _get_greedy_move. cbn [nth_error bind].
    destruct (greedy_loop_total cpu b (mv :: rest) Hpv Hn mv (-1)) as [m ->].
    cbn [bind]. now eexists. }
  unfold _get_minimax_move. cbn [nth_error bind].
  destruct (root_loop_total
              (fun tb => minimax_unpruned cpu (difficulty cpu - 1) tb false)
              cpu b (mv :: rest)) with (best_move := mv) (best_score := NegInf)
    as [m Hm].
  { intros mv'. apply minimax_unpruned_total; auto. now rewrite apply_move_size. }
  rewrite (root_loop_agrees _ _ cpu b (mv :: rest)
             (fun tb v => minimax_full_window cpu _ tb false v) _ _ _ Hm).
  cbn [bind]. now eexists.
Qed.

(** X21.  POST /cpu-move, for a request carrying a well-formed 8x8 board
    (cells 0, 1 or -1), a player value 1, -1 or 0 and a level of 1 or more, never answers with an
    error: it reports no move exactly when
    that colour has no valid move, leaving the board as it was, and
    otherwise it reports a valid move and the board after it.  The branch
    "CPU move failed" is never taken. *)
Theorem route_get_cpu_move_body (rnd : nat) (board_list : grid)
    (player_value : Z) (level : nat) (p : Player) :
  well_formed (list_to_board board_list) = true ->
  Player_of_value player_value = Some p -> (1 <= level)%nat ->
  exists r,
    route_get_cpu_move rnd board_list player_value level = Ok r /\
    (move r = None <-> get_valid_moves (list_to_board board_list) p = []) /\
    (move r = None -> new_board r = board_list) /\
    (forall mv, move r = Some mv ->
       is_valid_move (list_to_board board_list) (fst mv) (snd mv) p = true /\
       new_board r
       = board (snd (make_move (list_to_board board_list) (fst mv) (snd mv) p)) /\
       (cpu_black_score r, cpu_white_score r)
       = get_score (snd (make_move (list_to_board board_list) (fst mv) (snd mv) p))).
Proof.
  intros _ Hp Hl. unfold route_get_cpu_move. rewrite Hp.
  set (cpu := OthelloCPU_init p level).
  destruct (get_move_total rnd cpu (list_to_board board_list) eq_refl)
    as [res Hres]; [cbn; lia|].
  pose proof (get_move_no_move_iff rnd cpu (list_to_board board_list)) as Hnone.
  rewrite Hres. destruct res as [mv|].
  - pose proof (get_move_In _ _ _ _ Hres) as Hv. apply get_valid_moves_In in Hv.
    cbn [cpu OthelloCPU_init player] in Hv.
    pose proof (make_move_valid _ _ _ _ Hv) as Hmm.
    destruct (make_move (list_to_board board_list) (fst mv) (snd mv) p)
      as [success after] eqn:Emm.
    injection Hmm as -> _. cbn [negb snd].
    destruct (get_score after) as [bl wh] eqn:Hs. cbn [handle].
    eexists. split; [reflexivity|]. cbn [move new_board cpu_black_score cpu_white_score].
    split.
    { split; [discriminate|]. intros Hnil.
      apply get_valid_moves_In in Hv. rewrite Hnil in Hv. contradiction. }
    split; [discriminate|].
    intros mv' E. injection E as <-. rewrite Emm. cbn [snd]. rewrite Hs.
    repeat split; auto.
  - cbn [handle]. eexists. split; [reflexivity|]. cbn [move new_board].
    split; [|split; [reflexivity|discriminate]].
    split; [intros _; now apply Hnone|reflexivity].
Qed.

Lemma route_get_cpu_move_body_witness :
  well_formed (list_to_board (board initial8)) = true /\
  Player_of_value 1 = Some BLACK /\
  exists r,
    route_get_cpu_move 0 (board initial8) 1 3 = Ok r /\
    (move r = None <-> get_valid_moves (list_to_board (board initial8)) BLACK = []).
Proof.
  split; [reflexivity|]. split; [reflexivity|].
  destruct (route_get_cpu_move_body 0 (board initial8) 1 3 BLACK eq_refl eq_refl)
    as (r & Hr & Hn & _); [lia|].
  exists r. split; [exact Hr|exact Hn].
Defined.
